(** * packetforward: the forwarding client

    A shallow embedding of the client half of packetforward (package
    [packetforward]: [Client], [Write], [writeToUpstream], [dialUpstream],
    [copyToDownstream], [closeUpstream], [Close]) and the properties of its
    connection-management and retry state machine.

    The caller's thread runs [Write] and [Close]; every successful dial
    starts one goroutine running [copyToDownstream].  The model keeps the
    goroutines as data in the [world] and lets a schedule decide when they
    run: the interleavings of the caller with the copy loops, at the grain
    of one turn of a loop, are the runs of the model. *)

From Stdlib Require Import ZArith List Bool Lia.
From Stdlib.Strings Require Import String Byte.
From stdpp Require Import base list.
Import ListNotations.

Local Open Scope Z_scope.

(** ** Data *)

Abbreviation bytes := (list byte).

(** [time.Duration]: a signed 64-bit count of nanoseconds. *)
Definition Duration := Z.

Definition Millisecond : Duration := 1000000.

Definition Second : Duration := 1000 * Millisecond.

(** The package constant; no function of the package reads it. *)
Definition maxDialDelay : Duration := 1 * Second.

(** Go's [error] values.  [ErrEnv] is an error made outside the package (by
    the dial function, the transport or the downstream writer),
    [ErrClosedLink] the transport's answer on a closed connection; the other
    three are the messages the package builds around a cause. *)
Inductive error :=
| ErrEnv (msg : string)
| ErrClosedLink
| ErrDialing (cause : error)      (* "Error dialing upstream, will retry: %v" *)
| ErrSendingID (cause : error)    (* "Error sending client ID to upstream, will retry: %v" *)
| ErrWriting (cause : error).     (* "Unexpected error writing to upstream: %v" *)

(** What one call of the dial function gives: an error, or a fresh
    connection, described by what it will answer to the successive framed
    writes ([None] is success) and what its successive framed reads yield
    (the bytes read and the error, if any, returned with them). *)
Inductive dial_result :=
| DialErr (e : error)
| DialConn (ws : list (option error)) (rs : list (bytes * option error)).

(** [DialFunc]: the caller's dial capability.  It is effectful in Go; here it
    is a function of the number of earlier calls and of the timeout of the
    context it is given. *)
Definition DialFunc := nat -> Duration -> dial_result.

(** [io.Writer] for the downstream sink: the answer to a [Write] may depend
    on the payloads handed over before. *)
Definition Writer := list bytes -> bytes -> option error.

(** A connection made by the dial function, with the framing adapter over
    it.  [written] lists the frames the transport has received. *)
Record conn := {
  wscript : list (option error);
  rscript : list (bytes * option error);
  written : list bytes;
  closed : bool
}.

(** [forwarder]; a connection is named by its index in the world's [conns],
    a nil pointer is [None], and the channel of capacity one is its buffer. *)
Record forwarder := {
  id : string;
  downstream : Writer;
  idleTimeout : Duration;
  dialServer : DialFunc;
  upstreamConn : option nat;
  upstream : option nat;
  copyToDownstreamError : option error
}.

(** Where a [copyToDownstream] goroutine stands: in its loop, about to send
    its error on the channel, or returned. *)
Inductive gstate := Reading | Publishing (e : error) | Stopped.

Record goroutine := { glink : nat; gstate_of : gstate }.

(** Which call site wrote a frame: the identity frame of [dialUpstream] or
    the packet of [writeToUpstream]. *)
Inductive wkind := Handshake | Packet.

Inductive event :=
| EvSleep (d : Duration)
| EvDial (timeout : Duration) (r : option error)
| EvLinkWrite (k : wkind) (c : nat) (frame : bytes) (r : option error)
| EvSpawn (c : nat)
| EvClose (c : nat)
| EvRecv (e : error)
| EvLogDebug (msg : string)
| EvLogError (e : error)
| EvDeliver (g : nat) (p : bytes) (r : option error)
| EvLoopClose (g c : nat)
| EvPublish (g : nat) (e : error).

(** The forwarder, its environment and the history.  [sched] is the
    schedule: at each point where the caller's thread touches shared state
    the next batch names the goroutines that take a step before it. *)
Record world := {
  fwd : forwarder;
  ndials : nat;
  conns : list conn;
  delivered : list bytes;
  goroutines : list goroutine;
  sched : list (list nat);
  trace : list event
}.

Definition set_fwd (f : forwarder) (w : world) : world :=
  {| fwd := f; ndials := ndials w; conns := conns w; delivered := delivered w;
     goroutines := goroutines w; sched := sched w; trace := trace w |}.

Definition set_ndials (n : nat) (w : world) : world :=
  {| fwd := fwd w; ndials := n; conns := conns w; delivered := delivered w;
     goroutines := goroutines w; sched := sched w; trace := trace w |}.

Definition set_conns (cs : list conn) (w : world) : world :=
  {| fwd := fwd w; ndials := ndials w; conns := cs; delivered := delivered w;
     goroutines := goroutines w; sched := sched w; trace := trace w |}.

Definition set_delivered (d : list bytes) (w : world) : world :=
  {| fwd := fwd w; ndials := ndials w; conns := conns w; delivered := d;
     goroutines := goroutines w; sched := sched w; trace := trace w |}.

Definition set_goroutines (gs : list goroutine) (w : world) : world :=
  {| fwd := fwd w; ndials := ndials w; conns := conns w; delivered := delivered w;
     goroutines := gs; sched := sched w; trace := trace w |}.

Definition set_sched (s : list (list nat)) (w : world) : world :=
  {| fwd := fwd w; ndials := ndials w; conns := conns w; delivered := delivered w;
     goroutines := goroutines w; sched := s; trace := trace w |}.

Definition emit (e : event) (w : world) : world :=
  {| fwd := fwd w; ndials := ndials w; conns := conns w; delivered := delivered w;
     goroutines := goroutines w; sched := sched w; trace := trace w ++ [e] |}.

Definition set_link (uc u : option nat) (f : forwarder) : forwarder :=
  {| id := id f; downstream := downstream f; idleTimeout := idleTimeout f;
     dialServer := dialServer f; upstreamConn := uc; upstream := u;
     copyToDownstreamError := copyToDownstreamError f |}.

Definition set_chan (ch : option error) (f : forwarder) : forwarder :=
  {| id := id f; downstream := downstream f; idleTimeout := idleTimeout f;
     dialServer := dialServer f; upstreamConn := upstreamConn f;
     upstream := upstream f; copyToDownstreamError := ch |}.

Definition set_closed (c : conn) : conn :=
  {| wscript := wscript c; rscript := rscript c; written := written c;
     closed := true |}.

Definition close_conn (c : nat) (w : world) : world :=
  match conns w !! c with
  | Some cn => set_conns (<[c := set_closed cn]> (conns w)) w
  | None => w
  end.

Definition set_gstate (g : nat) (s : gstate) (w : world) : world :=
  match goroutines w !! g with
  | Some gr =>
      set_goroutines (<[g := {| glink := glink gr; gstate_of := s |}]> (goroutines w)) w
  | None => w
  end.

(** ** The copy loop *)

(** [upstream.Read(b)] on connection [c]: an error at once when the
    connection is closed, the next scripted result otherwise, and nothing
    yet ([None]: the read blocks) when the peer has sent nothing more. *)
Definition link_read (c : nat) (w : world)
  : option (bytes * option error * world) :=
  match conns w !! c with
  | None => None
  | Some cn =>
      if closed cn then Some ([], Some ErrClosedLink, w)
      else match rscript cn with
           | [] => None
           | (p, e) :: rs =>
               Some (p, e,
                     set_conns (<[c := {| wscript := wscript cn; rscript := rs;
                                          written := written cn;
                                          closed := false |}]> (conns w)) w)
           end
  end.

(** [f.downstream.Write(b[:n])], called by goroutine [g]. *)
Definition downstream_write (g : nat) (p : bytes) (w : world)
  : option error * world :=
  let r := downstream (fwd w) (delivered w) p in
  (r, emit (EvDeliver g p r) (set_delivered (delivered w ++ [p]) w)).

(** [upstream.Close()] followed by the goroutine reaching its send. *)
Definition loop_fail (g c : nat) (e : error) (w : world) : world :=
  set_gstate g (Publishing e) (emit (EvLoopClose g c) (close_conn c w)).

(** One step of goroutine [g] running [copyToDownstream]: one turn of its
    [for] loop, or its send on [copyToDownstreamError], which waits while the
    buffer is full.  A goroutine that cannot move leaves the world as it is. *)
Definition copy_step (g : nat) (w : world) : world :=
  match goroutines w !! g with
  | Some {| glink := c; gstate_of := Reading |} =>
      match link_read c w with
      | None => w
      | Some (p, readErr, w1) =>
          let '(writeErr, w2) :=
            if (0 <? Z.of_nat (length p))
            then downstream_write g p w1
            else (None, w1) in
          match writeErr with
          | Some e => loop_fail g c e w2
          | None =>
              match readErr with
              | Some e => loop_fail g c e w2
              | None => w2
              end
          end
      end
  | Some {| glink := c; gstate_of := Publishing e |} =>
      match copyToDownstreamError (fwd w) with
      | None =>
          set_gstate g Stopped
            (emit (EvPublish g e) (set_fwd (set_chan (Some e) (fwd w)) w))
      | Some _ => w
      end
  | _ => w
  end.

(** [copyToDownstream] run on its own: goroutine [g] takes [n] steps. *)
Fixpoint copyToDownstream (n : nat) (g : nat) (w : world) : world :=
  match n with
  | O => w
  | S n' => copyToDownstream n' g (copy_step g w)
  end.

Definition run_batch (batch : list nat) (w : world) : world :=
  fold_left (fun w g => copy_step g w) batch w.

(** ** The caller's thread *)

(** How a call of the caller's thread ends on a given schedule: it returns,
    it is still waiting on the channel when the schedule ends, the model's
    loop bound is used up, or it dereferences a nil pointer. *)
Inductive outcome (A : Type) :=
| Done (a : A) (w : world)
| Blocked (w : world)
| OutOfFuel (w : world)
| Panic (w : world).

Arguments Done {A} a w.
Arguments Blocked {A} w.
Arguments OutOfFuel {A} w.
Arguments Panic {A} w.

Definition world_of {A} (o : outcome A) : world :=
  match o with
  | Done _ w | Blocked w | OutOfFuel w | Panic w => w
  end.

Definition M (A : Type) := world -> outcome A.

Definition ret {A} (a : A) : M A := fun w => Done a w.

Definition bind {A B} (m : M A) (k : A -> M B) : M B :=
  fun w =>
    match m w with
    | Done a w' => k a w'
    | Blocked w' => Blocked w'
    | OutOfFuel w' => OutOfFuel w'
    | Panic w' => Panic w'
    end.

Notation "'let*' x ':=' c 'in' k" := (bind c (fun x => k))
  (at level 10, x pattern, c at level 100, k at level 200).

Definition get_fwd : M forwarder := fun w => Done (fwd w) w.

Definition panic {A} : M A := fun w => Panic w.

(** The goroutines named by the next batch of the schedule take their
    steps. *)
Definition yield : M unit := fun w =>
  match sched w with
  | [] => Done tt w
  | batch :: s => Done tt (run_batch batch (set_sched s w))
  end.

Definition log_debug (msg : string) : M unit := fun w =>
  Done tt (emit (EvLogDebug msg) w).

Definition log_error (e : error) : M unit := fun w =>
  Done tt (emit (EvLogError e) w).

(** [time.Sleep(d)]. *)
Definition sleep (d : Duration) : M unit :=
  let* _ := yield in
  fun w => Done tt (emit (EvSleep d) w).

(** An open connection after a write that answered [r]. *)
Definition conn_after_write (r : option error) (frame : bytes) (cn : conn) : conn :=
  {| wscript := tl (wscript cn); rscript := rscript cn;
     written := match r with
                | None => written cn ++ [frame]
                | Some _ => written cn
                end;
     closed := false |}.

Definition new_conn (ws : list (option error)) (rs : list (bytes * option error)) : conn :=
  {| wscript := ws; rscript := rs; written := []; closed := false |}.

(** [f.dialServer(ctx)] with a context of the given timeout: the new
    connection's name, or the error. *)
Definition dial (timeout : Duration) : M (error + nat) :=
  let* _ := yield in
  fun w =>
    let w1 := set_ndials (S (ndials w)) w in
    match dialServer (fwd w) (ndials w) timeout with
    | DialErr e => Done (inl e) (emit (EvDial timeout (Some e)) w1)
    | DialConn ws rs =>
        let c := length (conns w) in
        Done (inr c)
          (emit (EvDial timeout None)
             (set_conns (conns w ++ [new_conn ws rs]) w1))
    end.

(** [upstream.Write(frame)] on connection [c]: it fails on a closed
    connection, otherwise it answers as the connection's script says (and
    succeeds once the script is used up); a frame written with success has
    reached the transport. *)
Definition link_write (k : wkind) (c : nat) (frame : bytes) : M (option error) :=
  let* _ := yield in
  fun w =>
    match conns w !! c with
    | None => Panic w
    | Some cn =>
        if closed cn then
          Done (Some ErrClosedLink) (emit (EvLinkWrite k c frame (Some ErrClosedLink)) w)
        else
          let r := hd None (wscript cn) in
          Done r (emit (EvLinkWrite k c frame r)
                    (set_conns (<[c := conn_after_write r frame cn]> (conns w)) w))
    end.

(** [upstream.Close()] from the caller's thread. *)
Definition link_close (c : nat) : M unit :=
  let* _ := yield in
  fun w => Done tt (emit (EvClose c) (close_conn c w)).

(** [<-f.copyToDownstreamError]: the receive waits, while the goroutines run
    batch after batch, until the buffer holds a value. *)
Fixpoint recv_loop (s : list (list nat)) (w : world) : outcome error :=
  match copyToDownstreamError (fwd w) with
  | Some e =>
      let w' := set_sched s w in
      Done e (emit (EvRecv e) (set_fwd (set_chan None (fwd w')) w'))
  | None =>
      match s with
      | [] => Blocked (set_sched [] w)
      | batch :: s' => recv_loop s' (run_batch batch w)
      end
  end.

Definition recv : M error := fun w => recv_loop (sched w) w.

(** [ops.Go(func() { f.copyToDownstream(upstreamConn, upstream) })]. *)
Definition go_copyToDownstream (c : nat) : M unit := fun w =>
  Done tt (emit (EvSpawn c)
             (set_goroutines (goroutines w ++ [{| glink := c; gstate_of := Reading |}]) w)).

(** [Client]: the identity is the UUID drawn at construction. *)
Definition Client (uuid : string) (downstream : Writer) (idleTimeout : Duration)
    (dialServer : DialFunc) : forwarder :=
  {| id := uuid; downstream := downstream; idleTimeout := idleTimeout;
     dialServer := dialServer; upstreamConn := None; upstream := None;
     copyToDownstreamError := None |}.

(** The world in which a client has just been made, with the schedule of the
    run to come. *)
Definition start (f : forwarder) (s : list (list nat)) : world :=
  {| fwd := f; ndials := 0; conns := []; delivered := []; goroutines := [];
     sched := s; trace := [] |}.

(** Two's-complement wrap-around of [int64] arithmetic. *)
Definition wrap64 (z : Z) : Z := (z + 2 ^ 63) mod 2 ^ 64 - 2 ^ 63.

(** [time.Duration(x)] for a [float64] holding the integer [x].  Go leaves
    the result open when [x] is outside [int64]; the value here is the one
    amd64 gives. *)
Definition duration_of_float (x : Z) : Duration :=
  if (- 2 ^ 63 <=? x) && (x <? 2 ^ 63) then x else - 2 ^ 63.

(** The argument of [time.Sleep] in [writeToUpstream]:
    [time.Duration(math.Pow(2, priorAttempts)) * sleepTime], cut to
    [maxSleepTime] when greater. *)
Definition backoff (priorAttempts : Z) (sleepTime maxSleepTime : Duration) : Duration :=
  let sleepTime' := wrap64 (duration_of_float (2 ^ priorAttempts) * sleepTime) in
  if sleepTime' >? maxSleepTime then maxSleepTime else sleepTime'.

(** [dialUpstream].  The idle-timing wrapper and the framing adapter (big
    frames, buffering, no locking) that the source puts around the
    connection are part of what the connection answers to reads and
    writes. *)
Definition dialUpstream : M (option error) :=
  let* _ := log_debug "Dialing upstream" in
  let* f := get_fwd in
  let* r := dial (idleTimeout f) in
  match r with
  | inl dialErr => ret (Some (ErrDialing dialErr))
  | inr upstreamConn =>
      let upstream := upstreamConn in
      let* err := link_write Handshake upstream (list_byte_of_string (id f)) in
      match err with
      | Some err => ret (Some (ErrSendingID err))
      | None =>
          let* _ := (fun w => Done tt (set_fwd (set_link (Some upstreamConn) (Some upstream) (fwd w)) w)) in
          let* _ := go_copyToDownstream upstream in
          ret None
      end
  end.

(** [closeUpstream]. *)
Definition closeUpstream : M unit :=
  let* f := get_fwd in
  match upstream f with
  | Some u =>
      let* _ := link_close u in
      fun w => Done tt (set_fwd (set_link None None (fwd w)) w)
  | None => ret tt
  end.

(** How one turn of the [for] loop of [writeToUpstream] ends: [continue]
    with the loop's variables, or [return]. *)
Inductive flow :=
| Continue (priorAttempts : Z) (firstDial : bool)
| Return (err : option error).

(** Lines 102 to 111: the write on the live link. *)
Definition write_packet (b : bytes) (firstDial : bool) : M flow :=
  let priorAttempts := -1 in
  let* f := get_fwd in
  match upstream f with
  | None => panic
  | Some u =>
      let* writeErr := link_write Packet u b in
      match writeErr with
      | Some writeErr =>
          let* _ := closeUpstream in
          let* _ := log_error (ErrWriting writeErr) in
          ret (Continue priorAttempts firstDial)
      | None => ret (Return None)
      end
  end.

(** One turn of the loop of [writeToUpstream].  [priorAttempts] is a
    [float64] in the source; it only ever holds whole numbers. *)
Definition loop_body (b : bytes) (sleepTime maxSleepTime : Duration)
    (priorAttempts : Z) (firstDial : bool) : M flow :=
  let* _ := (if priorAttempts >? -1
             then sleep (backoff priorAttempts sleepTime maxSleepTime)
             else ret tt) in
  let priorAttempts := priorAttempts + 1 in
  let* f := get_fwd in
  match upstreamConn f with
  | None =>
      let* _ := (if negb firstDial
                 then (let* _ := recv in ret tt)
                 else ret tt) in
      let* err := dialUpstream in
      match err with
      | Some err =>
          let* _ := log_error err in
          ret (Continue priorAttempts firstDial)
      | None => write_packet b false
      end
  | Some _ => write_packet b firstDial
  end.

(** The loop of [writeToUpstream], cut after [fuel] turns. *)
Fixpoint write_loop (fuel : nat) (b : bytes) (sleepTime maxSleepTime : Duration)
    (priorAttempts : Z) (firstDial : bool) : M (option error) :=
  match fuel with
  | O => fun w => OutOfFuel w
  | S fuel' =>
      let* r := loop_body b sleepTime maxSleepTime priorAttempts firstDial in
      match r with
      | Continue priorAttempts' firstDial' =>
          write_loop fuel' b sleepTime maxSleepTime priorAttempts' firstDial'
      | Return err => ret err
      end
  end.

(** [writeToUpstream]. *)
Definition writeToUpstream (fuel : nat) (b : bytes) : M (option error) :=
  let priorAttempts := -1 in
  let sleepTime := 50 * Millisecond in
  let* f := get_fwd in
  let maxSleepTime := idleTimeout f in
  let firstDial := true in
  write_loop fuel b sleepTime maxSleepTime priorAttempts firstDial.

(** [Write]. *)
Definition Write (fuel : nat) (b : bytes) : M (Z * option error) :=
  let* writeErr := writeToUpstream fuel b in
  match writeErr with
  | Some e => ret (0, Some e)
  | None => ret (Z.of_nat (length b), None)
  end.

(** [Close]. *)
Definition Close : M (option error) :=
  let* _ := closeUpstream in
  let* _ := recv in
  ret None.

(** ** Observations on a world *)

(** The frames each connection's transport has received. *)
Definition frames (w : world) : list (list bytes) := written <$> conns w.

(** Events of the copy loops, as opposed to those of the caller's thread. *)
Definition is_bg (e : event) : bool :=
  match e with
  | EvDeliver _ _ _ | EvLoopClose _ _ | EvPublish _ _ => true
  | _ => false
  end.

Definition is_active (g : goroutine) : bool :=
  match gstate_of g with
  | Stopped => false
  | _ => true
  end.

(** The number of [copyToDownstream] goroutines that have not returned. *)
Definition active_loops (w : world) : nat :=
  length (filter (fun g => is_active g = true) (goroutines w)).

Definition is_dial (e : event) : bool :=
  match e with
  | EvDial _ _ => true
  | _ => false
  end.

Definition is_recv (e : event) : bool :=
  match e with
  | EvRecv _ => true
  | _ => false
  end.

(** The arguments of the calls of [time.Sleep], in order. *)
Fixpoint sleeps (evs : list event) : list Duration :=
  match evs with
  | [] => []
  | EvSleep d :: evs' => d :: sleeps evs'
  | _ :: evs' => sleeps evs'
  end.

(** ** A Hoare logic for the caller's thread *)

(** [hoare P m Q E]: run from a world in [P], [m] returns in [Q] or is cut
    short (blocked, out of fuel, panicked) in [E]. *)
Definition hoare {A} (P : world -> Prop) (m : M A)
    (Q : A -> world -> Prop) (E : world -> Prop) : Prop :=
  forall w, P w ->
    match m w with
    | Done a w' => Q a w'
    | Blocked w' | OutOfFuel w' | Panic w' => E w'
    end.

(** [m] keeps the invariant [I], however it ends. *)
Definition preserves {A} (I : world -> Prop) (m : M A) : Prop :=
  hoare I m (fun _ => I) I.

(** ** What the copy loops leave alone *)

(** [w'] differs from [w] by steps of copy loops only: the forwarder's
    fields other than the channel, the dial count, the frames written and
    the number of goroutines are the same, and the trace has grown by events
    of the loops.  (The schedule still to come is no part of the
    relation.) *)
Record bg_related (w w' : world) : Prop := {
  bg_id : id (fwd w') = id (fwd w);
  bg_downstream : downstream (fwd w') = downstream (fwd w);
  bg_idle : idleTimeout (fwd w') = idleTimeout (fwd w);
  bg_dialServer : dialServer (fwd w') = dialServer (fwd w);
  bg_upstreamConn : upstreamConn (fwd w') = upstreamConn (fwd w);
  bg_upstream : upstream (fwd w') = upstream (fwd w);
  bg_ndials : ndials w' = ndials w;
  bg_frames : frames w' = frames w;
  bg_goroutines : length (goroutines w') = length (goroutines w);
  bg_trace : exists evs, trace w' = trace w ++ evs /\ Forall (fun e => is_bg e = true) evs
}.

(** An assertion that steps of the copy loops, and the passing of the
    schedule, cannot break. *)
Definition loop_stable (P : world -> Prop) : Prop :=
  (forall s w, P w -> P (set_sched s w)) /\ (forall g w, P w -> P (copy_step g w)).

(** The same, for an assertion that only looks at what no copy loop
    changes. *)
Definition bg_stable (P : world -> Prop) : Prop :=
  forall w w', bg_related w w' -> P w -> P w'.

(** ** The frames on each connection *)

(** A connection has received nothing yet, or the identity frame followed
    by packets that were handed to [Write]. *)
Definition frames_ok (idb : bytes) (sent : list bytes) (fs : list bytes) : Prop :=
  fs = [] \/ exists ps, fs = idb :: ps /\ Forall (fun p => In p sent) ps.

(** The invariant of the link state: the identity is the one drawn at
    construction, [upstreamConn] and [upstream] name the same connection or
    are both nil, every connection's frames are in order, and the current
    link has had its handshake. *)
Record link_inv (uuid : string) (sent : list bytes) (w : world) : Prop := {
  li_id : id (fwd w) = uuid;
  li_same : upstreamConn (fwd w) = upstream (fwd w);
  li_frames : Forall (frames_ok (list_byte_of_string uuid) sent) (frames w);
  li_live : forall c, upstream (fwd w) = Some c ->
            exists ps, frames w !! c = Some (list_byte_of_string uuid :: ps)
}.

(** The last frame the current link's transport has received is [b]. *)
Definition last_frame_is (b : bytes) (w : world) : Prop :=
  exists c fs, upstream (fwd w) = Some c /\ frames w !! c = Some (fs ++ [b]).

(** ** Worlds a client can be in *)

(** The worlds reached from a fresh client with identity [uuid] by calls of
    [Write] and [Close], whatever the schedule, and the packets handed to
    [Write] on the way.  A call that is cut short leaves the world in which
    it stands. *)
Inductive reachable (uuid : string) : list bytes -> world -> Prop :=
| reach_start ds idle dialf s :
    reachable uuid [] (start (Client uuid ds idle dialf) s)
| reach_Write sent w fuel b :
    reachable uuid sent w -> reachable uuid (b :: sent) (world_of (Write fuel b w))
| reach_Close sent w :
    reachable uuid sent w -> reachable uuid sent (world_of (Close w))
| reach_sched sent w s :
    reachable uuid sent w -> reachable uuid sent (set_sched s w).

(** A goroutine that cannot move: it has returned, or it waits in a read on
    an open connection on which nothing has arrived. *)
Definition parked (w : world) (gr : goroutine) : Prop :=
  match gstate_of gr with
  | Stopped => True
  | Reading =>
      exists cn, conns w !! glink gr = Some cn /\ closed cn = false /\ rscript cn = []
  | Publishing _ => False
  end.

Definition idle (w : world) : Prop :=
  forall g gr, goroutines w !! g = Some gr -> parked w gr.

(** ** The deadline of a dial *)

Definition dial_ok (T : Duration) (e : event) : Prop :=
  match e with
  | EvDial t _ => t = T
  | _ => True
  end.

(** The idle timeout is [T] and every dial so far was given the timeout
    [T]. *)
Definition dials_use (T : Duration) (w : world) : Prop :=
  idleTimeout (fwd w) = T /\ Forall (dial_ok T) (trace w).

(** ** Backoff *)

(** [priorAttempts] as the events of a [Write] determine it: a failed dial
    or handshake adds one, a write of the packet sets it back to [-1]. *)
Definition count_after (k : Z) (e : event) : Z :=
  match e with
  | EvDial _ (Some _) => k + 1
  | EvLinkWrite Handshake _ _ (Some _) => k + 1
  | EvLinkWrite Packet _ _ _ => -1
  | _ => k
  end.

Definition attempts_after (k : Z) (evs : list event) : Z :=
  fold_left count_after evs k.

Definition is_dial_failure (e : event) : Prop :=
  match e with
  | EvDial _ (Some _) | EvLinkWrite Handshake _ _ (Some _) => True
  | _ => False
  end.

(** Every sleep among [evs] comes when the count [k] of the events before it
    is above [-1], and lasts [backoff k] of the base delay and the cap
    [T]. *)
Fixpoint sleeps_ok (T : Duration) (k : Z) (evs : list event) : Prop :=
  match evs with
  | [] => True
  | e :: evs' =>
      match e with
      | EvSleep d => -1 < k /\ d = backoff k (50 * Millisecond) T
      | _ => True
      end /\ sleeps_ok T (count_after k e) evs'
  end.

(** Since the trace was [t0], the events fit [sleeps_ok] and leave the count
    at [k]. *)
Definition since (t0 : list event) (T : Duration) (k : Z) (w : world) : Prop :=
  idleTimeout (fwd w) = T /\
  exists evs, trace w = t0 ++ evs /\ sleeps_ok T (-1) evs
              /\ attempts_after (-1) evs = k.

(** ** One copy loop *)

(** [n > 0] for the bytes a read gave. *)
Definition has_bytes (p : bytes) : bool := 0 <? Z.of_nat (length p).

(** The sink takes each of [ps] in turn, after the payloads [h]. *)
Fixpoint accepts_all (ds : Writer) (h : list bytes) (ps : list bytes) : Prop :=
  match ps with
  | [] => True
  | p :: ps' => ds h p = None /\ accepts_all ds (h ++ [p]) ps'
  end.

(** Goroutine [g] is in the loop of [copyToDownstream] on the open
    connection [c], whose reads to come are [rs]. *)
Definition loop_at (g c : nat) (rs : list (bytes * option error)) (w : world) : Prop :=
  goroutines w !! g = Some {| glink := c; gstate_of := Reading |} /\
  exists cn, conns w !! c = Some cn /\ closed cn = false /\ rscript cn = rs.

(** Goroutine [g] has returned, having closed connection [c] and left [e] on
    the channel; it takes no further step. *)
Definition finished (g c : nat) (e : error) (w : world) : Prop :=
  copyToDownstreamError (fwd w) = Some e /\
  (exists cn, conns w !! c = Some cn /\ closed cn = true) /\
  goroutines w !! g = Some {| glink := c; gstate_of := Stopped |} /\
  forall n, copyToDownstream n g w = w.

(** ** The drain before a redial *)

(** No receive from the channel comes before the first dial among [evs]. *)
Fixpoint first_dial_undrained (evs : list event) : bool :=
  match evs with
  | [] => true
  | EvRecv _ :: _ => false
  | EvDial _ _ :: _ => true
  | _ :: evs' => first_dial_undrained evs'
  end.

(** Since the trace was [t0]: while [firstDial] holds nothing was received,
    and in any case nothing was received before the first dial. *)
Definition undrained (t0 : list event) (fd : bool) (w : world) : Prop :=
  exists evs, trace w = t0 ++ evs
              /\ first_dial_undrained evs = true
              /\ (fd = true -> Forall (fun e => is_recv e = false) evs).

(** After a dial the flag no longer matters. *)
Definition dialed (t0 : list event) (w : world) : Prop :=
  exists evs, trace w = t0 ++ evs
              /\ first_dial_undrained evs = true /\ existsb is_dial evs = true.

Definition drain_inv (t0 : list event) (fd : bool) (w : world) : Prop :=
  if fd then undrained t0 true w else dialed t0 w.

(** ** Particular clients *)

(** A client whose dial always succeeds, on a schedule that lets the first
    copy loop finish while [Close] waits. *)
Definition closed_client : world :=
  start (Client "7f3c" (fun _ _ => None) Second (fun _ _ => DialConn [] []))
    [[]; []; []; []; [0; 0]]%nat.

Definition flaky_dial : DialFunc := fun n _ =>
  match n with
  | 0%nat => DialConn [None; None; Some (ErrEnv "reset")] []
  | 1%nat => DialErr (ErrEnv "refused")
  | _ => DialConn [] []
  end.

(** A client after a first [Write]: its link is live and will fail on the
    next write, and the next dial will be refused. *)
Definition after_first_write : world :=
  world_of (Write 1 [x01] (start (Client "7f3c" (fun _ _ => None) Second flaky_dial) [])).

(** A client whose server refuses every dial. *)
Definition unreachable_server : world :=
  start (Client "7f3c" (fun _ _ => None) Second (fun _ _ => DialErr (ErrEnv "refused"))) [].

(** A client after its first [Write], on a link on which the relay then
    sends the frames [rs]; the copy loop has not yet run. *)
Definition linked_client (rs : list (bytes * option error)) : world :=
  world_of (Write 1 [x01]
              (start (Client "7f3c" (fun _ _ => None) Second (fun _ _ => DialConn [] rs)) [])).

Definition reset_dial : DialFunc := fun n _ =>
  match n with
  | 0%nat => DialConn [None; None; Some (ErrEnv "reset")] []
  | _ => DialConn [] []
  end.

(** A client after a first [Write] that went through; the link will fail on
    its next write. *)
Definition before_reset : world :=
  world_of (Write 1 [x01] (start (Client "7f3c" (fun _ _ => None) Second reset_dial) [])).

Definition refusing_dial : DialFunc := fun n _ =>
  match n with
  | 0%nat => DialConn [None; Some (ErrEnv "reset")] []
  | _ => DialErr (ErrEnv "refused")
  end.

(** A client whose first dial gives a link that fails on the packet, and
    whose server refuses every later dial; the schedule lets the copy loop
    end while the [Write] waits for it, and goes on with [rest]. *)
Definition stuck_client (rest : list (list nat)) : world :=
  start (Client "7f3c" (fun _ _ => None) Second refusing_dial)
    ([[]; []; []; []; [0; 0]; []]%nat ++ rest).

(** The same client at the head of the third turn of the loop. *)
Definition stuck_world : world := world_of (Write 2 [x01] (stuck_client [])).

(** The second link's script for a client whose first link fails on its
    second packet: the relay sends one payload and then the read fails. *)
Definition stale_dial : DialFunc := fun n _ =>
  match n with
  | 0%nat => DialConn [None; None; Some (ErrEnv "reset")] []
  | _ => DialConn [] [([x0a], None); ([], Some (ErrEnv "EOF"))]
  end.

(** That client after two [Write]s.  The second one found link 0 failing,
    closed it and dialed link 1; the loop of link 0 ran while it dialed, so
    that its error is on the channel; the loop of link 1 has not run yet. *)
Definition stale_client : world :=
  world_of (Write 2 [x02]
    (set_sched [[]; []; [0; 0]; []; []]%nat
       (world_of (Write 1 [x01]
          (start (Client "7f3c" (fun _ _ => None) Second stale_dial) []))))).

(** ** What is outstanding on the channel *)

(** One when the buffer of [copyToDownstreamError] holds a value. *)
Definition chan_count (w : world) : nat :=
  match copyToDownstreamError (fwd w) with
  | Some _ => 1
  | None => 0
  end.

(** The sends still to be received: one for every copy loop that has not
    returned, and one for the value in the buffer. *)
Definition outstanding (w : world) : nat := active_loops w + chan_count w.

(** Goroutine [g] is not, or no longer, in the loop of [copyToDownstream]. *)
Definition not_reading (g : nat) (w : world) : Prop :=
  match goroutines w !! g with
  | Some {| glink := _; gstate_of := Reading |} => False
  | _ => True
  end.

(** ** Runs in which the copy loops wait *)

(** [w0] is [w] but for the schedule that is left. *)
Definition same_run (w w0 : world) : Prop :=
  fwd w0 = fwd w /\ ndials w0 = ndials w /\ conns w0 = conns w
  /\ delivered w0 = delivered w /\ goroutines w0 = goroutines w
  /\ trace w0 = trace w.

(** A fresh client whose server refuses the first dial and takes the
    second; the relay then stays silent. *)
Definition late_dial : DialFunc := fun n _ =>
  match n with
  | 0%nat => DialErr (ErrEnv "refused")
  | _ => DialConn [] []
  end.

Definition late_client : world :=
  start (Client "7f3c" (fun _ _ => None) Second late_dial) [[]; [0%nat]; []].

(** A client whose first link the relay has dropped: the copy loop has
    read the error, closed the link and sent the error on the channel.  The
    server takes the next dial. *)
Definition dropped_dial : DialFunc := fun n _ =>
  match n with
  | 0%nat => DialConn [] [([], Some (ErrEnv "EOF"))]
  | _ => DialConn [] []
  end.

Definition dropped_client : world :=
  copyToDownstream 2 0
    (world_of (Write 1 [x01]
                 (start (Client "7f3c" (fun _ _ => None) Second dropped_dial) []))).

(** ** Nil dereferences *)

(** The call has dereferenced a nil [upstream]. *)
Definition panicked {A} (o : outcome A) : Prop :=
  match o with
  | Panic _ => True
  | _ => False
  end.

(** From [P], [m] does not dereference nil, and [Q] holds when it returns. *)
Definition no_panic {A} (P : world -> Prop) (m : M A) (Q : A -> world -> Prop) : Prop :=
  forall w, P w ->
    match m w with
    | Done a w' => Q a w'
    | Panic _ => False
    | Blocked _ | OutOfFuel _ => True
    end.

(** [upstreamConn] and [upstream] are set together, to a connection that
    has been dialed. *)
Definition link_wf (w : world) : Prop :=
  upstreamConn (fwd w) = upstream (fwd w)
  /\ forall c, upstream (fwd w) = Some c -> (c < length (conns w))%nat.

(** * Properties *)

(** ** Rules of the Hoare logic *)

Lemma hoare_ret {A} (a : A) (Q : A -> world -> Prop) E :
  hoare (Q a) (ret a) Q E.
Proof. intros w H. exact H. Qed.

Lemma hoare_bind {A B} P (m : M A) (k : A -> M B) Q R E :
  hoare P m Q E -> (forall a, hoare (Q a) (k a) R E) -> hoare P (bind m k) R E.
Proof.
  intros Hm Hk w HP. unfold bind. specialize (Hm w HP).
  destruct (m w) as [a w'| | |]; auto. apply Hk, Hm.
Qed.

Lemma hoare_weaken {A} (P P' : world -> Prop) (m : M A) (Q Q' : A -> world -> Prop)
    (E E' : world -> Prop) :
  hoare P' m Q' E' ->
  (forall w, P w -> P' w) -> (forall a w, Q' a w -> Q a w) ->
  (forall w, E' w -> E w) ->
  hoare P m Q E.
Proof.
  intros H HP HQ HE w Hw. specialize (H w (HP w Hw)).
  destruct (m w); auto.
Qed.

Lemma hoare_stronger_pre {A} (P P' : world -> Prop) (m : M A) Q E :
  hoare P' m Q E -> (forall w, P w -> P' w) -> hoare P m Q E.
Proof. intros H HP. eapply hoare_weaken; eauto. Qed.

Lemma hoare_weaker_post {A} (P : world -> Prop) (m : M A) (Q Q' : A -> world -> Prop) E :
  hoare P m Q' E -> (forall a w, Q' a w -> Q a w) -> hoare P m Q E.
Proof. intros H HQ. eapply hoare_weaken; eauto. Qed.

Lemma hoare_pre {A} (P : world -> Prop) (m : M A) Q E :
  (forall w, P w -> hoare (fun w' => w' = w) m Q E) -> hoare P m Q E.
Proof. intros H w Hw. exact (H w Hw w eq_refl). Qed.

Lemma hoare_get_fwd (P : world -> Prop) E :
  hoare P get_fwd (fun f w => P w /\ f = fwd w) E.
Proof. intros w H. simpl. auto. Qed.

Lemma hoare_panic {A} (P : world -> Prop) (Q : A -> world -> Prop) :
  hoare P panic Q P.
Proof. intros w H. exact H. Qed.

Lemma preserves_ret {A} I (a : A) : preserves I (ret a).
Proof. intros w H. exact H. Qed.

Lemma preserves_bind {A B} I (m : M A) (k : A -> M B) :
  preserves I m -> (forall a, preserves I (k a)) -> preserves I (bind m k).
Proof. intros Hm Hk. eapply hoare_bind; [exact Hm | exact Hk]. Qed.

Lemma preserves_get_fwd I : preserves I get_fwd.
Proof. intros w H. exact H. Qed.

Lemma preserves_panic {A} I : preserves I (@panic A).
Proof. intros w H. exact H. Qed.

Lemma preserves_world_of {A} I (m : M A) w :
  preserves I m -> I w -> I (world_of (m w)).
Proof. intros H Hw. specialize (H w Hw). destruct (m w); exact H. Qed.

(** ** Steps of the copy loops *)

Lemma bg_related_refl w : bg_related w w.
Proof. split; auto. exists []. rewrite app_nil_r. auto. Qed.

Lemma bg_related_trans w1 w2 w3 :
  bg_related w1 w2 -> bg_related w2 w3 -> bg_related w1 w3.
Proof.
  intros [] []. split; try congruence.
  destruct bg_trace0 as (e1 & H1 & F1), bg_trace1 as (e2 & H2 & F2).
  exists (e1 ++ e2). rewrite H2, H1, app_assoc. split; auto.
  apply Forall_app; auto.
Qed.

Lemma frames_insert_same (cs : list conn) c cn cn' :
  cs !! c = Some cn -> written cn' = written cn ->
  written <$> <[c := cn']> cs = written <$> cs.
Proof.
  intros Hc Hw. rewrite list_fmap_insert, Hw.
  apply list_insert_id. rewrite list_lookup_fmap, Hc. reflexivity.
Qed.

Lemma bg_related_emit e w : is_bg e = true -> bg_related w (emit e w).
Proof. intros H. split; auto. exists [e]. split; auto. Qed.

Lemma bg_related_close_conn c w : bg_related w (close_conn c w).
Proof.
  unfold close_conn. destruct (conns w !! c) as [cn|] eqn:Hc;
    [|apply bg_related_refl].
  split; auto.
  - unfold frames; simpl. eapply frames_insert_same; eauto.
  - exists []. simpl. rewrite app_nil_r. auto.
Qed.

Lemma bg_related_set_gstate g s w : bg_related w (set_gstate g s w).
Proof.
  unfold set_gstate. destruct (goroutines w !! g); [|apply bg_related_refl].
  split; auto.
  - simpl. apply length_insert.
  - exists []. simpl. rewrite app_nil_r. auto.
Qed.

Lemma bg_related_loop_fail g c e w : bg_related w (loop_fail g c e w).
Proof.
  unfold loop_fail.
  eapply bg_related_trans; [apply bg_related_close_conn|].
  eapply bg_related_trans;
    [apply (bg_related_emit (EvLoopClose g c)); reflexivity|].
  apply bg_related_set_gstate.
Qed.

Lemma bg_related_link_read c w p e w1 :
  link_read c w = Some (p, e, w1) -> bg_related w w1.
Proof.
  unfold link_read. destruct (conns w !! c) as [cn|] eqn:Hc; [|discriminate].
  destruct (closed cn).
  - intros [= <- <- <-]. apply bg_related_refl.
  - destruct (rscript cn) as [|[p' e'] rs]; [discriminate|].
    intros [= <- <- <-]. split; auto.
    + unfold frames; simpl. eapply frames_insert_same; eauto.
    + exists []. simpl. rewrite app_nil_r. auto.
Qed.

Lemma bg_related_downstream_write g p w :
  bg_related w (snd (downstream_write g p w)).
Proof.
  unfold downstream_write; simpl. split; auto.
  eexists [_]. simpl. split; eauto.
Qed.

Lemma bg_related_copy_step g w : bg_related w (copy_step g w).
Proof.
  unfold copy_step.
  destruct (goroutines w !! g) as [[c [|e|]]|]; try apply bg_related_refl.
  - destruct (link_read c w) as [[[p readErr] w1]|] eqn:Hr; [|apply bg_related_refl].
    apply bg_related_link_read in Hr.
    eapply bg_related_trans; [exact Hr|].
    destruct (0 <? Z.of_nat (length p)).
    + pose proof (bg_related_downstream_write g p w1) as Hd.
      destruct (downstream_write g p w1) as [writeErr w2]. simpl in Hd.
      eapply bg_related_trans; [exact Hd|].
      destruct writeErr; [apply bg_related_loop_fail|].
      destruct readErr; [apply bg_related_loop_fail|apply bg_related_refl].
    + destruct readErr; [apply bg_related_loop_fail|apply bg_related_refl].
  - destruct (copyToDownstreamError (fwd w)); [apply bg_related_refl|].
    eapply bg_related_trans; [|apply bg_related_set_gstate].
    split; auto. eexists [_]. simpl. split; eauto.
Qed.

Lemma bg_related_run_batch batch w : bg_related w (run_batch batch w).
Proof.
  revert w. induction batch as [|g batch IH]; intros w; simpl.
  - apply bg_related_refl.
  - eapply bg_related_trans; [apply bg_related_copy_step|apply IH].
Qed.

Lemma bg_related_set_sched s w : bg_related w (set_sched s w).
Proof. split; auto. exists []. simpl. rewrite app_nil_r. auto. Qed.

Lemma bg_stable_loop_stable P : bg_stable P -> loop_stable P.
Proof.
  intros H. split; intros x w Hw; (eapply H; [|exact Hw]).
  - apply bg_related_set_sched.
  - apply bg_related_copy_step.
Qed.

Lemma loop_stable_run_batch P batch w :
  loop_stable P -> P w -> P (run_batch batch w).
Proof.
  intros [_ HP]. revert w. induction batch as [|g batch IH]; intros w Hw; simpl; auto.
Qed.

Lemma hoare_yield_stable (P : world -> Prop) E :
  loop_stable P -> hoare P yield (fun _ => P) E.
Proof.
  intros HP w Hw. unfold yield. destruct (sched w) as [|batch s]; [exact Hw|].
  apply loop_stable_run_batch; [exact HP|]. apply HP, Hw.
Qed.

Lemma recv_loop_spec (P : world -> Prop) (Q : error -> world -> Prop) (E : world -> Prop) :
  loop_stable P ->
  (forall w e, P w -> copyToDownstreamError (fwd w) = Some e ->
               Q e (emit (EvRecv e) (set_fwd (set_chan None (fwd w)) w))) ->
  (forall w, P w -> E w) ->
  forall s w, P w ->
    match recv_loop s w with
    | Done e w' => Q e w'
    | Blocked w' | OutOfFuel w' | Panic w' => E w'
    end.
Proof.
  intros HP HQ HE s. induction s as [|batch s IH]; intros w Hw; simpl.
  - destruct (copyToDownstreamError (fwd w)) eqn:Hc.
    + refine (HQ (set_sched [] w) e _ Hc). apply HP, Hw.
    + apply HE. apply HP, Hw.
  - destruct (copyToDownstreamError (fwd w)) eqn:Hc.
    + refine (HQ (set_sched (batch :: s) w) e _ Hc). apply HP, Hw.
    + apply IH. apply loop_stable_run_batch; auto.
Qed.

Lemma hoare_recv_stable (P : world -> Prop) (Q : error -> world -> Prop) (E : world -> Prop) :
  loop_stable P ->
  (forall w e, P w -> copyToDownstreamError (fwd w) = Some e ->
               Q e (emit (EvRecv e) (set_fwd (set_chan None (fwd w)) w))) ->
  (forall w, P w -> E w) ->
  hoare P recv Q E.
Proof. intros HP HQ HE w Hw. apply recv_loop_spec with (P := P); auto. Qed.

Lemma hoare_after_yield {A} (P : world -> Prop) (f : M A) Q E :
  loop_stable P -> hoare P f Q E -> hoare P (let* _ := yield in f) Q E.
Proof.
  intros HP Hf. eapply hoare_bind; [apply hoare_yield_stable, HP|]. intros u. exact Hf.
Qed.

Lemma hoare_recv (P : world -> Prop) (Q : error -> world -> Prop) (E : world -> Prop) :
  bg_stable P ->
  (forall w e, P w -> copyToDownstreamError (fwd w) = Some e ->
               Q e (emit (EvRecv e) (set_fwd (set_chan None (fwd w)) w))) ->
  (forall w, P w -> E w) ->
  hoare P recv Q E.
Proof. intros HP. apply hoare_recv_stable, bg_stable_loop_stable, HP. Qed.

(** ** Rules for the calls into the environment *)

Lemma hoare_sleep_stable d (P : world -> Prop) (Q : unit -> world -> Prop) E :
  loop_stable P ->
  (forall w, P w -> Q tt (emit (EvSleep d) w)) ->
  hoare P (sleep d) Q E.
Proof.
  intros HP HQ. apply hoare_after_yield; [exact HP|]. intros w Hw. apply HQ, Hw.
Qed.

Lemma hoare_dial_stable t (P : world -> Prop) (Q : error + nat -> world -> Prop) E :
  loop_stable P ->
  (forall w e, P w -> dialServer (fwd w) (ndials w) t = DialErr e ->
     Q (inl e) (emit (EvDial t (Some e)) (set_ndials (S (ndials w)) w))) ->
  (forall w ws rs, P w -> dialServer (fwd w) (ndials w) t = DialConn ws rs ->
     Q (inr (length (conns w)))
       (emit (EvDial t None)
          (set_conns (conns w ++ [new_conn ws rs]) (set_ndials (S (ndials w)) w)))) ->
  hoare P (dial t) Q E.
Proof.
  intros HP He Hc. apply hoare_after_yield; [exact HP|]. intros w Hw.
  destruct (dialServer (fwd w) (ndials w) t) eqn:Hd; [apply He | apply Hc]; auto.
Qed.

Lemma hoare_link_write_stable k c frame (P : world -> Prop) (Q : option error -> world -> Prop) E :
  loop_stable P ->
  (forall w, P w -> conns w !! c = None -> E w) ->
  (forall w cn, P w -> conns w !! c = Some cn -> closed cn = true ->
     Q (Some ErrClosedLink) (emit (EvLinkWrite k c frame (Some ErrClosedLink)) w)) ->
  (forall w cn, P w -> conns w !! c = Some cn -> closed cn = false ->
     Q (hd None (wscript cn))
       (emit (EvLinkWrite k c frame (hd None (wscript cn)))
          (set_conns (<[c := conn_after_write (hd None (wscript cn)) frame cn]> (conns w)) w))) ->
  hoare P (link_write k c frame) Q E.
Proof.
  intros HP Hn Hcl Hop. apply hoare_after_yield; [exact HP|]. intros w Hw.
  destruct (conns w !! c) as [cn|] eqn:Hc; [|apply Hn; auto].
  destruct (closed cn) eqn:Hcd; [eapply Hcl | eapply Hop]; eauto.
Qed.

Lemma hoare_link_close_stable c (P : world -> Prop) (Q : unit -> world -> Prop) E :
  loop_stable P ->
  (forall w, P w -> Q tt (emit (EvClose c) (close_conn c w))) ->
  hoare P (link_close c) Q E.
Proof.
  intros HP HQ. apply hoare_after_yield; [exact HP|]. intros w Hw. apply HQ, Hw.
Qed.

Lemma hoare_sleep d (P : world -> Prop) (Q : unit -> world -> Prop) E :
  bg_stable P ->
  (forall w, P w -> Q tt (emit (EvSleep d) w)) ->
  hoare P (sleep d) Q E.
Proof. intros HP. apply hoare_sleep_stable, bg_stable_loop_stable, HP. Qed.

Lemma hoare_dial t (P : world -> Prop) (Q : error + nat -> world -> Prop) E :
  bg_stable P ->
  (forall w e, P w -> dialServer (fwd w) (ndials w) t = DialErr e ->
     Q (inl e) (emit (EvDial t (Some e)) (set_ndials (S (ndials w)) w))) ->
  (forall w ws rs, P w -> dialServer (fwd w) (ndials w) t = DialConn ws rs ->
     Q (inr (length (conns w)))
       (emit (EvDial t None)
          (set_conns (conns w ++ [new_conn ws rs]) (set_ndials (S (ndials w)) w)))) ->
  hoare P (dial t) Q E.
Proof. intros HP. apply hoare_dial_stable, bg_stable_loop_stable, HP. Qed.

Lemma hoare_link_write k c frame (P : world -> Prop) (Q : option error -> world -> Prop) E :
  bg_stable P ->
  (forall w, P w -> conns w !! c = None -> E w) ->
  (forall w cn, P w -> conns w !! c = Some cn -> closed cn = true ->
     Q (Some ErrClosedLink) (emit (EvLinkWrite k c frame (Some ErrClosedLink)) w)) ->
  (forall w cn, P w -> conns w !! c = Some cn -> closed cn = false ->
     Q (hd None (wscript cn))
       (emit (EvLinkWrite k c frame (hd None (wscript cn)))
          (set_conns (<[c := conn_after_write (hd None (wscript cn)) frame cn]> (conns w)) w))) ->
  hoare P (link_write k c frame) Q E.
Proof. intros HP. apply hoare_link_write_stable, bg_stable_loop_stable, HP. Qed.

Lemma hoare_link_close c (P : world -> Prop) (Q : unit -> world -> Prop) E :
  bg_stable P ->
  (forall w, P w -> Q tt (emit (EvClose c) (close_conn c w))) ->
  hoare P (link_close c) Q E.
Proof. intros HP. apply hoare_link_close_stable, bg_stable_loop_stable, HP. Qed.

Lemma hoare_write_loop b st mst (I : Z -> bool -> world -> Prop)
    (Q : option error -> world -> Prop) (E : world -> Prop) :
  (forall pa fd,
     hoare (I pa fd) (loop_body b st mst pa fd)
       (fun r w => match r with
                   | Continue pa' fd' => I pa' fd' w
                   | Return err => Q err w
                   end) E) ->
  (forall pa fd w, I pa fd w -> E w) ->
  forall fuel pa fd, hoare (I pa fd) (write_loop fuel b st mst pa fd) Q E.
Proof.
  intros Hbody HE fuel. induction fuel as [|fuel IH]; intros pa fd; simpl.
  - intros w Hw. eapply HE, Hw.
  - eapply hoare_bind; [apply Hbody|]. intros [pa' fd'|err].
    + apply IH.
    + intros w Hw. exact Hw.
Qed.

(** ** The link invariant *)

Lemma link_inv_ext uuid sent w w' :
  id (fwd w') = id (fwd w) ->
  upstreamConn (fwd w') = upstreamConn (fwd w) ->
  upstream (fwd w') = upstream (fwd w) ->
  frames w' = frames w ->
  link_inv uuid sent w -> link_inv uuid sent w'.
Proof.
  intros Hi Hc Hu Hf []. split; rewrite ?Hi, ?Hc, ?Hu, ?Hf; auto.
Qed.

Lemma link_inv_bg uuid sent : bg_stable (link_inv uuid sent).
Proof. intros w w' []. apply link_inv_ext; auto. Qed.

Lemma frames_ok_mono idb sent sent' fs :
  (forall p, In p sent -> In p sent') -> frames_ok idb sent fs -> frames_ok idb sent' fs.
Proof.
  intros Hs [->|(ps & -> & Hps)]; [left; reflexivity|right].
  exists ps. split; [reflexivity|]. eapply Forall_impl; [exact Hps|]. auto.
Qed.

Lemma link_inv_mono uuid sent sent' w :
  (forall p, In p sent -> In p sent') -> link_inv uuid sent w -> link_inv uuid sent' w.
Proof.
  intros Hs []. split; auto.
  eapply Forall_impl; [exact li_frames0|]. intros fs. apply frames_ok_mono, Hs.
Qed.

Lemma link_inv_start uuid ds idle dialf s sent :
  link_inv uuid sent (start (Client uuid ds idle dialf) s).
Proof. split; simpl; auto; try discriminate; constructor. Qed.

Lemma frames_after_write (w : world) c cn r frame :
  conns w !! c = Some cn ->
  frames (set_conns (<[c := conn_after_write r frame cn]> (conns w)) w)
  = <[c := match r with
           | None => written cn ++ [frame]
           | Some _ => written cn
           end]> (frames w).
Proof. intros Hc. unfold frames; simpl. rewrite list_fmap_insert. reflexivity. Qed.

Lemma frames_emit e w : frames (emit e w) = frames w.
Proof. reflexivity. Qed.

Lemma frames_lookup (w : world) c cn :
  conns w !! c = Some cn -> frames w !! c = Some (written cn).
Proof. intros H. unfold frames. rewrite list_lookup_fmap, H. reflexivity. Qed.

Lemma frames_failed_write (w : world) c cn e frame :
  conns w !! c = Some cn ->
  frames (set_conns (<[c := conn_after_write (Some e) frame cn]> (conns w)) w) = frames w.
Proof.
  intros Hc. rewrite frames_after_write by exact Hc.
  apply list_insert_id, frames_lookup, Hc.
Qed.

Lemma link_inv_write uuid sent (w : world) c cn frame :
  link_inv uuid sent w ->
  conns w !! c = Some cn ->
  frames_ok (list_byte_of_string uuid) sent (written cn ++ [frame]) ->
  (forall ps, written cn = list_byte_of_string uuid :: ps ->
              exists ps', written cn ++ [frame] = list_byte_of_string uuid :: ps') ->
  link_inv uuid sent
    (emit (EvLinkWrite Packet c frame None)
       (set_conns (<[c := conn_after_write None frame cn]> (conns w)) w))
  /\ link_inv uuid sent
    (emit (EvLinkWrite Handshake c frame None)
       (set_conns (<[c := conn_after_write None frame cn]> (conns w)) w)).
Proof.
  intros [] Hc Hok Hlive.
  assert (Hfr : forall k, frames (emit (EvLinkWrite k c frame None)
       (set_conns (<[c := conn_after_write None frame cn]> (conns w)) w))
       = <[c := written cn ++ [frame]]> (frames w)).
  { intros k. apply (frames_after_write w c cn None frame Hc). }
  assert (Hgoal : forall k, link_inv uuid sent (emit (EvLinkWrite k c frame None)
       (set_conns (<[c := conn_after_write None frame cn]> (conns w)) w))).
  { intros k. split; auto.
    - rewrite Hfr. apply Forall_insert; auto.
    - intros c' Hu. rewrite Hfr. destruct (li_live0 c' Hu) as (ps & Hps).
      destruct (decide (c = c')) as [->|Hne].
      + rewrite list_lookup_insert_eq by (eapply lookup_lt_Some; eauto).
        rewrite (frames_lookup _ _ _ Hc) in Hps. injection Hps as Hps.
        destruct (Hlive ps Hps) as (ps' & ->). eauto.
      + rewrite list_lookup_insert_ne by exact Hne. eauto. }
  split; apply Hgoal.
Qed.

Lemma bg_stable_and (P Q : world -> Prop) :
  bg_stable P -> bg_stable Q -> bg_stable (fun w => P w /\ Q w).
Proof. intros HP HQ w w' R [H1 H2]. split; [eapply HP | eapply HQ]; eauto. Qed.

Lemma bg_stable_frames (P : list (list bytes) -> Prop) :
  bg_stable (fun w => P (frames w)).
Proof. intros w w' R H. rewrite (bg_frames _ _ R). exact H. Qed.

Lemma bg_stable_upstream (P : option nat -> Prop) :
  bg_stable (fun w => P (upstream (fwd w))).
Proof. intros w w' R H. rewrite (bg_upstream _ _ R). exact H. Qed.

Lemma bg_stable_upstreamConn (P : option nat -> Prop) :
  bg_stable (fun w => P (upstreamConn (fwd w))).
Proof. intros w w' R H. rewrite (bg_upstreamConn _ _ R). exact H. Qed.

Lemma bg_stable_pure (P : Prop) : bg_stable (fun _ => P).
Proof. intros w w' R H. exact H. Qed.

Lemma dialUpstream_link_inv uuid sent :
  preserves (link_inv uuid sent) dialUpstream.
Proof.
  unfold dialUpstream.
  apply preserves_bind.
  { intros w H. simpl. eapply link_inv_ext; [..|exact H]; reflexivity. }
  intros _.
  eapply hoare_bind with (Q := fun f w => link_inv uuid sent w /\ id f = uuid).
  { intros w H. simpl. split; [exact H|apply H]. }
  intros f.
  eapply hoare_bind with
    (Q := fun r w => link_inv uuid sent w /\ id f = uuid /\
                     match r with
                     | inl _ => True
                     | inr c => frames w !! c = Some []
                     end).
  { apply hoare_dial.
    - apply bg_stable_and; [apply link_inv_bg|apply bg_stable_pure].
    - intros w e [H Hf] _. split; [|auto].
      eapply link_inv_ext; [..|exact H]; reflexivity.
    - intros w ws rs [H Hf] _.
      assert (Hfr : frames (emit (EvDial (idleTimeout f) None)
                (set_conns (conns w ++ [new_conn ws rs]) (set_ndials (S (ndials w)) w)))
              = frames w ++ [[]]).
      { unfold frames; simpl. rewrite fmap_app. reflexivity. }
      split; [|split; [exact Hf|]].
      + destruct H. split; auto.
        * rewrite Hfr. apply Forall_app. split; [exact li_frames0|].
          constructor; [left; reflexivity|constructor].
        * intros c Hc. rewrite Hfr. destruct (li_live0 c Hc) as (ps & Hps).
          exists ps. apply lookup_app_l_Some, Hps.
      + rewrite Hfr. replace (length (conns w)) with (length (frames w))
          by (unfold frames; apply length_fmap).
        apply list_lookup_middle. reflexivity. }
  intros [dialErr|c].
  { intros w [H _]. exact H. }
  simpl.
  eapply hoare_bind with
    (Q := fun err w => link_inv uuid sent w /\
                       match err with
                       | Some _ => True
                       | None => exists ps, frames w !! c = Some (list_byte_of_string uuid :: ps)
                       end).
  { apply hoare_link_write.
    - apply bg_stable_and; [apply link_inv_bg|].
      apply bg_stable_and; [apply bg_stable_pure|].
      apply (bg_stable_frames (fun fs => fs !! c = Some [])).
    - intros w [H _] _. exact H.
    - intros w cn [H _] _ _. split; [|exact I].
      eapply link_inv_ext; [..|exact H]; reflexivity.
    - intros w cn (H & Hid & Hnil) Hc _.
      assert (Hw : written cn = []).
      { rewrite (frames_lookup _ _ _ Hc) in Hnil. congruence. }
      destruct (hd None (wscript cn)) as [e|].
      + split; [|exact I]. eapply link_inv_ext; [..|exact H]; try reflexivity.
        exact (frames_failed_write w c cn e (list_byte_of_string (id f)) Hc).
      + rewrite Hid. split.
        * apply (link_inv_write uuid sent w c cn (list_byte_of_string uuid) H Hc).
          -- rewrite Hw. right. exists []. split; [reflexivity|constructor].
          -- intros ps Hps. congruence.
        * exists []. rewrite frames_emit.
          rewrite (frames_after_write w c cn None (list_byte_of_string uuid) Hc).
          rewrite list_lookup_insert_eq.
          -- rewrite Hw. reflexivity.
          -- eapply lookup_lt_Some. apply (frames_lookup _ _ _ Hc). }
  intros [err|].
  { intros w [H _]. exact H. }
  intros w [H (ps & Hps)]. simpl.
  destruct H. split; simpl; auto.
  intros c' [= <-]. eauto.
Qed.

Lemma closeUpstream_link_inv uuid sent :
  hoare (link_inv uuid sent) closeUpstream
    (fun _ w => link_inv uuid sent w /\ upstream (fwd w) = None
                /\ upstreamConn (fwd w) = None)
    (link_inv uuid sent).
Proof.
  unfold closeUpstream.
  eapply hoare_bind; [apply hoare_get_fwd|].
  intros f. destruct (upstream f) as [u|] eqn:Hu.
  - apply hoare_stronger_pre with (P' := link_inv uuid sent); [|intros w [H _]; exact H].
    eapply hoare_bind with (Q := fun _ => link_inv uuid sent).
    + apply hoare_link_close.
      * apply link_inv_bg.
      * intros w H. destruct (bg_related_close_conn u w).
        eapply link_inv_ext; [..|exact H]; simpl; auto.
    + intros _ w H. simpl. destruct H. repeat split; simpl; auto. discriminate.
  - intros w [H ->]. simpl. split; [exact H|]. split; [exact Hu|].
    rewrite (li_same _ _ _ H). exact Hu.
Qed.

Lemma Close_link_inv uuid sent :
  hoare (link_inv uuid sent) Close
    (fun r w => r = None /\ link_inv uuid sent w /\ upstream (fwd w) = None
                /\ upstreamConn (fwd w) = None)
    (link_inv uuid sent).
Proof.
  unfold Close.
  eapply hoare_bind; [apply closeUpstream_link_inv|]. intros ?.
  eapply hoare_bind with
    (Q := fun _ w => link_inv uuid sent w /\ upstream (fwd w) = None
                     /\ upstreamConn (fwd w) = None).
  - apply hoare_recv.
    + apply bg_stable_and; [apply link_inv_bg|].
      apply bg_stable_and;
        [apply (bg_stable_upstream (fun u => u = None))
        |apply (bg_stable_upstreamConn (fun u => u = None))].
    + intros w e (H & Hu & Hc) _. simpl. split; [|auto].
      eapply link_inv_ext; [..|exact H]; reflexivity.
    + intros w [H _]. exact H.
  - intros ? w H. simpl. auto.
Qed.

Lemma log_error_link_inv uuid sent e : preserves (link_inv uuid sent) (log_error e).
Proof. intros w H. simpl. eapply link_inv_ext; [..|exact H]; reflexivity. Qed.

Lemma write_packet_link_inv uuid sent b fd :
  In b sent ->
  hoare (link_inv uuid sent) (write_packet b fd)
    (fun r w => link_inv uuid sent w /\
                match r with
                | Continue _ _ => True
                | Return err => err = None /\ last_frame_is b w
                end)
    (link_inv uuid sent).
Proof.
  intros Hb. unfold write_packet.
  eapply hoare_bind; [apply hoare_get_fwd|].
  intros f. destruct (upstream f) as [u|] eqn:Hu.
  2:{ intros w [H _]. exact H. }
  apply hoare_stronger_pre
    with (P' := fun w => link_inv uuid sent w /\ upstream (fwd w) = Some u);
    [|intros w [H ->]; auto].
  eapply hoare_bind with
    (Q := fun werr w => link_inv uuid sent w /\
                        match werr with
                        | Some _ => True
                        | None => last_frame_is b w
                        end).
  { apply hoare_link_write.
    - apply bg_stable_and; [apply link_inv_bg|].
      apply (bg_stable_upstream (fun o => o = Some u)).
    - intros w [H _] _. exact H.
    - intros w cn [H _] _ _. split; [|exact I].
      eapply link_inv_ext; [..|exact H]; reflexivity.
    - intros w cn [H Hup] Hc _.
      destruct (hd None (wscript cn)) as [e|].
      + split; [|exact I]. eapply link_inv_ext; [..|exact H]; try reflexivity.
        exact (frames_failed_write w u cn e b Hc).
      + destruct (li_live _ _ _ H u Hup) as (ps & Hps).
        rewrite (frames_lookup _ _ _ Hc) in Hps. injection Hps as Hps.
        split.
        * apply (link_inv_write uuid sent w u cn b H Hc).
          -- right. exists (ps ++ [b]). rewrite Hps. split; [reflexivity|].
             apply Forall_app. split; [|constructor; [exact Hb|constructor]].
             pose proof (li_frames _ _ _ H) as Hall.
             rewrite Forall_forall in Hall.
             destruct (Hall (written cn)) as [Hnil|(ps' & Hps' & Hin)].
             ++ eapply list_elem_of_lookup_2, frames_lookup, Hc.
             ++ congruence.
             ++ congruence.
          -- intros ps' Hps'. rewrite Hps'. eexists. reflexivity.
        * exists u, (written cn). split; [exact Hup|].
          rewrite frames_emit, (frames_after_write w u cn None b Hc).
          apply list_lookup_insert_eq. eapply lookup_lt_Some.
          apply (frames_lookup _ _ _ Hc). }
  intros [writeErr|].
  - apply hoare_stronger_pre with (P' := link_inv uuid sent); [|intros w [H _]; exact H].
    eapply hoare_bind with (Q := fun _ => link_inv uuid sent).
    { eapply hoare_weaker_post; [apply closeUpstream_link_inv|].
      intros ? w [H _]. exact H. }
    intros ?. eapply hoare_bind; [apply log_error_link_inv|].
    intros ? w H. simpl. auto.
  - intros w [H Hl]. simpl. auto.
Qed.

Lemma loop_body_link_inv uuid sent b st mst pa fd :
  In b sent ->
  hoare (link_inv uuid sent) (loop_body b st mst pa fd)
    (fun r w => link_inv uuid sent w /\
                match r with
                | Continue _ _ => True
                | Return err => err = None /\ last_frame_is b w
                end)
    (link_inv uuid sent).
Proof.
  intros Hb. unfold loop_body.
  eapply hoare_bind with (Q := fun _ => link_inv uuid sent).
  { destruct (pa >? -1); [|intros w H; exact H].
    apply hoare_sleep; [apply link_inv_bg|].
    intros w H. eapply link_inv_ext; [..|exact H]; reflexivity. }
  intros ?.
  eapply hoare_bind with (Q := fun _ => link_inv uuid sent);
    [intros w H; exact H|].
  intros f. destruct (upstreamConn f).
  { apply write_packet_link_inv, Hb. }
  eapply hoare_bind with (Q := fun _ => link_inv uuid sent).
  { destruct (negb fd); [|intros w H; exact H].
    eapply hoare_bind with (Q := fun _ => link_inv uuid sent);
      [|intros ? w H; exact H].
    apply hoare_recv; [apply link_inv_bg| |auto].
    intros w e H _. eapply link_inv_ext; [..|exact H]; reflexivity. }
  intros ?.
  eapply hoare_bind; [apply dialUpstream_link_inv|].
  intros [err|].
  - eapply hoare_bind; [apply log_error_link_inv|].
    intros ? w H. simpl. auto.
  - apply write_packet_link_inv, Hb.
Qed.

Lemma Write_link_inv uuid sent fuel b :
  In b sent ->
  hoare (link_inv uuid sent) (Write fuel b)
    (fun r w => r = (Z.of_nat (length b), None)
                /\ link_inv uuid sent w /\ last_frame_is b w)
    (link_inv uuid sent).
Proof.
  intros Hb. unfold Write, writeToUpstream.
  eapply hoare_bind with
    (Q := fun err w => err = None /\ link_inv uuid sent w /\ last_frame_is b w).
  - eapply hoare_bind with (Q := fun _ => link_inv uuid sent);
      [intros w H; exact H|]. intros f.
    apply hoare_write_loop with (I := fun _ _ => link_inv uuid sent); [|auto].
    intros pa fd. eapply hoare_weaker_post; [apply loop_body_link_inv, Hb|].
    intros [pa' fd'|err] w [H Hr]; [exact H|]. destruct Hr. auto.
  - intros err w (-> & H & Hl). simpl. auto.
Qed.

Lemma hoare_world_of {A} (I : world -> Prop) (m : M A) (Q : A -> world -> Prop) w :
  hoare I m Q I -> (forall a w', Q a w' -> I w') -> I w -> I (world_of (m w)).
Proof.
  intros H HQ Hw. specialize (H w Hw). destruct (m w); simpl; eauto.
Qed.

Lemma reachable_link_inv uuid sent w :
  reachable uuid sent w -> link_inv uuid sent w.
Proof.
  induction 1 as [ds idle dialf s|sent w fuel b _ IH|sent w _ IH|sent w s _ IH].
  - apply link_inv_start.
  - eapply hoare_world_of with (I := link_inv uuid (b :: sent)).
    + apply Write_link_inv. left. reflexivity.
    + intros a w' (_ & H & _). exact H.
    + eapply link_inv_mono; [|exact IH]. intros p Hp. right. exact Hp.
  - eapply hoare_world_of; [apply Close_link_inv| |exact IH].
    intros a w' (_ & H & _). exact H.
  - eapply link_inv_bg; [apply bg_related_set_sched|exact IH].
Qed.

(** ** Idle worlds *)

Lemma copy_step_idle g w : idle w -> copy_step g w = w.
Proof.
  intros Hi. unfold copy_step.
  destruct (goroutines w !! g) as [[c st]|] eqn:Hg; [|reflexivity].
  specialize (Hi g _ Hg). unfold parked in Hi; simpl in Hi.
  destruct st as [|e|]; [|contradiction|reflexivity].
  destruct Hi as (cn & Hc & Hcl & Hrs).
  unfold link_read. rewrite Hc, Hcl, Hrs. reflexivity.
Qed.

Lemma run_batch_idle batch w : idle w -> run_batch batch w = w.
Proof.
  intros Hi. induction batch as [|g batch IH]; simpl; [reflexivity|].
  rewrite copy_step_idle by exact Hi. exact IH.
Qed.

Lemma loop_stable_idle (P : world -> Prop) :
  (forall s w, P w -> P (set_sched s w)) ->
  (forall w, P w -> idle w) ->
  loop_stable P.
Proof.
  intros Hs Hi. split; [exact Hs|].
  intros g w Hw. rewrite copy_step_idle; auto.
Qed.

(** On an idle world with an empty channel a receive never returns. *)
Lemma recv_loop_idle s w :
  idle w -> copyToDownstreamError (fwd w) = None ->
  recv_loop s w = Blocked (set_sched [] w).
Proof.
  intros Hi Hc. induction s as [|batch s IH]; simpl; rewrite Hc; [reflexivity|].
  rewrite run_batch_idle by exact Hi. exact IH.
Qed.

(** ** The first Write of a client *)

(** The first [Write] of a client whose dial gives a connection that takes
    the identity frame and the packet, and on which nothing arrives. *)
Lemma first_Write_hoare uuid ds idle dialf ws fuel b :
  dialf 0%nat idle = DialConn ws [] ->
  hd None ws = None -> hd None (tl ws) = None ->
  hoare (fun w => fwd w = Client uuid ds idle dialf /\ ndials w = 0%nat
                  /\ conns w = [] /\ goroutines w = [])
    (Write (S fuel) b)
    (fun r w => r = (Z.of_nat (length b), None) /\
                exists cn, conns w = [cn]
                           /\ written cn = [list_byte_of_string uuid; b])
    (fun _ => False).
Proof.
  intros Hdial Hw0 Hw1.
  set (F := Client uuid ds idle dialf).
  set (cn1 := conn_after_write None (list_byte_of_string uuid) (new_conn ws [])).
  set (P0 := fun w => fwd w = F /\ ndials w = 0%nat /\ conns w = [] /\ goroutines w = []).
  set (P1 := fun w => fwd w = F /\ conns w = [new_conn ws []] /\ goroutines w = []).
  set (P2 := fun w => fwd w = F /\ conns w = [cn1] /\ goroutines w = []).
  set (P3 := fun w => fwd w = set_link (Some 0%nat) (Some 0%nat) F /\ conns w = [cn1]
                      /\ goroutines w = [{| glink := 0; gstate_of := Reading |}]).
  assert (S0 : loop_stable P0).
  { apply loop_stable_idle; [intros s w H; exact H|].
    intros w (_ & _ & _ & Hg) g gr. rewrite Hg. discriminate. }
  assert (S1 : loop_stable P1).
  { apply loop_stable_idle; [intros s w H; exact H|].
    intros w (_ & _ & Hg) g gr. rewrite Hg. discriminate. }
  assert (S3 : loop_stable P3).
  { apply loop_stable_idle; [intros s w H; exact H|].
    intros w (_ & Hc & Hg) g gr. rewrite Hg.
    destruct g as [|g]; [|destruct g; discriminate].
    intros [= <-]. exists cn1. rewrite Hc. auto. }
  unfold Write, writeToUpstream.
  eapply hoare_bind with
    (Q := fun err w => err = None /\
            exists cn, conns w = [cn] /\ written cn = [list_byte_of_string uuid; b]).
  2:{ intros err w [-> H]. simpl. auto. }
  eapply hoare_bind with (Q := fun _ => P0); [intros w H; exact H|]. intros f00.
  simpl write_loop.
  eapply hoare_bind with
    (Q := fun r w => r = Return None /\
            exists cn, conns w = [cn] /\ written cn = [list_byte_of_string uuid; b]).
  2:{ intros r w [-> H]. simpl. auto. }
  unfold loop_body. replace (-1 >? -1) with false by reflexivity.
  eapply hoare_bind with (Q := fun _ => P0); [intros w H; exact H|]. intros ?.
  eapply hoare_bind with (Q := fun f w => P0 w /\ f = F).
  { intros w H. simpl. split; [exact H|apply H]. }
  intros f. apply hoare_pre. intros w0 [H0 ->]. simpl upstreamConn. cbv iota.
  apply hoare_stronger_pre with (P' := P0); [|intros w ->; exact H0].
  clear w0 H0.
  simpl negb. cbv iota.
  eapply hoare_bind with (Q := fun _ => P0); [intros w H; exact H|]. intros ?.
  eapply hoare_bind with (Q := fun err w => err = None /\ P3 w).
  { unfold dialUpstream.
    eapply hoare_bind with (Q := fun _ => P0); [intros w H; exact H|]. intros ?.
    eapply hoare_bind with (Q := fun f w => P0 w /\ f = F).
    { intros w H. simpl. split; [exact H|apply H]. }
    intros f. apply hoare_pre. intros w0 [H0 ->].
    apply hoare_stronger_pre with (P' := P0); [|intros w ->; exact H0]. clear w0 H0.
    eapply hoare_bind with (Q := fun r w => r = inr 0%nat /\ P1 w).
    { apply hoare_dial_stable; [exact S0| |].
      - intros w e (Hf & Hn & _) He. rewrite Hf, Hn in He. simpl in He. congruence.
      - intros w ws' rs (Hf & Hn & Hc & Hg) He. rewrite Hf, Hn in He. simpl in He.
        rewrite Hdial in He. injection He as <- <-.
        rewrite Hc. simpl. split; [reflexivity|].
        repeat split; simpl; auto; try (rewrite Hc; reflexivity). }
    intros r. apply hoare_pre. intros w0 [-> H1].
    apply hoare_stronger_pre with (P' := P1); [|intros w ->; exact H1]. clear w0 H1.
    eapply hoare_bind with (Q := fun err w => err = None /\ P2 w).
    { apply hoare_link_write_stable; [exact S1| | |].
      - intros w (_ & Hc & _) Hn. rewrite Hc in Hn. discriminate.
      - intros w cn (_ & Hc & _) Hl. rewrite Hc in Hl. injection Hl as <-. discriminate.
      - intros w cn (Hf & Hc & Hg) Hl _. rewrite Hc in Hl. injection Hl as <-.
        simpl wscript. rewrite Hw0. split; [reflexivity|].
        repeat split; simpl; auto; try (rewrite Hc; reflexivity). }
    intros err. apply hoare_pre. intros w0 [-> H2].
    intros w ->. simpl. split; [reflexivity|].
    destruct H2 as (Hf & Hc & Hg).
    repeat split; simpl; auto; try (rewrite Hf; reflexivity);
      try (rewrite Hg; reflexivity). }
  intros err. apply hoare_pre. intros w0 [-> H3].
  apply hoare_stronger_pre with (P' := P3); [|intros w ->; exact H3]. clear w0 H3.
  unfold write_packet.
  eapply hoare_bind with (Q := fun f w => P3 w /\ f = set_link (Some 0%nat) (Some 0%nat) F).
  { intros w H. simpl. split; [exact H|apply H]. }
  intros f. apply hoare_pre. intros w0 [H3 ->].
  apply hoare_stronger_pre with (P' := P3); [|intros w ->; exact H3]. clear w0 H3.
  simpl upstream. cbv iota.
  eapply hoare_bind with
    (Q := fun werr w => werr = None /\
            exists cn, conns w = [cn] /\ written cn = [list_byte_of_string uuid; b]).
  { apply hoare_link_write_stable; [exact S3| | |].
    - intros w (_ & Hc & _) Hn. rewrite Hc in Hn. discriminate.
    - intros w cn (_ & Hc & _) Hl. rewrite Hc in Hl. injection Hl as <-. discriminate.
    - intros w cn (Hf & Hc & Hg) Hl _. rewrite Hc in Hl. injection Hl as <-.
      simpl wscript. rewrite Hw1. split; [reflexivity|].
      simpl. rewrite Hc. simpl. eexists. split; reflexivity. }
  intros werr. apply hoare_pre. intros w0 [-> H]. intros w ->. simpl. auto.
Qed.

(** ** The only way out of the retry loop *)

Lemma hoare_true {A} (m : M A) :
  hoare (fun _ => True) m (fun _ _ => True) (fun _ => True).
Proof. intros w _. destruct (m w); exact I. Qed.

Lemma write_packet_returns (P : world -> Prop) b fd :
  bg_stable P ->
  (forall e w, P w -> P (emit e w)) ->
  (forall c cn w, P w -> P (set_conns (<[c := cn]> (conns w)) w)) ->
  hoare P (write_packet b fd)
    (fun r w => match r with
                | Continue pa' _ => pa' = -1
                | Return err => err = None /\ last_frame_is b w /\ P w
                end)
    (fun _ => True).
Proof.
  intros HP Hemit Hconns. unfold write_packet.
  eapply hoare_bind; [apply hoare_get_fwd|].
  intros f. destruct (upstream f) as [u|] eqn:Hu.
  2:{ intros w _. exact I. }
  apply hoare_stronger_pre
    with (P' := fun w => P w /\ upstream (fwd w) = Some u);
    [|intros w [H ->]; auto].
  eapply hoare_bind with
    (Q := fun werr w => match werr with
                        | Some _ => True
                        | None => last_frame_is b w /\ P w
                        end).
  { apply hoare_link_write.
    - apply bg_stable_and; [exact HP|].
      apply (bg_stable_upstream (fun o => o = Some u)).
    - auto.
    - intros w cn _ _ _. exact I.
    - intros w cn [Hw Hup] Hc _.
      destruct (hd None (wscript cn)) as [e|]; [exact I|].
      split; [|apply Hemit, Hconns, Hw].
      exists u, (written cn). split; [exact Hup|].
      rewrite frames_emit, (frames_after_write w u cn None b Hc).
      apply list_lookup_insert_eq. eapply lookup_lt_Some.
      apply (frames_lookup _ _ _ Hc). }
  intros [writeErr|].
  - apply hoare_stronger_pre with (P' := fun _ => True); [|auto].
    eapply hoare_bind; [apply hoare_true|]. intros ?.
    eapply hoare_bind; [apply hoare_true|]. intros ? w _. reflexivity.
  - intros w H. simpl. auto.
Qed.

Lemma Write_result fuel b w r w' :
  Write fuel b w = Done r w' ->
  r = (Z.of_nat (length b), None) /\ last_frame_is b w'.
Proof.
  intros HW.
  assert (H : hoare (fun _ => True) (Write fuel b)
                (fun r w => r = (Z.of_nat (length b), None) /\ last_frame_is b w)
                (fun _ => True)).
  { unfold Write, writeToUpstream.
    eapply hoare_bind with (Q := fun err w => err = None /\ last_frame_is b w).
    - eapply hoare_bind; [apply hoare_true|]. intros f00.
      apply hoare_write_loop with (I := fun _ _ _ => True); [|auto].
      intros pa fd.
      assert (Hwp : forall fd', hoare (fun _ => True) (write_packet b fd')
                (fun r w => match r with
                            | Continue _ _ => True
                            | Return err => err = None /\ last_frame_is b w
                            end) (fun _ => True)).
      { intros fd'. eapply hoare_weaker_post.
        - apply write_packet_returns with (P := fun _ => True); auto.
          apply bg_stable_pure.
        - intros [pa' fd''|err] w0; [auto|]. intros (? & ? & _). auto. }
      unfold loop_body.
      eapply hoare_bind; [apply hoare_true|]. intros ?.
      eapply hoare_bind; [apply hoare_true|]. intros f.
      destruct (upstreamConn f); [apply Hwp|].
      eapply hoare_bind; [apply hoare_true|]. intros ?.
      eapply hoare_bind; [apply hoare_true|]. intros [err|]; [|apply Hwp].
      eapply hoare_bind; [apply hoare_true|]. intros ? w0 _. exact I.
    - intros err w0 [-> Hl]. simpl. auto. }
  specialize (H w I). rewrite HW in H. exact H.
Qed.

(** C9: whenever [Write fuel b] returns, in any world and on any schedule,
    it returns [(len(b), nil)], and it does so straight after the current
    link has taken [b] as a frame: the retry loop is left by success only,
    and no error reaches the caller. *)
Theorem Write_returns_only_success fuel b w r w' :
  Write fuel b w = Done r w' ->
  r = (Z.of_nat (length b), None) /\ last_frame_is b w'.
Proof. apply Write_result. Qed.

Lemma Write_returns_only_success_witness :
  let w0 := start (Client "c" (fun _ _ => None) Second (fun _ _ => DialConn [] [])) [] in
  Write 1 [x01; x02] w0 = Done (2, None) (world_of (Write 1 [x01; x02] w0))
  /\ last_frame_is [x01; x02] (world_of (Write 1 [x01; x02] w0)).
Proof.
  intros w0.
  assert (H : Write 1 [x01; x02] w0 = Done (2, None) (world_of (Write 1 [x01; x02] w0)))
    by (vm_compute; reflexivity).
  split; [exact H|].
  exact (proj2 (Write_returns_only_success 1 [x01; x02] w0 _ _ H)).
Defined.

(** ** The identity frame *)

(** C5: on every connection a client with identity [uuid] has ever dialed,
    in every world its calls of [Write] and [Close] can reach, the frames the
    transport has received are none at all, or the bytes of [uuid] first and
    then only packets that were handed to [Write]; the identity of the
    forwarder is still the one drawn at construction.  In particular, when
    the first dial gives a connection that takes the handshake and the
    packet (and on which the relay sends nothing meanwhile),
    [Write([0x01,0x02])] returns, on every schedule, with the transport
    having received the identity frame and then the frame [[0x01,0x02]]. *)
Theorem identity_frame_first uuid :
  (forall sent w c cn,
     reachable uuid sent w -> conns w !! c = Some cn ->
     id (fwd w) = uuid /\
     (written cn = [] \/
      exists ps, written cn = list_byte_of_string uuid :: ps
                 /\ Forall (fun p => In p sent) ps))
  /\
  (forall ds idle dialf s ws fuel,
     dialf 0%nat idle = DialConn ws [] ->
     hd None ws = None -> hd None (tl ws) = None ->
     exists w' cn,
       Write (S fuel) [x01; x02] (start (Client uuid ds idle dialf) s) = Done (2, None) w'
       /\ conns w' = [cn]
       /\ written cn = [list_byte_of_string uuid; [x01; x02]]).
Proof.
  split.
  - intros sent w c cn Hr Hc. apply reachable_link_inv in Hr.
    split; [apply Hr|].
    pose proof (li_frames _ _ _ Hr) as Hall. rewrite Forall_forall in Hall.
    apply (Hall (written cn)).
    eapply list_elem_of_lookup_2, frames_lookup, Hc.
  - intros ds idle dialf s ws fuel Hd H0 H1.
    pose proof (first_Write_hoare uuid ds idle dialf ws fuel [x01; x02] Hd H0 H1
                  (start (Client uuid ds idle dialf) s)) as H.
    simpl in H. specialize (H (conj eq_refl (conj eq_refl (conj eq_refl eq_refl)))).
    destruct (Write (S fuel) [x01; x02] (start (Client uuid ds idle dialf) s))
      as [r w'| | |]; try contradiction.
    destruct H as (-> & cn & Hc & Hw). exists w', cn. auto.
Qed.

Lemma identity_frame_first_witness :
  let w0 := start (Client "7f3c" (fun _ _ => None) Second (fun _ _ => DialConn [] []))
              [[0%nat]] in
  let cn0 := {| wscript := []; rscript := [];
                written := [list_byte_of_string "7f3c"; [x01; x02]];
                closed := false |} in
  (id (fwd (world_of (Write 1 [x01; x02] w0))) = "7f3c"%string /\
   (written cn0 = [] \/
    exists ps, written cn0 = list_byte_of_string "7f3c" :: ps
               /\ Forall (fun p => In p [[x01; x02]]) ps))
  /\
  (exists w' cn,
     Write 1 [x01; x02] w0 = Done (2, None) w'
     /\ conns w' = [cn]
     /\ written cn = [list_byte_of_string "7f3c"; [x01; x02]]).
Proof.
  intros w0 cn0. split.
  - apply (proj1 (identity_frame_first "7f3c") [[x01; x02]]
             (world_of (Write 1 [x01; x02] w0)) 0%nat cn0).
    + apply reach_Write, reach_start.
    + reflexivity.
  - apply (proj2 (identity_frame_first "7f3c") (fun _ _ => None) Second
             (fun _ _ => DialConn [] []) [[0%nat]] [] 0%nat); reflexivity.
Defined.

(** ** Close *)

(** C3, at the input on which the code fails: on a client that has never
    dialed, [Close] finds no link to tear down and then receives from a
    channel on which no goroutine will ever send; on every schedule it is
    still waiting when the schedule ends. *)
Theorem Close_on_fresh_client_blocks uuid ds idle dialf s :
  Close (start (Client uuid ds idle dialf) s)
  = Blocked (start (Client uuid ds idle dialf) []).
Proof.
  unfold Close, closeUpstream, bind, get_fwd, recv. simpl.
  rewrite recv_loop_idle; [reflexivity| |reflexivity].
  intros g gr. simpl. discriminate.
Qed.

(** C2, as the code has it: a forwarder keeps no record of having been
    closed.  When [Close] has returned (with nil) the forwarder holds no
    link, and a later [Write], like any other, returns only [(len(b), nil)],
    after a link the forwarder then holds has taken [b]. *)
Theorem Write_after_Close uuid sent w r w' :
  reachable uuid sent w -> Close w = Done r w' ->
  r = None /\ upstreamConn (fwd w') = None /\ upstream (fwd w') = None /\
  forall fuel b res w'',
    Write fuel b w' = Done res w'' ->
    res = (Z.of_nat (length b), None) /\ last_frame_is b w''.
Proof.
  intros Hr HC. apply reachable_link_inv in Hr.
  pose proof (Close_link_inv uuid sent w Hr) as H. rewrite HC in H.
  destruct H as (-> & _ & Hu & Hc). repeat split; auto.
  - eapply Write_result; eauto.
  - eapply Write_result; eauto.
Qed.

Lemma Write_after_Close_witness :
  let w1 := world_of (Write 1 [x01; x02] closed_client) in
  let w2 := world_of (Close w1) in
  @None error = None /\ upstreamConn (fwd w2) = None /\ upstream (fwd w2) = None /\
  forall fuel b res w'',
    Write fuel b w2 = Done res w'' ->
    res = (Z.of_nat (length b), None) /\ last_frame_is b w''.
Proof.
  intros w1 w2.
  apply (Write_after_Close "7f3c" [[x01; x02]] w1 None w2).
  - apply reach_Write, reach_start.
  - vm_compute. reflexivity.
Defined.

(** C2 fails as stated: after [Close] has returned, [Write([0x03])] dials
    again, sends the identity and the packet on the new connection and
    returns [(1, nil)], not an error. *)
Lemma Write_after_Close_succeeds :
  let w1 := world_of (Write 1 [x01; x02] closed_client) in
  let w2 := world_of (Close w1) in
  let w3 := world_of (Write 1 [x03] w2) in
  Close w1 = Done None w2
  /\ Write 1 [x03] w2 = Done (1, None) w3
  /\ frames w3 = [[list_byte_of_string "7f3c"; [x01; x02]];
                  [list_byte_of_string "7f3c"; [x03]]]
  /\ length (filter (fun e => is_dial e = true) (trace w3)) = 2%nat.
Proof. vm_compute. repeat split; reflexivity. Qed.

(** ** The deadline of a dial *)

Lemma dials_use_ext T w w' :
  idleTimeout (fwd w') = idleTimeout (fwd w) -> trace w' = trace w ->
  dials_use T w -> dials_use T w'.
Proof. intros Hi Ht [H1 H2]. split; [congruence|]. rewrite Ht. exact H2. Qed.

Lemma dials_use_emit T e w :
  dial_ok T e -> dials_use T w -> dials_use T (emit e w).
Proof.
  intros He [H1 H2]. split; [exact H1|]. simpl.
  apply Forall_app. split; [exact H2|]. constructor; [exact He|constructor].
Qed.

Lemma dials_use_bg T : bg_stable (dials_use T).
Proof.
  intros w w' R [H1 H2]. split; [rewrite (bg_idle _ _ R); exact H1|].
  destruct (bg_trace _ _ R) as (evs & -> & Hbg).
  apply Forall_app. split; [exact H2|].
  eapply Forall_impl; [exact Hbg|]. intros [] He; try exact I; discriminate.
Qed.

Lemma dials_use_close_conn T c w : dials_use T w -> dials_use T (close_conn c w).
Proof. apply dials_use_bg, bg_related_close_conn. Qed.

Lemma log_debug_dials_use T msg : preserves (dials_use T) (log_debug msg).
Proof. intros w H. apply dials_use_emit; [exact I|exact H]. Qed.

Lemma log_error_dials_use T e : preserves (dials_use T) (log_error e).
Proof. intros w H. apply dials_use_emit; [exact I|exact H]. Qed.

Lemma recv_dials_use T : preserves (dials_use T) recv.
Proof.
  apply hoare_recv; [apply dials_use_bg| |auto].
  intros w e H _. apply dials_use_emit; [exact I|].
  eapply dials_use_ext; [..|exact H]; reflexivity.
Qed.

Lemma link_write_dials_use T k c frame :
  preserves (dials_use T) (link_write k c frame).
Proof.
  apply hoare_link_write; [apply dials_use_bg|auto|..].
  - intros w cn H _ _. apply dials_use_emit; [exact I|exact H].
  - intros w cn H _ _. apply dials_use_emit; [exact I|].
    eapply dials_use_ext; [..|exact H]; reflexivity.
Qed.

Lemma dialUpstream_dials_use T : preserves (dials_use T) dialUpstream.
Proof.
  unfold dialUpstream.
  apply preserves_bind; [apply log_debug_dials_use|]. intros ?.
  eapply hoare_bind with (Q := fun f w => dials_use T w /\ idleTimeout f = T).
  { intros w H. simpl. split; [exact H|apply H]. }
  intros f. apply hoare_pre. intros w0 [H0 Hf].
  apply hoare_stronger_pre with (P' := dials_use T); [|intros w ->; exact H0].
  clear w0 H0.
  eapply hoare_bind with (Q := fun _ => dials_use T).
  { apply hoare_dial; [apply dials_use_bg| |].
    - intros w e H _. apply dials_use_emit; [exact Hf|].
      eapply dials_use_ext; [..|exact H]; reflexivity.
    - intros w ws rs H _. apply dials_use_emit; [exact Hf|].
      eapply dials_use_ext; [..|exact H]; reflexivity. }
  intros [dialErr|c]; [apply preserves_ret|].
  apply preserves_bind; [apply link_write_dials_use|].
  intros [err|]; [apply preserves_ret|].
  apply preserves_bind.
  { intros w H. simpl. eapply dials_use_ext; [..|exact H]; reflexivity. }
  intros ?. apply preserves_bind; [|intros ?; apply preserves_ret].
  intros w H. simpl. apply dials_use_emit; [exact I|].
  eapply dials_use_ext; [..|exact H]; reflexivity.
Qed.

Lemma closeUpstream_dials_use T : preserves (dials_use T) closeUpstream.
Proof.
  unfold closeUpstream.
  apply preserves_bind; [apply preserves_get_fwd|].
  intros f. destruct (upstream f) as [u|]; [|apply preserves_ret].
  apply preserves_bind.
  - apply hoare_link_close; [apply dials_use_bg|].
    intros w H. apply dials_use_emit; [exact I|]. apply dials_use_close_conn, H.
  - intros ? w H. simpl. eapply dials_use_ext; [..|exact H]; reflexivity.
Qed.

Lemma write_packet_dials_use T b fd : preserves (dials_use T) (write_packet b fd).
Proof.
  unfold write_packet.
  apply preserves_bind; [apply preserves_get_fwd|].
  intros f. destruct (upstream f) as [u|]; [|apply preserves_panic].
  apply preserves_bind; [apply link_write_dials_use|].
  intros [writeErr|]; [|apply preserves_ret].
  apply preserves_bind; [apply closeUpstream_dials_use|]. intros ?.
  apply preserves_bind; [apply log_error_dials_use|]. intros ?.
  apply preserves_ret.
Qed.

Lemma loop_body_dials_use T b st mst pa fd :
  preserves (dials_use T) (loop_body b st mst pa fd).
Proof.
  unfold loop_body.
  apply preserves_bind.
  { destruct (pa >? -1); [|apply preserves_ret].
    apply hoare_sleep; [apply dials_use_bg|].
    intros w H. apply dials_use_emit; [exact I|exact H]. }
  intros ?. apply preserves_bind; [apply preserves_get_fwd|].
  intros f. destruct (upstreamConn f); [apply write_packet_dials_use|].
  apply preserves_bind.
  { destruct (negb fd); [|apply preserves_ret].
    apply preserves_bind; [apply recv_dials_use|]. intros ?. apply preserves_ret. }
  intros ?. apply preserves_bind; [apply dialUpstream_dials_use|].
  intros [err|]; [|apply write_packet_dials_use].
  apply preserves_bind; [apply log_error_dials_use|]. intros ?. apply preserves_ret.
Qed.

Lemma Write_dials_use T fuel b : preserves (dials_use T) (Write fuel b).
Proof.
  unfold Write, writeToUpstream.
  apply preserves_bind.
  - apply preserves_bind; [apply preserves_get_fwd|]. intros f.
    apply hoare_write_loop with (I := fun _ _ => dials_use T); [|auto].
    intros pa fd. eapply hoare_weaker_post; [apply loop_body_dials_use|].
    intros [pa' fd'|err] w H; exact H.
  - intros [e|]; apply preserves_ret.
Qed.

Lemma Close_dials_use T : preserves (dials_use T) Close.
Proof.
  unfold Close.
  apply preserves_bind; [apply closeUpstream_dials_use|]. intros ?.
  apply preserves_bind; [apply recv_dials_use|]. intros ?. apply preserves_ret.
Qed.

Lemma reachable_dials_use uuid sent w :
  reachable uuid sent w -> dials_use (idleTimeout (fwd w)) w.
Proof.
  induction 1 as [ds idle dialf s|sent w fuel b _ IH|sent w _ IH|sent w s _ IH].
  - split; [reflexivity|constructor].
  - pose proof (preserves_world_of _ _ w (Write_dials_use _ fuel b) IH) as H.
    rewrite (proj1 H). exact H.
  - pose proof (preserves_world_of _ _ w (Close_dials_use _) IH) as H.
    rewrite (proj1 H). exact H.
  - exact IH.
Qed.

(** C8: in every world a client can reach, every call of the dial function
    so far was given a context whose timeout is the forwarder's
    [idleTimeout]; [maxDialDelay] plays no part. *)
Theorem dial_timeout_is_idleTimeout uuid sent w t r :
  reachable uuid sent w -> In (EvDial t r) (trace w) ->
  t = idleTimeout (fwd w).
Proof.
  intros Hr Hin. apply reachable_dials_use in Hr. destruct Hr as [_ Hall].
  rewrite Forall_forall in Hall.
  apply (Hall (EvDial t r)). apply list_elem_of_In, Hin.
Qed.

Lemma dial_timeout_is_idleTimeout_witness :
  let w := world_of (Write 1 [x01; x02]
             (start (Client "7f3c" (fun _ _ => None) (30 * Second)
                       (fun _ _ => DialConn [] [])) [])) in
  30 * Second = idleTimeout (fwd w) /\ 30 * Second <> maxDialDelay.
Proof.
  intros w. split.
  - apply (dial_timeout_is_idleTimeout "7f3c" [[x01; x02]] w (30 * Second) None).
    + apply reach_Write, reach_start.
    + vm_compute. auto.
  - discriminate.
Defined.

(** ** Backoff *)

Lemma sleeps_ok_app T k evs evs' :
  sleeps_ok T k (evs ++ evs') <->
  sleeps_ok T k evs /\ sleeps_ok T (attempts_after k evs) evs'.
Proof.
  revert k. induction evs as [|e evs IH]; intros k; simpl.
  - tauto.
  - rewrite IH. unfold attempts_after; simpl. tauto.
Qed.

Lemma attempts_after_app k evs evs' :
  attempts_after k (evs ++ evs') = attempts_after (attempts_after k evs) evs'.
Proof. unfold attempts_after. apply fold_left_app. Qed.

Lemma since_emit t0 T k e w :
  match e with
  | EvSleep d => -1 < k /\ d = backoff k (50 * Millisecond) T
  | _ => True
  end ->
  since t0 T k w -> since t0 T (count_after k e) (emit e w).
Proof.
  intros He (Hi & evs & Ht & Hs & Hk). split; [exact Hi|].
  exists (evs ++ [e]). simpl. rewrite Ht, app_assoc. split; [reflexivity|].
  rewrite sleeps_ok_app, attempts_after_app, Hk. simpl. auto.
Qed.

Lemma since_ext t0 T k w w' :
  idleTimeout (fwd w') = idleTimeout (fwd w) -> trace w' = trace w ->
  since t0 T k w -> since t0 T k w'.
Proof. intros Hi Ht (H1 & H2). split; [congruence|]. rewrite Ht. exact H2. Qed.

Lemma bg_events_keep_count T k evs :
  Forall (fun e => is_bg e = true) evs ->
  sleeps_ok T k evs /\ attempts_after k evs = k.
Proof.
  induction 1 as [|e evs He _ IH]; simpl; [auto|].
  assert (Hc : count_after k e = k) by (destruct e; try discriminate; reflexivity).
  unfold attempts_after in *; simpl. rewrite Hc.
  destruct e; try discriminate; tauto.
Qed.

Lemma since_bg t0 T k : bg_stable (since t0 T k).
Proof.
  intros w w' R (Hi & evs & Ht & Hs & Hk).
  split; [rewrite (bg_idle _ _ R); exact Hi|].
  destruct (bg_trace _ _ R) as (bgs & Hb & Hbg).
  exists (evs ++ bgs). rewrite Hb, Ht, app_assoc. split; [reflexivity|].
  destruct (bg_events_keep_count T k bgs Hbg) as [H1 H2].
  rewrite sleeps_ok_app, attempts_after_app, Hk. auto.
Qed.

(** An event that is no sleep and leaves the count alone. *)
Lemma since_emit_same t0 T k e w :
  count_after k e = k ->
  match e with EvSleep _ => False | _ => True end ->
  since t0 T k w -> since t0 T k (emit e w).
Proof.
  intros Hc He H. rewrite <- Hc. apply since_emit; [|exact H].
  destruct e; try exact I; contradiction.
Qed.

Lemma closeUpstream_since t0 T k : preserves (since t0 T k) closeUpstream.
Proof.
  unfold closeUpstream.
  apply preserves_bind; [apply preserves_get_fwd|].
  intros f. destruct (upstream f) as [u|]; [|apply preserves_ret].
  apply preserves_bind.
  - apply hoare_link_close; [apply since_bg|].
    intros w H. apply since_emit_same; [reflexivity|exact I|].
    eapply since_bg; [apply bg_related_close_conn|exact H].
  - intros ? w H. simpl. eapply since_ext; [..|exact H]; reflexivity.
Qed.

Lemma dialUpstream_since t0 T k :
  hoare (since t0 T k) dialUpstream
    (fun err w => match err with
                  | Some _ => since t0 T (k + 1) w
                  | None => since t0 T k w
                  end)
    (fun w => exists k', since t0 T k' w).
Proof.
  unfold dialUpstream.
  eapply hoare_bind with (Q := fun _ => since t0 T k).
  { intros w H. simpl. apply since_emit_same; [reflexivity|exact I|exact H]. }
  intros ?.
  eapply hoare_bind with (Q := fun _ => since t0 T k).
  { intros w H. exact H. }
  intros f.
  eapply hoare_bind with
    (Q := fun r w => match r with
                     | inl _ => since t0 T (k + 1) w
                     | inr _ => since t0 T k w
                     end).
  { apply hoare_dial; [apply since_bg| |].
    - intros w e H _.
      apply (since_emit t0 T k (EvDial (idleTimeout f) (Some e))); [exact I|].
      eapply since_ext; [..|exact H]; reflexivity.
    - intros w ws rs H _.
      apply (since_emit t0 T k (EvDial (idleTimeout f) None)); [exact I|].
      eapply since_ext; [..|exact H]; reflexivity. }
  intros [dialErr|c]; [intros w H; exact H|].
  eapply hoare_bind with
    (Q := fun err w => match err with
                       | Some _ => since t0 T (k + 1) w
                       | None => since t0 T k w
                       end).
  { apply hoare_link_write; [apply since_bg|eauto|..].
    - intros w cn H _ _.
      apply (since_emit t0 T k (EvLinkWrite Handshake c _ (Some ErrClosedLink)));
        [exact I|exact H].
    - intros w cn H _ _. destruct (hd None (wscript cn)) as [e|].
      + apply (since_emit t0 T k (EvLinkWrite Handshake c _ (Some e))); [exact I|].
        eapply since_ext; [..|exact H]; reflexivity.
      + apply (since_emit t0 T k (EvLinkWrite Handshake c _ None)); [exact I|].
        eapply since_ext; [..|exact H]; reflexivity. }
  intros [err|]; [intros w H; exact H|].
  eapply hoare_bind with (Q := fun _ => since t0 T k).
  { intros w H. simpl. eapply since_ext; [..|exact H]; reflexivity. }
  intros ?.
  eapply hoare_bind with (Q := fun _ => since t0 T k);
    [|intros ? w H; exact H].
  intros w H. simpl. apply since_emit_same; [reflexivity|exact I|].
  eapply since_ext; [..|exact H]; reflexivity.
Qed.

Lemma write_packet_since t0 T k b fd :
  hoare (since t0 T k) (write_packet b fd)
    (fun r w => match r with
                | Continue pa' _ => since t0 T pa' w
                | Return _ => exists k', since t0 T k' w
                end)
    (fun w => exists k', since t0 T k' w).
Proof.
  unfold write_packet.
  eapply hoare_bind with (Q := fun _ => since t0 T k); [intros w H; exact H|].
  intros f. destruct (upstream f) as [u|]; [|intros w H; simpl; eauto].
  eapply hoare_bind with (Q := fun _ => since t0 T (-1)).
  { apply hoare_link_write; [apply since_bg|eauto|..].
    - intros w cn H _ _.
      apply (since_emit t0 T k (EvLinkWrite Packet u b (Some ErrClosedLink)));
        [exact I|exact H].
    - intros w cn H _ _.
      apply (since_emit t0 T k (EvLinkWrite Packet u b (hd None (wscript cn))));
        [exact I|].
      eapply since_ext; [..|exact H]; reflexivity. }
  intros [writeErr|]; [|intros w H; simpl; eauto].
  eapply hoare_bind with (Q := fun _ => since t0 T (-1)).
  { eapply hoare_weaken;
      [apply closeUpstream_since|intros w H; exact H|intros ? w H; exact H
      |intros w H; eauto]. }
  intros ?.
  eapply hoare_bind with (Q := fun _ => since t0 T (-1));
    [|intros ? w H; exact H].
  intros w H. simpl. apply since_emit_same; [reflexivity|exact I|exact H].
Qed.

Lemma loop_body_since t0 T b pa fd :
  hoare (since t0 T pa) (loop_body b (50 * Millisecond) T pa fd)
    (fun r w => match r with
                | Continue pa' _ => since t0 T pa' w
                | Return _ => exists k', since t0 T k' w
                end)
    (fun w => exists k', since t0 T k' w).
Proof.
  unfold loop_body.
  eapply hoare_bind with (Q := fun _ => since t0 T pa).
  { destruct (pa >? -1) eqn:Hpa; [|intros w H; exact H].
    apply hoare_sleep; [apply since_bg|].
    intros w H.
    apply (since_emit t0 T pa (EvSleep (backoff pa (50 * Millisecond) T)));
      [|exact H].
    split; [lia|reflexivity]. }
  intros ?.
  eapply hoare_bind with (Q := fun _ => since t0 T pa); [intros w H; exact H|].
  intros f. destruct (upstreamConn f); [apply write_packet_since|].
  eapply hoare_bind with (Q := fun _ => since t0 T pa).
  { destruct (negb fd); [|intros w H; exact H].
    eapply hoare_bind with (Q := fun _ => since t0 T pa);
      [|intros ? w H; exact H].
    apply hoare_recv; [apply since_bg| |eauto].
    intros w e H _. apply since_emit_same; [reflexivity|exact I|].
    eapply since_ext; [..|exact H]; reflexivity. }
  intros ?.
  eapply hoare_bind; [apply dialUpstream_since|].
  intros [err|]; [|apply write_packet_since].
  eapply hoare_bind with (Q := fun _ => since t0 T (pa + 1));
    [|intros ? w H; exact H].
  intros w H. simpl. apply since_emit_same; [reflexivity|exact I|exact H].
Qed.

(** The events of one [Write], however it ends. *)
Lemma Write_since fuel b w :
  exists evs,
    trace (world_of (Write fuel b w)) = trace w ++ evs
    /\ sleeps_ok (idleTimeout (fwd w)) (-1) evs.
Proof.
  set (T := idleTimeout (fwd w)).
  assert (H : hoare (since (trace w) T (-1)) (Write fuel b)
                (fun _ w' => exists k', since (trace w) T k' w')
                (fun w' => exists k', since (trace w) T k' w')).
  { unfold Write, writeToUpstream.
    eapply hoare_bind with (Q := fun _ w' => exists k', since (trace w) T k' w').
    - eapply hoare_bind with (Q := fun f w' => since (trace w) T (-1) w' /\ idleTimeout f = T).
      { intros w' H'. simpl. split; [exact H'|apply H']. }
      intros f. apply hoare_pre. intros w0 [H0 Hf]. rewrite Hf.
      apply hoare_stronger_pre with (P' := since (trace w) T (-1));
        [|intros w' ->; exact H0].
      apply hoare_write_loop with (I := fun pa _ => since (trace w) T pa); [|eauto].
      intros pa fd. apply loop_body_since.
    - intros [e|] w' Hw'; exact Hw'. }
  assert (H0 : since (trace w) T (-1) w).
  { split; [reflexivity|]. exists []. rewrite app_nil_r. simpl. auto. }
  specialize (H w H0).
  assert (Hw : exists k', since (trace w) T k' (world_of (Write fuel b w))).
  { destruct (Write fuel b w); exact H. }
  destruct Hw as (k' & _ & evs & Ht & Hs & _). eauto.
Qed.

Lemma count_rises mid : forall k,
  -1 <= k -> k < attempts_after k mid -> Exists is_dial_failure mid.
Proof.
  induction mid as [|e mid IH]; intros k Hk Hlt.
  - unfold attempts_after in Hlt; simpl in Hlt. lia.
  - unfold attempts_after in Hlt; simpl in Hlt.
    destruct e as [| t [err|] | [|] c fr [err|] | | | | | | | |];
      try (apply Exists_cons_hd; exact I);
      apply Exists_cons_tl; simpl in Hlt;
      try (apply (IH k); [lia|exact Hlt]);
      apply (IH (-1)); unfold attempts_after; lia.
Qed.

(** C10: among the events of any [Write], after a failed write of the
    packet (on a link just dialed or on one dialed long before) no sleep
    comes until a dial or handshake has failed again, and the length of
    that sleep counts only the failures that came after the failed write:
    the write had set the counter back to "none yet", so the retry that
    follows a write failure tears the link down and redials at once. *)
Theorem no_backoff_after_write_failure fuel b w pre c fr e mid d rest :
  trace (world_of (Write fuel b w))
  = trace w ++ pre ++ EvLinkWrite Packet c fr (Some e) :: mid ++ EvSleep d :: rest ->
  Exists is_dial_failure mid
  /\ d = backoff (attempts_after (-1) mid) (50 * Millisecond) (idleTimeout (fwd w)).
Proof.
  intros Ht. destruct (Write_since fuel b w) as (evs & Hevs & Hok).
  rewrite Hevs in Ht. apply app_inv_head in Ht. subst evs.
  apply sleeps_ok_app in Hok. destruct Hok as [_ Hok].
  simpl in Hok. destruct Hok as [_ Hok].
  apply sleeps_ok_app in Hok. destruct Hok as [_ Hok].
  simpl in Hok. destruct Hok as [[Hlt Hd] _].
  split; [|exact Hd].
  apply (count_rises mid (-1)); [lia|exact Hlt].
Qed.

Lemma no_backoff_after_write_failure_witness :
  let mid := [EvClose 0; EvLogError (ErrWriting (ErrEnv "reset"));
              EvLogDebug "Dialing upstream";
              EvDial Second (Some (ErrEnv "refused"));
              EvLogError (ErrDialing (ErrEnv "refused"))] in
  Exists is_dial_failure mid
  /\ 50000000 = backoff (attempts_after (-1) mid) (50 * Millisecond)
                  (idleTimeout (fwd after_first_write)).
Proof.
  intros mid.
  apply (no_backoff_after_write_failure 3 [x02] after_first_write []
           0%nat [x02] (ErrEnv "reset") mid 50000000
           [EvLogDebug "Dialing upstream"; EvDial Second None;
            EvLinkWrite Handshake 1 (list_byte_of_string "7f3c") None;
            EvSpawn 1; EvLinkWrite Packet 1 [x02] None]).
  vm_compute. reflexivity.
Defined.

(** Below the overflow the delay is the one intended. *)
Lemma backoff_below_overflow n T :
  0 <= n <= 37 -> backoff n (50 * Millisecond) T = Z.min (50 * Millisecond * 2 ^ n) T.
Proof.
  intros Hn.
  assert (H1 : 2 ^ 0 <= 2 ^ n) by (apply Z.pow_le_mono_r; lia).
  assert (H2 : 2 ^ n <= 2 ^ 37) by (apply Z.pow_le_mono_r; lia).
  change (2 ^ 0) with 1 in H1. change (2 ^ 37) with 137438953472 in H2.
  unfold backoff, duration_of_float, wrap64, Millisecond.
  set (x := 2 ^ n) in *.
  assert (Hr : (- 2 ^ 63 <=? x) && (x <? 2 ^ 63) = true).
  { apply andb_true_iff. split; [apply Z.leb_le|apply Z.ltb_lt]; lia. }
  rewrite Hr.
  change (2 ^ 63) with 9223372036854775808.
  change (2 ^ 64) with 18446744073709551616.
  rewrite Z.mod_small by lia.
  destruct (x * (50 * 1000000) + 9223372036854775808 - 9223372036854775808 >? T) eqn:Hgt;
    lia.
Qed.

(** Every sleep of a [Write] lasts [backoff k] for the count [k] of the
    events of that [Write] before it. *)
Lemma sleep_is_backoff fuel b w pre d rest :
  trace (world_of (Write fuel b w)) = trace w ++ pre ++ EvSleep d :: rest ->
  -1 < attempts_after (-1) pre
  /\ d = backoff (attempts_after (-1) pre) (50 * Millisecond) (idleTimeout (fwd w)).
Proof.
  intros Ht. destruct (Write_since fuel b w) as (evs & Hevs & Hok).
  rewrite Hevs in Ht. apply app_inv_head in Ht. subst evs.
  apply sleeps_ok_app in Hok. destruct Hok as [_ Hok].
  simpl in Hok. tauto.
Qed.

(** C4, at the input on which the code fails: with an idle timeout of one
    second and a server that refuses every dial, the first 38 sleeps of a
    [Write] are [min(50ms * 2^n, 1s)] for n = 0..37, but the sleep before
    retry 38 is computed as a negative duration, because
    [Duration(2^38) * 50ms] overflows [int64]; the claim asks for one
    second. *)
Theorem backoff_overflows_after_38_failures :
  let evs := trace (world_of (Write 40 [x01] unreachable_server)) in
  firstn 38 (sleeps evs)
  = map (fun n => Z.min (50 * Millisecond * 2 ^ Z.of_nat n) Second) (seq 0 38)
  /\ nth 38 (sleeps evs) 0 = -4702848726509551616
  /\ Z.min (50 * Millisecond * 2 ^ 38) Second = Second.
Proof. vm_compute. repeat split; reflexivity. Qed.

(** ** One copy loop *)

Lemma copy_step_read g c p re rs w :
  loop_at g c ((p, re) :: rs) w ->
  exists w1,
    link_read c w = Some (p, re, w1)
    /\ loop_at g c rs w1
    /\ fwd w1 = fwd w /\ delivered w1 = delivered w /\ trace w1 = trace w.
Proof.
  intros (Hg & cn & Hc & Hcl & Hrs).
  unfold link_read. rewrite Hc, Hcl, Hrs.
  eexists. split; [reflexivity|]. split; [|auto].
  split; [exact Hg|]. eexists.
  split; [simpl; apply list_lookup_insert_eq; eapply lookup_lt_Some, Hc|].
  split; reflexivity.
Qed.

Lemma copy_step_ok_read g c p rs w :
  loop_at g c ((p, None) :: rs) w ->
  (has_bytes p = true -> downstream (fwd w) (delivered w) p = None) ->
  let w' := copy_step g w in
  loop_at g c rs w'
  /\ fwd w' = fwd w
  /\ delivered w' = delivered w ++ List.filter has_bytes [p]
  /\ trace w' = trace w ++ map (fun q => EvDeliver g q None) (List.filter has_bytes [p]).
Proof.
  intros Hl Hacc.
  destruct (copy_step_read g c p None rs w Hl) as (w1 & Hr & Hl1 & Hf & Hd & Ht).
  unfold copy_step. rewrite (proj1 Hl), Hr.
  change (0 <? Z.of_nat (length p)) with (has_bytes p). simpl List.filter.
  destruct (has_bytes p) eqn:Hp.
  - unfold downstream_write. rewrite Hf, Hd, (Hacc eq_refl). simpl.
    rewrite Ht. split; [exact Hl1|auto].
  - simpl. rewrite !app_nil_r. auto.
Qed.

Lemma copy_loop_delivers g c ps : forall rs w,
  loop_at g c (map (fun p => (p, None)) ps ++ rs) w ->
  accepts_all (downstream (fwd w)) (delivered w) (List.filter has_bytes ps) ->
  let w' := copyToDownstream (length ps) g w in
  loop_at g c rs w'
  /\ fwd w' = fwd w
  /\ delivered w' = delivered w ++ List.filter has_bytes ps
  /\ trace w' = trace w ++ map (fun q => EvDeliver g q None) (List.filter has_bytes ps).
Proof.
  induction ps as [|p ps IH]; intros rs w Hl Hacc; simpl.
  - rewrite !app_nil_r. auto.
  - simpl in Hl.
    assert (Hp : has_bytes p = true -> downstream (fwd w) (delivered w) p = None).
    { intros Hp. simpl in Hacc. rewrite Hp in Hacc. apply Hacc. }
    destruct (copy_step_ok_read g c p _ w Hl Hp) as (Hl1 & Hf1 & Hd1 & Ht1).
    simpl in Hd1, Ht1.
    assert (Hacc1 : accepts_all (downstream (fwd (copy_step g w)))
                      (delivered (copy_step g w)) (List.filter has_bytes ps)).
    { rewrite Hf1, Hd1. simpl in Hacc. destruct (has_bytes p).
      - apply Hacc.
      - rewrite app_nil_r. exact Hacc. }
    destruct (IH rs (copy_step g w) Hl1 Hacc1) as (Hl2 & Hf2 & Hd2 & Ht2).
    split; [exact Hl2|]. split; [congruence|].
    rewrite Hd2, Ht2, Hd1, Ht1.
    destruct (has_bytes p); simpl; rewrite <- ?app_assoc; simpl; rewrite ?app_nil_r; auto.
Qed.

Lemma stopped_stays g c w :
  goroutines w !! g = Some {| glink := c; gstate_of := Stopped |} ->
  forall n, copyToDownstream n g w = w.
Proof.
  intros Hg n. induction n as [|n IH]; simpl; [reflexivity|].
  unfold copy_step at 1. rewrite Hg. exact IH.
Qed.

Lemma loop_fail_eq g c e cn w :
  goroutines w !! g = Some {| glink := c; gstate_of := Reading |} ->
  conns w !! c = Some cn ->
  loop_fail g c e w
  = set_goroutines (<[g := {| glink := c; gstate_of := Publishing e |}]> (goroutines w))
      (emit (EvLoopClose g c) (set_conns (<[c := set_closed cn]> (conns w)) w)).
Proof.
  intros Hg Hc. unfold loop_fail, close_conn. rewrite Hc.
  unfold set_gstate. simpl. rewrite Hg. reflexivity.
Qed.

Lemma publish_eq g c e w :
  goroutines w !! g = Some {| glink := c; gstate_of := Publishing e |} ->
  copyToDownstreamError (fwd w) = None ->
  copy_step g w
  = set_goroutines (<[g := {| glink := c; gstate_of := Stopped |}]> (goroutines w))
      (emit (EvPublish g e) (set_fwd (set_chan (Some e) (fwd w)) w)).
Proof.
  intros Hg Hch. unfold copy_step. rewrite Hg, Hch.
  unfold set_gstate. simpl. rewrite Hg. reflexivity.
Qed.

(** The end of a loop: [upstream.Close()], then the send on the empty
    channel, then the return. *)
Lemma fail_then_publish g c e w :
  goroutines w !! g = Some {| glink := c; gstate_of := Reading |} ->
  is_Some (conns w !! c) ->
  copyToDownstreamError (fwd w) = None ->
  let w' := copy_step g (loop_fail g c e w) in
  trace w' = trace w ++ [EvLoopClose g c; EvPublish g e]
  /\ delivered w' = delivered w
  /\ finished g c e w'.
Proof.
  intros Hg [cn Hc] Hch w'. subst w'.
  assert (Hlg : (g < length (goroutines w))%nat) by (eapply lookup_lt_Some, Hg).
  assert (Hlc : (c < length (conns w))%nat) by (eapply lookup_lt_Some, Hc).
  rewrite (loop_fail_eq g c e cn w Hg Hc).
  rewrite (publish_eq g c e);
    [|simpl; apply list_lookup_insert_eq, Hlg|exact Hch].
  simpl goroutines. rewrite list_insert_insert_eq.
  split; [simpl; rewrite <- app_assoc; reflexivity|].
  split; [reflexivity|].
  assert (Hst : goroutines
    (set_goroutines (<[g:={| glink := c; gstate_of := Stopped |}]> (goroutines w))
       (emit (EvPublish g e)
          (set_fwd (set_chan (Some e) (fwd w))
             (set_goroutines
                (<[g:={| glink := c; gstate_of := Publishing e |}]> (goroutines w))
                (emit (EvLoopClose g c)
                   (set_conns (<[c:=set_closed cn]> (conns w)) w)))))) !! g
    = Some {| glink := c; gstate_of := Stopped |}).
  { simpl. apply list_lookup_insert_eq, Hlg. }
  split; [reflexivity|]. split.
  - exists (set_closed cn). split; [|reflexivity].
    simpl. apply list_lookup_insert_eq, Hlc.
  - split; [exact Hst|]. apply (stopped_stays g c), Hst.
Qed.

Lemma copyToDownstream_add n m g w :
  copyToDownstream (n + m) g w = copyToDownstream m g (copyToDownstream n g w).
Proof. revert w. induction n as [|n IH]; intros w; simpl; auto. Qed.

Lemma copy_step_read_error g c e rs w :
  loop_at g c (([], Some e) :: rs) w ->
  exists w1,
    copy_step g w = loop_fail g c e w1
    /\ goroutines w1 !! g = Some {| glink := c; gstate_of := Reading |}
    /\ is_Some (conns w1 !! c)
    /\ fwd w1 = fwd w /\ delivered w1 = delivered w /\ trace w1 = trace w.
Proof.
  intros Hl.
  destruct (copy_step_read g c [] (Some e) rs w Hl) as (w1 & Hr & Hl1 & Hf & Hd & Ht).
  exists w1. unfold copy_step. rewrite (proj1 Hl), Hr. simpl.
  split; [reflexivity|]. split; [apply Hl1|]. split; [|auto].
  destruct Hl1 as (_ & cn & Hc & _). eauto.
Qed.

Lemma copy_step_sink_error g c p re werr rs w :
  loop_at g c ((p, re) :: rs) w ->
  has_bytes p = true ->
  downstream (fwd w) (delivered w) p = Some werr ->
  exists w1,
    copy_step g w = loop_fail g c werr w1
    /\ goroutines w1 !! g = Some {| glink := c; gstate_of := Reading |}
    /\ is_Some (conns w1 !! c)
    /\ fwd w1 = fwd w /\ delivered w1 = delivered w ++ [p]
    /\ trace w1 = trace w ++ [EvDeliver g p (Some werr)].
Proof.
  intros Hl Hp Hs.
  destruct (copy_step_read g c p re rs w Hl) as (w1 & Hr & Hl1 & Hf & Hd & Ht).
  exists (emit (EvDeliver g p (Some werr)) (set_delivered (delivered w1 ++ [p]) w1)).
  unfold copy_step. rewrite (proj1 Hl), Hr.
  change (0 <? Z.of_nat (length p)) with (has_bytes p). rewrite Hp.
  unfold downstream_write. rewrite Hf, Hd, Hs. simpl.
  split; [reflexivity|]. split; [apply Hl1|]. split; [|rewrite Ht; auto].
  destruct Hl1 as (_ & cn & Hc & _). eauto.
Qed.

(** From an empty channel, a copy loop whose link yields the payloads [ps]
    and then a read error [e] calls the sink once for each payload that has
    bytes, in order, then closes the link, sends [e] on the channel and
    returns.  If instead the sink refuses a payload [p] with [werr], that
    call is the last one: the loop closes the link, sends [werr] and
    returns.  Either way the goroutine, once returned, takes no further
    step. *)
Lemma copy_loop_publishes_once g c w ps rs :
  copyToDownstreamError (fwd w) = None ->
  accepts_all (downstream (fwd w)) (delivered w) (List.filter has_bytes ps) ->
  (forall e,
     loop_at g c (map (fun p => (p, None)) ps ++ ([], Some e) :: rs) w ->
     let w' := copyToDownstream (length ps + 2) g w in
     trace w' = trace w
                ++ map (fun q => EvDeliver g q None) (List.filter has_bytes ps)
                ++ [EvLoopClose g c; EvPublish g e]
     /\ delivered w' = delivered w ++ List.filter has_bytes ps
     /\ finished g c e w')
  /\
  (forall p re werr,
     loop_at g c (map (fun p => (p, None)) ps ++ (p, re) :: rs) w ->
     has_bytes p = true ->
     downstream (fwd w) (delivered w ++ List.filter has_bytes ps) p = Some werr ->
     let w' := copyToDownstream (length ps + 2) g w in
     trace w' = trace w
                ++ map (fun q => EvDeliver g q None) (List.filter has_bytes ps)
                ++ [EvDeliver g p (Some werr); EvLoopClose g c; EvPublish g werr]
     /\ delivered w' = delivered w ++ List.filter has_bytes ps ++ [p]
     /\ finished g c werr w').
Proof.
  intros Hch Hacc. split.
  - intros e Hl w'. subst w'. rewrite copyToDownstream_add.
    destruct (copy_loop_delivers g c ps _ w Hl Hacc) as (Hl1 & Hf1 & Hd1 & Ht1).
    set (w1 := copyToDownstream (length ps) g w) in *.
    destruct (copy_step_read_error g c e rs w1 Hl1) as (w2 & Hs & Hg2 & Hc2 & Hf2 & Hd2 & Ht2).
    simpl copyToDownstream. rewrite Hs.
    assert (Hch2 : copyToDownstreamError (fwd w2) = None) by congruence.
    destruct (fail_then_publish g c e w2 Hg2 Hc2 Hch2) as (Ht3 & Hd3 & Hfin).
    rewrite Ht3, Hd3, Ht2, Hd2, Ht1, Hd1, <- app_assoc. auto.
  - intros p re werr Hl Hp Hs w'. subst w'. rewrite copyToDownstream_add.
    destruct (copy_loop_delivers g c ps _ w Hl Hacc) as (Hl1 & Hf1 & Hd1 & Ht1).
    set (w1 := copyToDownstream (length ps) g w) in *.
    assert (Hs1 : downstream (fwd w1) (delivered w1) p = Some werr) by congruence.
    destruct (copy_step_sink_error g c p re werr rs w1 Hl1 Hp Hs1)
      as (w2 & Hst & Hg2 & Hc2 & Hf2 & Hd2 & Ht2).
    simpl copyToDownstream. rewrite Hst.
    assert (Hch2 : copyToDownstreamError (fwd w2) = None) by congruence.
    destruct (fail_then_publish g c werr w2 Hg2 Hc2 Hch2) as (Ht3 & Hd3 & Hfin).
    rewrite Ht3, Hd3, Ht2, Hd2, Ht1, Hd1, <- !app_assoc. simpl. auto.
Qed.

(** The send of a loop waits while the one slot of the channel is full: as
    long as nothing is received, the goroutine takes no step. *)
Lemma send_waits_on_a_full_channel g c e w :
  goroutines w !! g = Some {| glink := c; gstate_of := Publishing e |} ->
  copyToDownstreamError (fwd w) <> None ->
  forall n, copyToDownstream n g w = w.
Proof.
  intros Hg Hch n. induction n as [|n IH]; simpl; [reflexivity|].
  unfold copy_step at 1. rewrite Hg.
  destruct (copyToDownstreamError (fwd w)); [exact IH|contradiction].
Qed.

(** C6, at the input on which the code fails: the channel has one slot, and
    a loop that reaches its send while the slot is full waits there.  After
    a [Write] and a second [Write] that found the link failing and dialed
    again (without the receive, see C1), the error of the first loop is on
    the channel.  The loop of the second link then reads a payload and a
    read error: it calls the sink once and closes the link, but however
    many steps it is given it never sends the error and never returns. *)
Theorem copy_loop_blocks_on_a_stale_error :
  let w := stale_client in
  let e := ErrEnv "EOF" in
  reachable "7f3c" [[x02]; [x01]] w
  /\ loop_at 1 1 [([x0a], None); ([], Some e)] w
  /\ goroutines w !! 0%nat = Some {| glink := 0; gstate_of := Stopped |}
  /\ copyToDownstreamError (fwd w) = Some ErrClosedLink
  /\ forall n,
       let w' := copyToDownstream (2 + n) 1 w in
       trace w' = trace w ++ [EvDeliver 1 [x0a] None; EvLoopClose 1 1]
       /\ delivered w' = delivered w ++ [[x0a]]
       /\ goroutines w' !! 1%nat = Some {| glink := 1; gstate_of := Publishing e |}
       /\ copyToDownstreamError (fwd w') = Some ErrClosedLink.
Proof.
  intros w e.
  split; [unfold w, stale_client; apply reach_Write, reach_sched, reach_Write, reach_start|].
  split; [split; [reflexivity|]; eexists; split; [reflexivity|]; split; reflexivity|].
  split; [reflexivity|]. split; [reflexivity|].
  intros n w'. subst w'. rewrite copyToDownstream_add.
  rewrite (send_waits_on_a_full_channel 1 1 e (copyToDownstream 2 1 w));
    [|reflexivity|discriminate].
  vm_compute. repeat split; reflexivity.
Qed.

(** ** A failed redial *)

(** Once a dial has succeeded in a [Write], every later turn of its loop
    that finds no link receives from the channel; with no goroutine left to
    send, that turn never ends and no dial is made. *)
Lemma redial_waits_forever b st mst n : forall fuel pa,
  hoare (fun w => idle w /\ copyToDownstreamError (fwd w) = None
                  /\ upstreamConn (fwd w) = None /\ ndials w = n)
    (write_loop fuel b st mst pa false)
    (fun _ _ => False)
    (fun w => ndials w = n).
Proof.
  set (P := fun w => idle w /\ copyToDownstreamError (fwd w) = None
                     /\ upstreamConn (fwd w) = None /\ ndials w = n).
  assert (HP : loop_stable P).
  { apply loop_stable_idle; [intros s w H; exact H|intros w H; apply H]. }
  assert (Hloop : forall fuel pa fd,
            hoare (fun w => fd = false /\ P w) (write_loop fuel b st mst pa fd)
              (fun _ _ => False) (fun w => ndials w = n)).
  2:{ intros fuel pa. eapply hoare_stronger_pre; [apply (Hloop fuel pa false)|].
      intros w H. split; [reflexivity|exact H]. }
  apply hoare_write_loop with (I := fun (_ : Z) fd w => fd = false /\ P w).
  2:{ intros pa fd w (_ & _ & _ & _ & Hn). exact Hn. }
  intros pa fd. apply hoare_pre. intros w0 [-> H0].
  apply hoare_stronger_pre with (P' := P); [|intros w ->; exact H0]. clear w0 H0.
  assert (HE : forall w, P w -> ndials w = n) by (intros w H; apply H).
  unfold loop_body.
  eapply hoare_bind with (Q := fun _ => P).
  { destruct (pa >? -1); [|intros w H; exact H].
    apply hoare_sleep_stable; [exact HP|]. intros w H. exact H. }
  intros ?.
  eapply hoare_bind with (Q := fun f w => P w /\ upstreamConn f = None).
  { intros w H. simpl. split; [exact H|apply H]. }
  intros f. apply hoare_pre. intros w0 [H0 ->].
  apply hoare_stronger_pre with (P' := P); [|intros w ->; exact H0]. clear w0 H0.
  simpl negb. cbv iota.
  eapply hoare_bind with (Q := fun _ _ => False); [|intros ? w []].
  eapply hoare_bind with (Q := fun _ _ => False); [|intros ? w []].
  apply hoare_recv_stable; [exact HP| |exact HE].
  intros w e (_ & Hc & _) He. congruence.
Qed.

(** C7, at the input on which the code fails: the first dial of a [Write]
    succeeds, the write on the new link fails, and the redial is refused.
    The write path logs the dial error and loops, but since [firstDial] is
    now false the next turn first receives from the channel, which the only
    copy loop has already served: whatever the loop bound and however the
    schedule goes on, [Write] never returns and the refused dial is never
    tried again. *)
Theorem failed_redial_is_never_retried fuel rest :
  (forall r w', Write fuel [x01] (stuck_client rest) <> Done r w')
  /\ (ndials (world_of (Write fuel [x01] (stuck_client rest))) <= 2)%nat.
Proof.
  destruct fuel as [|[|fuel]].
  - split; [discriminate|]. simpl. lia.
  - split; [discriminate|]. simpl. lia.
  - assert (Heq : Write (S (S fuel)) [x01] (stuck_client rest)
                  = (let* writeErr := write_loop fuel [x01] (50 * Millisecond) Second 0 false in
                     match writeErr with
                     | Some e => ret (0, Some e)
                     | None => ret (Z.of_nat (length [x01]), None)
                     end) (set_sched rest stuck_world)) by reflexivity.
    rewrite Heq. unfold bind.
    pose proof (redial_waits_forever [x01] (50 * Millisecond) Second 2 fuel 0
                  (set_sched rest stuck_world)) as H.
    assert (H0 : idle (set_sched rest stuck_world)
                 /\ copyToDownstreamError (fwd (set_sched rest stuck_world)) = None
                 /\ upstreamConn (fwd (set_sched rest stuck_world)) = None
                 /\ ndials (set_sched rest stuck_world) = 2%nat).
    { split; [|repeat split; reflexivity].
      intros g gr. destruct g as [|g]; [|destruct g; discriminate].
      intros [= <-]. exact I. }
    specialize (H H0).
    destruct (write_loop fuel [x01] (50 * Millisecond) Second 0 false
                (set_sched rest stuck_world));
      [contradiction| | |]; simpl; (split; [discriminate|lia]).
Qed.

(** What does hold of a failed dial: [dialUpstream] returns its error
    having left [upstreamConn] and [upstream] as they were and having
    started no goroutine. *)
Lemma dialUpstream_failure_leaves_state uc u n :
  hoare (fun w => upstreamConn (fwd w) = uc /\ upstream (fwd w) = u
                  /\ length (goroutines w) = n)
    dialUpstream
    (fun err w => match err with
                  | Some _ => upstreamConn (fwd w) = uc /\ upstream (fwd w) = u
                              /\ length (goroutines w) = n
                  | None => True
                  end)
    (fun _ => True).
Proof.
  set (P := fun w => upstreamConn (fwd w) = uc /\ upstream (fwd w) = u
                     /\ length (goroutines w) = n).
  assert (HP : bg_stable P).
  { intros w w' R (H1 & H2 & H3). unfold P.
    rewrite (bg_upstreamConn _ _ R), (bg_upstream _ _ R), (bg_goroutines _ _ R). auto. }
  unfold dialUpstream.
  eapply hoare_bind with (Q := fun _ => P); [intros w H; exact H|]. intros ?.
  eapply hoare_bind with (Q := fun _ => P); [intros w H; exact H|]. intros f.
  eapply hoare_bind with (Q := fun _ => P).
  { apply hoare_dial; [exact HP| |]; intros; assumption. }
  intros [dialErr|c]; [intros w H; exact H|].
  eapply hoare_bind with (Q := fun _ => P).
  { apply hoare_link_write; [exact HP|intros; exact I|..]; intros; assumption. }
  intros [err|]; [intros w H; exact H|].
  apply hoare_stronger_pre with (P' := fun _ => True); [|auto].
  eapply hoare_bind; [apply hoare_true|]. intros ?.
  eapply hoare_bind; [apply hoare_true|]. intros ? w _. exact I.
Qed.

(** ** The drain before a redial *)

Lemma first_dial_undrained_app evs evs' :
  first_dial_undrained evs = true ->
  Forall (fun e => is_recv e = false) evs' \/ existsb is_dial evs = true ->
  first_dial_undrained (evs ++ evs') = true.
Proof.
  induction evs as [|e evs IH]; simpl; intros H1 H2.
  - destruct H2 as [H2|H2]; [|discriminate].
    induction H2 as [|e' evs' He' _ IH']; [reflexivity|].
    destruct e'; simpl; auto; discriminate.
  - destruct e; simpl in *; auto; discriminate.
Qed.

Lemma undrained_emit t0 fd e w :
  is_recv e = false -> undrained t0 fd w -> undrained t0 fd (emit e w).
Proof.
  intros He (evs & Ht & H1 & H2). exists (evs ++ [e]). simpl.
  rewrite Ht, app_assoc. split; [reflexivity|]. split.
  - apply first_dial_undrained_app; [exact H1|]. left. constructor; [exact He|constructor].
  - intros Hfd. apply Forall_app. split; [auto|]. constructor; [exact He|constructor].
Qed.

Lemma undrained_ext t0 fd w w' :
  trace w' = trace w -> undrained t0 fd w -> undrained t0 fd w'.
Proof. intros Ht (evs & H). exists evs. rewrite Ht. exact H. Qed.

Lemma undrained_bg t0 fd : bg_stable (undrained t0 fd).
Proof.
  intros w w' R (evs & Ht & H1 & H2).
  destruct (bg_trace _ _ R) as (bgs & Hb & Hbg).
  assert (Hnr : Forall (fun e => is_recv e = false) bgs).
  { eapply Forall_impl; [exact Hbg|]. intros []; simpl; auto; discriminate. }
  exists (evs ++ bgs). rewrite Hb, Ht, app_assoc. split; [reflexivity|]. split.
  - apply first_dial_undrained_app; auto.
  - intros Hfd. apply Forall_app. auto.
Qed.

Lemma dialed_emit t0 e w : dialed t0 w -> dialed t0 (emit e w).
Proof.
  intros (evs & Ht & H1 & H2). exists (evs ++ [e]). simpl.
  rewrite Ht, app_assoc. split; [reflexivity|]. split.
  - apply first_dial_undrained_app; auto.
  - rewrite existsb_app, H2. reflexivity.
Qed.

Lemma dialed_ext t0 w w' : trace w' = trace w -> dialed t0 w -> dialed t0 w'.
Proof. intros Ht (evs & H). exists evs. rewrite Ht. exact H. Qed.

Lemma dialed_bg t0 : bg_stable (dialed t0).
Proof.
  intros w w' R (evs & Ht & H1 & H2).
  destruct (bg_trace _ _ R) as (bgs & Hb & Hbg).
  exists (evs ++ bgs). rewrite Hb, Ht, app_assoc. split; [reflexivity|]. split.
  - apply first_dial_undrained_app; auto.
  - rewrite existsb_app, H2. reflexivity.
Qed.

Lemma dialed_close_conn t0 c w : dialed t0 w -> dialed t0 (close_conn c w).
Proof. apply dialed_bg, bg_related_close_conn. Qed.

Lemma recv_dialed t0 : preserves (dialed t0) recv.
Proof.
  apply hoare_recv; [apply dialed_bg| |auto].
  intros w e H _. apply dialed_emit. eapply dialed_ext; [|exact H]. reflexivity.
Qed.

Lemma link_write_dialed t0 k c frame : preserves (dialed t0) (link_write k c frame).
Proof.
  apply hoare_link_write; [apply dialed_bg|auto|..].
  - intros w cn H _ _. apply dialed_emit, H.
  - intros w cn H _ _. apply dialed_emit. eapply dialed_ext; [|exact H]. reflexivity.
Qed.

Lemma closeUpstream_dialed t0 : preserves (dialed t0) closeUpstream.
Proof.
  unfold closeUpstream.
  apply preserves_bind; [apply preserves_get_fwd|].
  intros f. destruct (upstream f) as [u|]; [|apply preserves_ret].
  apply preserves_bind.
  - apply hoare_link_close; [apply dialed_bg|].
    intros w H. apply dialed_emit, dialed_close_conn, H.
  - intros ? w H. simpl. eapply dialed_ext; [|exact H]. reflexivity.
Qed.

Lemma write_packet_dialed t0 b fd : preserves (dialed t0) (write_packet b fd).
Proof.
  unfold write_packet.
  apply preserves_bind; [apply preserves_get_fwd|].
  intros f. destruct (upstream f) as [u|]; [|apply preserves_panic].
  apply preserves_bind; [apply link_write_dialed|].
  intros [writeErr|]; [|apply preserves_ret].
  apply preserves_bind; [apply closeUpstream_dialed|]. intros ?.
  apply preserves_bind; [|intros ?; apply preserves_ret].
  intros w H. apply dialed_emit, H.
Qed.

Lemma dialUpstream_dialed t0 : preserves (dialed t0) dialUpstream.
Proof.
  unfold dialUpstream.
  apply preserves_bind; [intros w H; apply dialed_emit, H|]. intros ?.
  apply preserves_bind; [apply preserves_get_fwd|]. intros f.
  apply preserves_bind.
  { apply hoare_dial; [apply dialed_bg| |]; intros; apply dialed_emit;
      (eapply dialed_ext; [|eassumption]); reflexivity. }
  intros [dialErr|c]; [apply preserves_ret|].
  apply preserves_bind; [apply link_write_dialed|].
  intros [err|]; [apply preserves_ret|].
  apply preserves_bind.
  { intros w H. simpl. eapply dialed_ext; [|exact H]. reflexivity. }
  intros ?. apply preserves_bind; [|intros ?; apply preserves_ret].
  intros w H. simpl. apply dialed_emit. eapply dialed_ext; [|exact H]. reflexivity.
Qed.

Lemma undrained_dialed t0 fd w : dialed t0 w -> fd = false -> undrained t0 fd w.
Proof.
  intros (evs & Ht & H1 & _) ->. exists evs. split; [exact Ht|].
  split; [exact H1|discriminate].
Qed.

(** The first dial of a [dialUpstream] reached with [firstDial] still true. *)
Lemma dialUpstream_first t0 :
  hoare (undrained t0 true) dialUpstream
    (fun _ w => dialed t0 w /\ undrained t0 true w)
    (fun w => exists fd, undrained t0 fd w).
Proof.
  set (D := fun w => dialed t0 w /\ undrained t0 true w).
  assert (HD : bg_stable D).
  { apply bg_stable_and; [apply dialed_bg|apply undrained_bg]. }
  assert (HDe : forall e w, is_recv e = false -> D w -> D (emit e w)).
  { intros e w He [H1 H2]. split; [apply dialed_emit, H1|apply undrained_emit; auto]. }
  assert (HDx : forall w w', trace w' = trace w -> D w -> D w').
  { intros w w' Ht [H1 H2]. split; [eapply dialed_ext|eapply undrained_ext]; eauto. }
  assert (HE : forall w, D w -> exists fd, undrained t0 fd w).
  { intros w [_ H]. eauto. }
  unfold dialUpstream.
  eapply hoare_bind with (Q := fun _ => undrained t0 true).
  { intros w H. apply undrained_emit; [reflexivity|exact H]. }
  intros ?.
  eapply hoare_bind with (Q := fun _ => undrained t0 true); [intros w H; exact H|].
  intros f.
  eapply hoare_bind with (Q := fun _ => D).
  { assert (Hd : forall r w w', trace w' = trace w -> undrained t0 true w ->
                   D (emit (EvDial (idleTimeout f) r) w')).
    { intros r w w' Ht (evs & Hevs & H1 & H2).
      assert (Hnr : Forall (fun e => is_recv e = false) evs) by auto.
      split.
      - exists (evs ++ [EvDial (idleTimeout f) r]). simpl.
        rewrite Ht, Hevs, app_assoc. split; [reflexivity|]. split.
        + apply first_dial_undrained_app; [exact H1|]. left.
          constructor; [reflexivity|constructor].
        + rewrite existsb_app. simpl. apply orb_true_r.
      - apply undrained_emit; [reflexivity|]. exists evs. rewrite Ht. auto. }
    apply hoare_dial; [apply undrained_bg| |].
    - intros w e H _. apply (Hd (Some e) w); [reflexivity|exact H].
    - intros w ws rs H _. apply (Hd None w); [reflexivity|exact H]. }
  intros [dialErr|c]; [intros w H; exact H|].
  eapply hoare_bind with (Q := fun _ => D).
  { apply hoare_link_write; [exact HD|auto|..].
    - intros w cn H _ _. apply HDe; [reflexivity|exact H].
    - intros w cn H _ _. apply HDe; [reflexivity|].
      eapply HDx; [|exact H]. reflexivity. }
  intros [err|]; [intros w H; exact H|].
  eapply hoare_bind with (Q := fun _ => D).
  { intros w H. simpl. eapply HDx; [|exact H]. reflexivity. }
  intros ?.
  eapply hoare_bind with (Q := fun _ => D); [|intros ? w H; exact H].
  intros w H. simpl. apply HDe; [reflexivity|].
  eapply HDx; [|exact H]. reflexivity.
Qed.

Lemma write_packet_undrained t0 b fd :
  preserves (undrained t0 true) (write_packet b fd).
Proof.
  unfold write_packet.
  apply preserves_bind; [apply preserves_get_fwd|].
  intros f. destruct (upstream f) as [u|]; [|apply preserves_panic].
  apply preserves_bind.
  { apply hoare_link_write; [apply undrained_bg|auto|..].
    - intros w cn H _ _. apply undrained_emit; [reflexivity|exact H].
    - intros w cn H _ _. apply undrained_emit; [reflexivity|].
      eapply undrained_ext; [|exact H]. reflexivity. }
  intros [writeErr|]; [|apply preserves_ret].
  apply preserves_bind.
  { unfold closeUpstream.
    apply preserves_bind; [apply preserves_get_fwd|].
    intros f'. destruct (upstream f') as [u'|]; [|apply preserves_ret].
    apply preserves_bind.
    - apply hoare_link_close; [apply undrained_bg|].
      intros w H. apply undrained_emit; [reflexivity|].
      eapply undrained_bg; [apply bg_related_close_conn|exact H].
    - intros ? w H. simpl. eapply undrained_ext; [|exact H]. reflexivity. }
  intros ?. apply preserves_bind; [|intros ?; apply preserves_ret].
  intros w H. apply undrained_emit; [reflexivity|exact H].
Qed.

Lemma drain_inv_undrained t0 fd w : drain_inv t0 fd w -> undrained t0 fd w.
Proof.
  destruct fd; simpl; [auto|]. intros H. apply undrained_dialed; auto.
Qed.

Lemma loop_body_drain_inv t0 b st mst pa fd :
  hoare (drain_inv t0 fd) (loop_body b st mst pa fd)
    (fun r w => match r with
                | Continue _ fd' => drain_inv t0 fd' w
                | Return _ => exists fd', undrained t0 fd' w
                end)
    (fun w => exists fd', undrained t0 fd' w).
Proof.
  assert (HE : forall fd' w, drain_inv t0 fd' w -> exists fd'', undrained t0 fd'' w).
  { intros fd' w H. exists fd'. apply drain_inv_undrained, H. }
  assert (Hwp : forall fd', hoare (drain_inv t0 fd') (write_packet b fd')
            (fun r w => match r with
                        | Continue _ fd'' => drain_inv t0 fd'' w
                        | Return _ => exists fd'', undrained t0 fd'' w
                        end)
            (fun w => exists fd'', undrained t0 fd'' w)).
  { intros fd'.
    assert (Hc : forall r w, drain_inv t0 fd' w ->
              match r with
              | Continue _ fd'' => fd'' = fd'
              | Return _ => True
              end ->
              match r with
              | Continue _ fd'' => drain_inv t0 fd'' w
              | Return _ => exists fd'', undrained t0 fd'' w
              end).
    { intros [pa' fd''|err] w H Hr; [subst; exact H|eauto]. }
    intros w Hw.
    assert (Hfd : match write_packet b fd' w with
                  | Done (Continue _ fd'') _ => fd'' = fd'
                  | _ => True
                  end).
    { unfold write_packet, bind, get_fwd.
      destruct (upstream (fwd w)); [|exact I].
      destruct (link_write Packet n b w) as [[e|] w1| | |]; try exact I.
      destruct (closeUpstream w1) as [? w2| | |]; try exact I.
      simpl. reflexivity. }
    assert (Hinv : drain_inv t0 fd' (world_of (write_packet b fd' w))).
    { destruct fd'; simpl in *.
      - apply (preserves_world_of _ _ w (write_packet_undrained t0 b true) Hw).
      - apply (preserves_world_of _ _ w (write_packet_dialed t0 b false) Hw). }
    destruct (write_packet b fd' w) as [r w'|w'|w'|w']; simpl in Hinv;
      try (apply (HE fd'), Hinv).
    apply Hc; [exact Hinv|]. destruct r; auto. }
  unfold loop_body.
  eapply hoare_bind with (Q := fun _ => drain_inv t0 fd).
  { destruct (pa >? -1); [|intros w H; exact H].
    destruct fd; simpl.
    - apply hoare_sleep; [apply undrained_bg|].
      intros w H. apply undrained_emit; [reflexivity|exact H].
    - apply hoare_sleep; [apply dialed_bg|]. intros w H. apply dialed_emit, H. }
  intros ?.
  eapply hoare_bind with (Q := fun _ => drain_inv t0 fd); [intros w H; exact H|].
  intros f. destruct (upstreamConn f); [apply Hwp|].
  destruct fd; simpl negb; cbv iota.
  - eapply hoare_bind with (Q := fun _ => undrained t0 true); [intros w H; exact H|].
    intros ?.
    eapply hoare_bind; [apply dialUpstream_first|].
    intros [err|].
    + eapply hoare_bind with (Q := fun _ => undrained t0 true);
        [|intros ? w H; exact H].
      intros w [_ H]. apply undrained_emit; [reflexivity|exact H].
    + apply hoare_stronger_pre with (P' := drain_inv t0 false);
        [apply Hwp|intros w [H _]; exact H].
  - eapply hoare_bind with (Q := fun _ => dialed t0).
    { eapply hoare_bind with (Q := fun _ => dialed t0); [|intros ? w H; exact H].
      eapply hoare_weaken;
        [apply recv_dialed|intros w H; exact H|intros ? w H; exact H|apply (HE false)]. }
    intros ?.
    eapply hoare_bind with (Q := fun _ => dialed t0).
    { eapply hoare_weaken;
        [apply dialUpstream_dialed|intros w H; exact H|intros ? w H; exact H
        |apply (HE false)]. }
    intros [err|].
    + eapply hoare_bind with (Q := fun _ => dialed t0); [|intros ? w H; exact H].
      intros w H. apply dialed_emit, H.
    + apply (Hwp false).
Qed.

(** In every [Write], from any world and on any schedule, nothing is
    received from [copyToDownstreamError] before the first dial of that
    [Write]: the drain guards only the redials that follow a dial of the same
    call. *)
Lemma first_dial_of_a_Write_is_undrained fuel b w :
  exists evs,
    trace (world_of (Write fuel b w)) = trace w ++ evs
    /\ first_dial_undrained evs = true.
Proof.
  assert (H : hoare (drain_inv (trace w) true) (Write fuel b)
                (fun _ w' => exists fd', undrained (trace w) fd' w')
                (fun w' => exists fd', undrained (trace w) fd' w')).
  { unfold Write, writeToUpstream.
    eapply hoare_bind with (Q := fun _ w' => exists fd', undrained (trace w) fd' w').
    - eapply hoare_bind with (Q := fun _ => drain_inv (trace w) true);
        [intros w' H'; exact H'|]. intros f.
      apply hoare_write_loop with (I := fun _ fd => drain_inv (trace w) fd).
      + intros pa fd. apply loop_body_drain_inv.
      + intros pa fd w' Hw'. exists fd. apply drain_inv_undrained, Hw'.
    - intros [e|] w' Hw'; exact Hw'. }
  assert (H0 : drain_inv (trace w) true w).
  { exists []. rewrite app_nil_r. simpl. auto. }
  specialize (H w H0).
  assert (Hw : exists fd', undrained (trace w) fd' (world_of (Write fuel b w))).
  { destruct (Write fuel b w); exact H. }
  destruct Hw as (fd' & evs & Ht & H1 & _). eauto.
Qed.

(** C1, at the input on which the code fails: [firstDial] is a variable of
    [writeToUpstream], set anew by every [Write], so that in no [Write]
    anything is received from the channel before that call's first dial.
    When the link dialed by an earlier [Write] fails under a later one, that
    [Write] tears the link down and dials again without the drain: two copy
    loops are alive at once.  When the old loop then ends, its error stays
    on the channel, so that a [Close] returns on it while the new loop still
    runs. *)
Theorem redial_in_later_Write_skips_drain :
  (forall fuel b w,
     exists evs, trace (world_of (Write fuel b w)) = trace w ++ evs
                 /\ first_dial_undrained evs = true)
  /\
  let w2 := world_of (Write 2 [x02] before_reset) in
  let w3 := copyToDownstream 2 0 w2 in
  let w4 := world_of (Close w3) in
  Write 2 [x02] before_reset = Done (1, None) w2
  /\ length (filter (fun e => is_dial e = true) (trace w2)) = 2%nat
  /\ length (filter (fun e => is_recv e = true) (trace w2)) = 0%nat
  /\ active_loops w2 = 2%nat
  /\ copyToDownstreamError (fwd w3) = Some ErrClosedLink
  /\ Close w3 = Done None w4
  /\ active_loops w4 = 1%nat.
Proof.
  split; [apply first_dial_of_a_Write_is_undrained|].
  vm_compute. repeat split; reflexivity.
Qed.

(** * Further properties *)

(** ** Sends and receives on the channel *)

Lemma active_insert (gs : list goroutine) g gr gr' :
  gs !! g = Some gr ->
  (length (filter (fun x => is_active x = true) (<[g := gr']> gs))
   + (if is_active gr then 1 else 0)
   = length (filter (fun x => is_active x = true) gs)
     + (if is_active gr' then 1 else 0))%nat.
Proof.
  intros Hg.
  rewrite insert_take_drop by (eapply lookup_lt_Some, Hg).
  rewrite <- (take_drop_middle gs g gr Hg) at 3.
  rewrite !filter_app, !filter_cons, !length_app.
  destruct (decide (is_active gr' = true)) as [H1|H1];
    destruct (decide (is_active gr = true)) as [H2|H2];
    destruct (is_active gr), (is_active gr'); try congruence; simpl; lia.
Qed.

Lemma close_conn_goroutines c w : goroutines (close_conn c w) = goroutines w.
Proof. unfold close_conn. destruct (conns w !! c); reflexivity. Qed.

Lemma close_conn_fwd c w : fwd (close_conn c w) = fwd w.
Proof. unfold close_conn. destruct (conns w !! c); reflexivity. Qed.

Lemma outstanding_ext w w' :
  goroutines w' = goroutines w ->
  copyToDownstreamError (fwd w') = copyToDownstreamError (fwd w) ->
  outstanding w' = outstanding w.
Proof. intros Hg Hc. unfold outstanding, active_loops, chan_count. rewrite Hg, Hc. reflexivity. Qed.

Lemma set_gstate_eq g s w gr :
  goroutines w !! g = Some gr ->
  set_gstate g s w
  = set_goroutines (<[g := {| glink := glink gr; gstate_of := s |}]> (goroutines w)) w.
Proof. intros Hg. unfold set_gstate. rewrite Hg. reflexivity. Qed.

Lemma outstanding_set_gstate g s w gr :
  goroutines w !! g = Some gr ->
  is_active {| glink := glink gr; gstate_of := s |} = is_active gr ->
  outstanding (set_gstate g s w) = outstanding w.
Proof.
  intros Hg Ha. rewrite (set_gstate_eq g s w gr Hg).
  unfold outstanding, active_loops, chan_count. simpl.
  pose proof (active_insert (goroutines w) g gr
                {| glink := glink gr; gstate_of := s |} Hg) as H.
  rewrite Ha in H. lia.
Qed.

Lemma outstanding_loop_fail g c e w :
  goroutines w !! g = Some {| glink := c; gstate_of := Reading |} ->
  outstanding (loop_fail g c e w) = outstanding w.
Proof.
  intros Hg. unfold loop_fail.
  rewrite (outstanding_set_gstate g (Publishing e) _ {| glink := c; gstate_of := Reading |}).
  - apply outstanding_ext.
    + simpl. apply close_conn_goroutines.
    + simpl. rewrite close_conn_fwd. reflexivity.
  - simpl. rewrite close_conn_goroutines. exact Hg.
  - reflexivity.
Qed.

(** A step of a copy loop leaves the number of outstanding sends as it is:
    a loop that sends its error returns. *)
Lemma outstanding_copy_step g w : outstanding (copy_step g w) = outstanding w.
Proof.
  unfold copy_step.
  destruct (goroutines w !! g) as [[c [|e|]]|] eqn:Hg; try reflexivity.
  - destruct (link_read c w) as [[[p readErr] w1]|] eqn:Hr; [|reflexivity].
    assert (H1 : goroutines w1 = goroutines w /\ fwd w1 = fwd w).
    { unfold link_read in Hr. destruct (conns w !! c) as [cn|]; [|discriminate].
      destruct (closed cn); [injection Hr as <- <- <-; auto|].
      destruct (rscript cn) as [|[p' e'] rs]; [discriminate|].
      injection Hr as <- <- <-. auto. }
    destruct H1 as [Hg1 Hf1].
    assert (Ho1 : outstanding w1 = outstanding w).
    { apply outstanding_ext; [exact Hg1|rewrite Hf1; reflexivity]. }
    destruct (0 <? Z.of_nat (length p)).
    + unfold downstream_write.
      set (w2 := emit _ _).
      assert (Hg2 : goroutines w2 = goroutines w) by exact Hg1.
      assert (Ho2 : outstanding w2 = outstanding w).
      { apply outstanding_ext; [exact Hg2|simpl; rewrite Hf1; reflexivity]. }
      destruct (downstream (fwd w1) (delivered w1) p);
        [|destruct readErr]; try exact Ho2;
        (rewrite outstanding_loop_fail; [exact Ho2|rewrite Hg2; exact Hg]).
    + destruct readErr; [|exact Ho1].
      rewrite outstanding_loop_fail; [exact Ho1|rewrite Hg1; exact Hg].
  - destruct (copyToDownstreamError (fwd w)) eqn:Hc; [reflexivity|].
    rewrite (set_gstate_eq g Stopped _ {| glink := c; gstate_of := Publishing e |})
      by exact Hg.
    unfold outstanding, active_loops, chan_count. simpl. rewrite Hc.
    pose proof (active_insert (goroutines w) g _
                  {| glink := c; gstate_of := Stopped |} Hg) as H.
    simpl in H. lia.
Qed.

Lemma outstanding_emit e w : outstanding (emit e w) = outstanding w.
Proof. reflexivity. Qed.

Lemma outstanding_stable (phi : nat -> option nat -> option nat -> Prop) :
  loop_stable (fun w => phi (outstanding w) (upstreamConn (fwd w)) (upstream (fwd w))).
Proof.
  split.
  - intros s w H. exact H.
  - intros g w H. rewrite outstanding_copy_step.
    destruct (bg_related_copy_step g w) as [_ _ _ _ Hc Hu _ _ _ _].
    rewrite Hc, Hu. exact H.
Qed.

Lemma outstanding_close_conn c w : outstanding (close_conn c w) = outstanding w.
Proof.
  apply outstanding_ext; [apply close_conn_goroutines|].
  rewrite close_conn_fwd. reflexivity.
Qed.

Lemma outstanding_spawn c w :
  outstanding (emit (EvSpawn c)
                 (set_goroutines (goroutines w ++ [{| glink := c; gstate_of := Reading |}]) w))
  = S (outstanding w).
Proof.
  unfold outstanding, active_loops, chan_count. simpl.
  rewrite filter_app, length_app. simpl. lia.
Qed.

(** [write_packet] hands the flag on as it got it. *)
Lemma write_packet_flag b fd w :
  match write_packet b fd w with
  | Done (Continue _ fd') _ => fd' = fd
  | _ => True
  end.
Proof.
  unfold write_packet, bind, get_fwd.
  destruct (upstream (fwd w)); [|exact I].
  destruct (link_write Packet n b w) as [[e|] w1| | |]; try exact I.
  destruct (closeUpstream w1) as [? w2| | |]; try exact I.
  simpl. reflexivity.
Qed.

Lemma closeUpstream_outstanding (phi : nat -> Prop) :
  hoare (fun w => phi (outstanding w)) closeUpstream
    (fun _ w => phi (outstanding w) /\ upstream (fwd w) = None)
    (fun w => phi (outstanding w)).
Proof.
  unfold closeUpstream.
  eapply hoare_bind; [apply hoare_get_fwd|].
  intros f. destruct (upstream f) as [u|] eqn:Hu.
  - apply hoare_stronger_pre with (P' := fun w => phi (outstanding w));
      [|intros w [H _]; exact H].
    eapply hoare_bind with (Q := fun _ w => phi (outstanding w)).
    + apply hoare_link_close_stable;
        [apply (outstanding_stable (fun n _ _ => phi n))|].
      intros w H. rewrite outstanding_emit, outstanding_close_conn. exact H.
    + intros ? w H. simpl. split; [exact H|reflexivity].
  - intros w [H ->]. simpl. auto.
Qed.

Lemma write_packet_outstanding (phi : nat -> Prop) b fd :
  preserves (fun w => phi (outstanding w)) (write_packet b fd).
Proof.
  unfold write_packet.
  apply preserves_bind; [apply preserves_get_fwd|].
  intros f. destruct (upstream f) as [u|]; [|apply preserves_panic].
  apply preserves_bind.
  { apply hoare_link_write_stable;
      [apply (outstanding_stable (fun n _ _ => phi n))|auto|..];
      intros w cn H _ _; exact H. }
  intros [writeErr|]; [|apply preserves_ret].
  apply preserves_bind.
  { eapply hoare_weaker_post; [apply closeUpstream_outstanding|].
    intros ? w [H _]. exact H. }
  intros ?. apply preserves_bind; [|intros ?; apply preserves_ret].
  intros w H. exact H.
Qed.

(** [dialUpstream] from a forwarder without a link: a failure changes
    nothing that is outstanding, a success starts one more loop. *)
Lemma dialUpstream_outstanding k :
  hoare (fun w => outstanding w = k /\ upstreamConn (fwd w) = None)
    dialUpstream
    (fun err w => match err with
                  | Some _ => outstanding w = k /\ upstreamConn (fwd w) = None
                  | None => outstanding w = S k
                  end)
    (fun w => outstanding w = k).
Proof.
  set (P := fun w => outstanding w = k /\ upstreamConn (fwd w) = None).
  assert (HP : loop_stable P).
  { apply (outstanding_stable (fun n uc _ => n = k /\ uc = None)). }
  unfold dialUpstream.
  eapply hoare_bind with (Q := fun _ => P); [intros w H; exact H|]. intros ?.
  eapply hoare_bind with (Q := fun _ => P); [intros w H; exact H|]. intros f.
  eapply hoare_bind with (Q := fun _ => P).
  { apply hoare_dial_stable; [exact HP| |]; intros; assumption. }
  intros [dialErr|c]; [intros w H; exact H|].
  eapply hoare_bind with (Q := fun _ => P).
  { apply hoare_link_write_stable; [exact HP|intros w [H _] _; exact H|..];
      intros; assumption. }
  intros [err|]; [intros w H; exact H|].
  eapply hoare_bind with (Q := fun _ w => outstanding w = k).
  { intros w [H _]. exact H. }
  intros ?.
  eapply hoare_bind with (Q := fun _ w => outstanding w = S k);
    [|intros ? w H; exact H].
  intros w H. unfold go_copyToDownstream. rewrite outstanding_spawn.
  f_equal. exact H.
Qed.

(** A receive that returns has taken the one value that was outstanding. *)
Lemma recv_drains (psi : option nat -> option nat -> Prop) :
  hoare (fun w => (outstanding w <= 1)%nat
                  /\ psi (upstreamConn (fwd w)) (upstream (fwd w)))
    recv
    (fun _ w => outstanding w = 0%nat
                /\ psi (upstreamConn (fwd w)) (upstream (fwd w)))
    (fun w => (outstanding w <= 1)%nat).
Proof.
  apply hoare_recv_stable.
  - apply (outstanding_stable (fun n uc u => (n <= 1)%nat /\ psi uc u)).
  - intros w e [H Hpsi] Hc. split; [|exact Hpsi].
    unfold outstanding, chan_count in *. rewrite Hc in H. simpl.
    unfold active_loops in *. simpl. lia.
  - intros w [H _]. exact H.
Qed.

Lemma active_le_outstanding w : (active_loops w <= outstanding w)%nat.
Proof. unfold outstanding. lia. Qed.

Lemma loop_body_outstanding b st mst pa (fd : bool) :
  hoare (fun w => if fd then upstreamConn (fwd w) = None /\ outstanding w = 0%nat
                  else (outstanding w <= 1)%nat)
    (loop_body b st mst pa fd)
    (fun r w => match r with
                | Continue _ fd' =>
                    if fd' then upstreamConn (fwd w) = None /\ outstanding w = 0%nat
                    else (outstanding w <= 1)%nat
                | Return _ => (outstanding w <= 1)%nat
                end)
    (fun w => (outstanding w <= 1)%nat).
Proof.
  set (I := fun (fd : bool) w =>
              if fd then upstreamConn (fwd w) = None /\ outstanding w = 0%nat
              else (outstanding w <= 1)%nat).
  assert (HI : forall fd', loop_stable (I fd')).
  { intros [|].
    - apply (outstanding_stable (fun n uc _ => uc = None /\ n = 0%nat)).
    - apply (outstanding_stable (fun n _ _ => (n <= 1)%nat)). }
  assert (HE : forall fd' w, I fd' w -> (outstanding w <= 1)%nat).
  { intros [|] w H; simpl in H; [destruct H as [_ ->]; lia|exact H]. }
  (* the write on the link, reached with at most one send outstanding *)
  assert (Hwp : forall fd',
            hoare (fun w => (outstanding w <= 1)%nat) (write_packet b fd')
              (fun r w => match r with
                          | Continue _ fd'' => fd'' = fd' /\ (outstanding w <= 1)%nat
                          | Return _ => (outstanding w <= 1)%nat
                          end)
              (fun w => (outstanding w <= 1)%nat)).
  { intros fd' w Hw.
    pose proof (write_packet_outstanding (fun n => (n <= 1)%nat) b fd' w Hw) as H.
    pose proof (write_packet_flag b fd' w) as Hf.
    destruct (write_packet b fd' w) as [[pa' fd''|err] w'|w'|w'|w']; auto. }
  unfold loop_body.
  eapply hoare_bind with (Q := fun _ => I fd).
  { destruct (pa >? -1); [|intros w H; exact H].
    apply hoare_sleep_stable; [apply HI|]. intros w H. exact H. }
  intros ?.
  eapply hoare_bind with (Q := fun f w => I fd w /\ f = fwd w);
    [apply hoare_get_fwd|].
  intros f. destruct (upstreamConn f) as [c|] eqn:Hc.
  - (* a live link: [firstDial] is false, or the invariant is broken *)
    destruct fd.
    + intros w [[Hn _] ->]. congruence.
    + eapply hoare_weaken; [apply (Hwp false)|intros w [H _]; exact H| |auto].
      intros [pa' fd''|err] w H; [destruct H as [-> H]|]; exact H.
  - apply hoare_stronger_pre
      with (P' := fun w => I fd w /\ upstreamConn (fwd w) = None);
      [|intros w [H ->]; auto].
    eapply hoare_bind with
      (Q := fun _ w => outstanding w = 0%nat /\ upstreamConn (fwd w) = None).
    { destruct fd; simpl negb; cbv iota.
      - intros w [[Hn Ho] _]. simpl. auto.
      - eapply hoare_bind with
          (Q := fun _ w => outstanding w = 0%nat /\ upstreamConn (fwd w) = None);
          [|intros ? w H; exact H].
        eapply hoare_weaken;
          [apply (recv_drains (fun uc _ => uc = None))
          |intros w H; exact H|intros ? w H; exact H|auto]. }
    intros ?.
    eapply hoare_bind.
    { eapply hoare_weaken;
        [apply (dialUpstream_outstanding 0)|intros w H; exact H|intros ? w H; exact H|].
      intros w H. cbv beta in *. lia. }
    intros [err|].
    + eapply hoare_bind with
        (Q := fun _ w => outstanding w = 0%nat /\ upstreamConn (fwd w) = None);
        [intros w H; exact H|].
      intros ? w [Ho Hn]. simpl. destruct fd; [auto|lia].
    + eapply hoare_weaken; [apply (Hwp false)|intros w H; cbv beta in *; lia| |auto].
      intros [pa' fd''|err] w H; [destruct H as [-> H]|]; exact H.
Qed.

(** X1: from a forwarder that holds no link and has no send outstanding (a
    fresh client, or one whose [Close] has returned), one [Write] never has
    more than one copy loop outstanding, however it ends and on every
    schedule: within one call the receive before a redial does its work. *)
Theorem one_Write_keeps_one_loop fuel b w :
  upstreamConn (fwd w) = None -> outstanding w = 0%nat ->
  (outstanding (world_of (Write fuel b w)) <= 1)%nat
  /\ (active_loops (world_of (Write fuel b w)) <= 1)%nat.
Proof.
  intros Hn Ho.
  assert (H : (outstanding (world_of (Write fuel b w)) <= 1)%nat).
  { assert (Hh : hoare (fun w => upstreamConn (fwd w) = None /\ outstanding w = 0%nat)
                   (Write fuel b)
                   (fun _ w' => (outstanding w' <= 1)%nat)
                   (fun w' => (outstanding w' <= 1)%nat)).
    { unfold Write, writeToUpstream.
      eapply hoare_bind with (Q := fun _ w' => (outstanding w' <= 1)%nat).
      - eapply hoare_bind with
          (Q := fun _ w' => upstreamConn (fwd w') = None /\ outstanding w' = 0%nat);
          [intros w' H'; exact H'|]. intros f.
        set (I := fun (_ : Z) (fd : bool) w' =>
                    if fd then upstreamConn (fwd w') = None /\ outstanding w' = 0%nat
                    else (outstanding w' <= 1)%nat).
        apply hoare_stronger_pre with (P' := I (-1) true);
          [|intros w' H'; exact H'].
        apply (hoare_write_loop b _ _ I).
        + intros pa fd. apply loop_body_outstanding.
        + intros pa [|] w' H'; simpl in H'; [destruct H' as [_ H']; lia|exact H'].
      - intros [e|] w' H'; exact H'. }
    specialize (Hh w (conj Hn Ho)). destruct (Write fuel b w); exact Hh. }
  split; [exact H|]. pose proof (active_le_outstanding (world_of (Write fuel b w))). lia.
Qed.

Lemma one_Write_keeps_one_loop_witness :
  let w := start (Client "7f3c" (fun _ _ => None) Second reset_dial) [] in
  (outstanding (world_of (Write 3 [x01] w)) <= 1)%nat
  /\ (active_loops (world_of (Write 3 [x01] w)) <= 1)%nat.
Proof.
  intros w. apply (one_Write_keeps_one_loop 3 [x01] w); reflexivity.
Defined.

Lemma Close_result w r w' :
  (outstanding w <= 1)%nat -> Close w = Done r w' ->
  r = None /\ active_loops w' = 0%nat
  /\ copyToDownstreamError (fwd w') = None /\ upstream (fwd w') = None.
Proof.
  intros Ho HC.
  assert (H : hoare (fun w => (outstanding w <= 1)%nat) Close
                (fun r w => r = None /\ outstanding w = 0%nat /\ upstream (fwd w) = None)
                (fun _ => True)).
  { unfold Close.
    eapply hoare_bind.
    { eapply hoare_weaken;
        [apply (closeUpstream_outstanding (fun n => (n <= 1)%nat))
        |intros w0 H0; exact H0|intros ? w0 H0; exact H0|auto]. }
    intros ?.
    eapply hoare_bind with
      (Q := fun _ w => outstanding w = 0%nat /\ upstream (fwd w) = None).
    - eapply hoare_weaken;
        [apply (recv_drains (fun _ u => u = None))
        |intros w0 H0; exact H0|intros ? w0 H0; exact H0|auto].
    - intros ? w0 [H1 H2]. simpl. auto. }
  specialize (H w Ho). rewrite HC in H. destruct H as (-> & H0 & Hu).
  unfold outstanding, chan_count in H0.
  destruct (copyToDownstreamError (fwd w')); [lia|].
  repeat split; auto. lia.
Qed.

(** X2: when at most one send is outstanding, a [Close] that returns returns
    nil and leaves no copy loop alive, nothing on the channel and no link:
    it has waited for the loop it tore down. *)
Theorem Close_waits_for_the_loop w r w' :
  (outstanding w <= 1)%nat -> Close w = Done r w' ->
  r = None /\ active_loops w' = 0%nat
  /\ copyToDownstreamError (fwd w') = None /\ upstream (fwd w') = None.
Proof. apply Close_result. Qed.

Lemma Close_waits_for_the_loop_witness :
  let w1 := world_of (Write 1 [x01; x02] closed_client) in
  let w2 := world_of (Close w1) in
  @None error = None /\ active_loops w2 = 0%nat
  /\ copyToDownstreamError (fwd w2) = None /\ upstream (fwd w2) = None.
Proof.
  intros w1 w2. apply (Close_waits_for_the_loop w1 None w2).
  - vm_compute. lia.
  - vm_compute. reflexivity.
Defined.

Lemma no_active_loop_idle w : active_loops w = 0%nat -> idle w.
Proof.
  intros Ha g gr Hg. unfold parked.
  destruct (gstate_of gr) eqn:Hs; [exfalso|exfalso|exact I];
    apply nil_length_inv in Ha;
    (assert (Hin : gr ∈ filter (fun x => is_active x = true) (goroutines w));
     [apply list_elem_of_filter; split;
        [unfold is_active; rewrite Hs; reflexivity
        |eapply list_elem_of_lookup_2, Hg]
     |rewrite Ha in Hin; inversion Hin]).
Qed.

(** X3: [Close] is not to be called twice.  After a [Close] that has
    returned (from a forwarder with at most one send outstanding), a second
    [Close] finds no link and no loop and receives from the empty channel:
    on every schedule it never returns. *)
Theorem second_Close_blocks w r w' s :
  (outstanding w <= 1)%nat -> Close w = Done r w' ->
  Close (set_sched s w') = Blocked (set_sched [] w').
Proof.
  intros Ho HC.
  destruct (Close_result w r w' Ho HC) as (_ & Ha & Hc & Hu).
  unfold Close, closeUpstream, bind, get_fwd, recv. simpl. rewrite Hu. simpl.
  rewrite recv_loop_idle; [reflexivity| |exact Hc].
  apply (no_active_loop_idle (set_sched s w')). exact Ha.
Qed.

Lemma second_Close_blocks_witness :
  let w1 := world_of (Write 1 [x01; x02] closed_client) in
  let w2 := world_of (Close w1) in
  Close (set_sched [[0; 0]; [0]]%nat w2) = Blocked (set_sched [] w2).
Proof.
  intros w1 w2. apply (second_Close_blocks w1 None w2).
  - vm_compute. lia.
  - vm_compute. reflexivity.
Defined.

(** ** A dial that fails *)

Lemma dialUpstream_failure w err w' :
  dialUpstream w = Done (Some err) w' ->
  upstreamConn (fwd w') = upstreamConn (fwd w)
  /\ upstream (fwd w') = upstream (fwd w)
  /\ length (goroutines w') = length (goroutines w)
  /\ ((exists e, err = ErrDialing e /\ length (conns w') = length (conns w))
      \/ (exists e, err = ErrSendingID e
                    /\ length (conns w') = S (length (conns w))
                    /\ (e <> ErrClosedLink ->
                        exists cn, conns w' !! length (conns w) = Some cn
                                   /\ closed cn = false /\ written cn = []))).
Proof.
  intros HD.
  set (uc := upstreamConn (fwd w)). set (u := upstream (fwd w)).
  set (n := length (goroutines w)). set (m := length (conns w)).
  set (P := fun w0 => upstreamConn (fwd w0) = uc /\ upstream (fwd w0) = u
                      /\ length (goroutines w0) = n).
  assert (HP : bg_stable P).
  { intros w1 w2 R (H1 & H2 & H3). unfold P.
    rewrite (bg_upstreamConn _ _ R), (bg_upstream _ _ R), (bg_goroutines _ _ R). auto. }
  assert (HF : forall k, bg_stable (fun w0 => length (frames w0) = k)).
  { intros k. apply (bg_stable_frames (fun fs => length fs = k)). }
  assert (Hlen : forall w0, length (frames w0) = length (conns w0)).
  { intros w0. unfold frames. apply length_fmap. }
  assert (H : hoare (fun w0 => P w0 /\ length (frames w0) = m) dialUpstream
    (fun err w0 =>
       match err with
       | None => True
       | Some err =>
           P w0 /\
           ((exists e, err = ErrDialing e /\ length (conns w0) = m)
            \/ (exists e, err = ErrSendingID e /\ length (conns w0) = S m
                          /\ (e <> ErrClosedLink ->
                              exists cn, conns w0 !! m = Some cn
                                         /\ closed cn = false /\ written cn = [])))
       end)
    (fun _ => True)).
  { unfold dialUpstream.
    eapply hoare_bind with (Q := fun _ w0 => P w0 /\ length (frames w0) = m);
      [intros w0 H0; exact H0|]. intros ?.
    eapply hoare_bind with (Q := fun _ w0 => P w0 /\ length (frames w0) = m);
      [intros w0 H0; exact H0|]. intros f.
    eapply hoare_bind with
      (Q := fun r w0 => P w0 /\
              match r with
              | inl _ => length (frames w0) = m
              | inr c => c = m /\ length (frames w0) = S m /\ frames w0 !! m = Some []
              end).
    { apply hoare_dial; [apply bg_stable_and; [exact HP|apply HF]| |].
      - intros w0 e [H0 H1] _. split; [exact H0|exact H1].
      - intros w0 ws rs [H0 H1] _. split; [exact H0|].
        rewrite Hlen in H1. split; [exact H1|].
        rewrite frames_emit. unfold frames at 1 2. simpl.
        rewrite fmap_app, length_app, length_fmap. simpl.
        split; [lia|]. rewrite <- H1.
        replace (length (conns w0)) with (length (written <$> conns w0))
          by apply length_fmap.
        apply list_lookup_middle. reflexivity. }
    intros [dialErr|c].
    { intros w0 [H0 H1]. simpl. split; [exact H0|]. left.
      exists dialErr. split; [reflexivity|]. rewrite <- Hlen. exact H1. }
    apply hoare_pre. intros w00 (H00 & -> & H01 & H02).
    apply hoare_stronger_pre
      with (P' := fun w0 => P w0 /\ length (frames w0) = S m /\ frames w0 !! m = Some []);
      [|intros w0 ->; auto].
    clear w00 H00 H01 H02.
    eapply hoare_bind with
      (Q := fun err w0 =>
              match err with
              | Some e => P w0 /\ length (conns w0) = S m
                          /\ (e <> ErrClosedLink ->
                              exists cn, conns w0 !! m = Some cn
                                         /\ closed cn = false /\ written cn = [])
              | None => True
              end).
    { apply hoare_link_write.
      - apply bg_stable_and; [exact HP|].
        apply (bg_stable_frames (fun fs => length fs = S m /\ fs !! m = Some [])).
      - intros; exact I.
      - intros w0 cn (H0 & H1 & H2) _ _.
        split; [exact H0|]. split; [rewrite <- Hlen; exact H1|].
        intros Hne. congruence.
      - intros w0 cn (H0 & H1 & H2) Hc _.
        destruct (hd None (wscript cn)) as [e|]; [|exact I].
        split; [exact H0|]. split.
        + simpl. rewrite length_insert, <- Hlen. exact H1.
        + intros _. exists (conn_after_write (Some e) (list_byte_of_string (id f)) cn).
          split; [|split; [reflexivity|]].
          * simpl. apply list_lookup_insert_eq. eapply lookup_lt_Some, Hc.
          * simpl. rewrite (frames_lookup _ _ _ Hc) in H2. congruence. }
    intros [e|].
    - intros w0 (H0 & H1 & H2). simpl. split; [exact H0|]. right. eauto.
    - apply hoare_stronger_pre with (P' := fun _ => True); [|auto].
      eapply hoare_bind; [apply hoare_true|]. intros ?.
      eapply hoare_bind; [apply hoare_true|]. intros ? w0 _. exact I. }
  assert (H0 : P w /\ length (frames w) = m).
  { split; [unfold P; auto|apply Hlen]. }
  specialize (H w H0). rewrite HD in H. destruct H as [(H1 & H2 & H3) H4]. auto.
Qed.

(** X4: a [dialUpstream] that fails leaves [upstreamConn] and [upstream] as
    they were and starts no goroutine.  When the dial itself failed no
    connection was made; when the handshake failed, the connection just
    dialed stays behind, and unless the transport reported it closed it is
    still open, with no frame written: [dialUpstream] does not close it. *)
Theorem failed_dial_leaves_the_link_state w err w' :
  dialUpstream w = Done (Some err) w' ->
  upstreamConn (fwd w') = upstreamConn (fwd w)
  /\ upstream (fwd w') = upstream (fwd w)
  /\ length (goroutines w') = length (goroutines w)
  /\ ((exists e, err = ErrDialing e /\ length (conns w') = length (conns w))
      \/ (exists e, err = ErrSendingID e
                    /\ length (conns w') = S (length (conns w))
                    /\ (e <> ErrClosedLink ->
                        exists cn, conns w' !! length (conns w) = Some cn
                                   /\ closed cn = false /\ written cn = []))).
Proof. apply dialUpstream_failure. Qed.

Lemma failed_dial_leaves_the_link_state_witness :
  let w := start (Client "7f3c" (fun _ _ => None) Second
                    (fun _ _ => DialConn [Some (ErrEnv "broken pipe")] [])) [] in
  let w' := world_of (dialUpstream w) in
  upstreamConn (fwd w') = upstreamConn (fwd w)
  /\ upstream (fwd w') = upstream (fwd w)
  /\ length (goroutines w') = length (goroutines w)
  /\ ((exists e, ErrSendingID (ErrEnv "broken pipe") = ErrDialing e
                 /\ length (conns w') = length (conns w))
      \/ (exists e, ErrSendingID (ErrEnv "broken pipe") = ErrSendingID e
                    /\ length (conns w') = S (length (conns w))
                    /\ (e <> ErrClosedLink ->
                        exists cn, conns w' !! length (conns w) = Some cn
                                   /\ closed cn = false /\ written cn = []))).
Proof.
  intros w w'.
  apply (failed_dial_leaves_the_link_state w (ErrSendingID (ErrEnv "broken pipe")) w').
  vm_compute. reflexivity.
Defined.

(** ** What a copy loop hands to the sink *)

Lemma not_reading_step g w :
  not_reading g w ->
  not_reading g (copy_step g w) /\ delivered (copy_step g w) = delivered w.
Proof.
  unfold not_reading, copy_step.
  destruct (goroutines w !! g) as [[c [|e|]]|] eqn:Hg; try contradiction; intros _.
  - destruct (copyToDownstreamError (fwd w)); [rewrite Hg; auto|].
    rewrite (set_gstate_eq g Stopped _ {| glink := c; gstate_of := Publishing e |})
      by exact Hg.
    simpl. rewrite list_lookup_insert_eq by (eapply lookup_lt_Some, Hg). auto.
  - rewrite Hg. auto.
  - rewrite Hg. auto.
Qed.

Lemma not_reading_delivers_nothing g n : forall w,
  not_reading g w -> delivered (copyToDownstream n g w) = delivered w.
Proof.
  induction n as [|n IH]; intros w H; simpl; [reflexivity|].
  destruct (not_reading_step g w H) as [H1 H2]. rewrite IH; auto.
Qed.

Lemma loop_fail_not_reading g c e w :
  goroutines w !! g = Some {| glink := c; gstate_of := Reading |} ->
  not_reading g (loop_fail g c e w) /\ delivered (loop_fail g c e w) = delivered w.
Proof.
  intros Hg. unfold loop_fail.
  rewrite (set_gstate_eq g (Publishing e) _ {| glink := c; gstate_of := Reading |})
    by (simpl; rewrite close_conn_goroutines; exact Hg).
  unfold not_reading. simpl. rewrite close_conn_goroutines.
  rewrite list_lookup_insert_eq by (eapply lookup_lt_Some, Hg).
  split; [exact I|]. unfold close_conn. destruct (conns w !! c); reflexivity.
Qed.

Lemma copy_loop_prefix g c n : forall rs w,
  loop_at g c rs w ->
  exists k, (k <= length rs)%nat
            /\ delivered (copyToDownstream n g w)
               = delivered w ++ List.filter has_bytes (map fst (firstn k rs)).
Proof.
  induction n as [|n IH]; intros rs w Hl.
  - exists 0%nat. simpl. rewrite app_nil_r. split; [lia|reflexivity].
  - simpl copyToDownstream. destruct rs as [|[p re] rs].
    + assert (Hs : copy_step g w = w).
      { destruct Hl as (Hg & cn & Hc & Hcl & Hrs).
        unfold copy_step, link_read. rewrite Hg, Hc, Hcl, Hrs. reflexivity. }
      rewrite Hs. apply IH, Hl.
    + destruct (copy_step_read g c p re rs w Hl) as (w1 & Hr & Hl1 & Hf & Hd & Ht).
      assert (Hfail : forall e w2,
                goroutines w2 !! g = Some {| glink := c; gstate_of := Reading |} ->
                delivered w2 = delivered w ++ List.filter has_bytes [p] ->
                exists k, (k <= length ((p, re) :: rs))%nat
                  /\ delivered (copyToDownstream n g (loop_fail g c e w2))
                     = delivered w
                       ++ List.filter has_bytes (map fst (firstn k ((p, re) :: rs)))).
      { intros e w2 Hg2 Hd2. exists 1%nat. split; [simpl; lia|].
        destruct (loop_fail_not_reading g c e w2 Hg2) as [Hn Hdl].
        rewrite not_reading_delivers_nothing by exact Hn.
        rewrite Hdl, Hd2. reflexivity. }
      assert (Hgo : forall w2,
                loop_at g c rs w2 ->
                delivered w2 = delivered w ++ List.filter has_bytes [p] ->
                exists k, (k <= length ((p, re) :: rs))%nat
                  /\ delivered (copyToDownstream n g w2)
                     = delivered w
                       ++ List.filter has_bytes (map fst (firstn k ((p, re) :: rs)))).
      { intros w2 Hl2 Hd2. destruct (IH rs w2 Hl2) as (k & Hk & Hdk).
        exists (S k). split; [simpl; lia|].
        rewrite Hdk, Hd2. simpl.
        destruct (has_bytes p); simpl; rewrite <- ?app_assoc; simpl;
          rewrite ?app_nil_r; reflexivity. }
      unfold copy_step. rewrite (proj1 Hl), Hr.
      change (0 <? Z.of_nat (length p)) with (has_bytes p).
      simpl List.filter in Hfail, Hgo.
      destruct (has_bytes p) eqn:Hp.
      * unfold downstream_write.
        set (w2 := emit _ _).
        assert (Hg2 : goroutines w2 !! g = Some {| glink := c; gstate_of := Reading |})
          by apply Hl1.
        assert (Hd2 : delivered w2 = delivered w ++ [p]) by (simpl; rewrite Hd; reflexivity).
        destruct (downstream (fwd w1) (delivered w1) p) as [e|];
          [apply Hfail; assumption|].
        destruct re as [e|]; [apply Hfail; assumption|].
        apply Hgo; [|exact Hd2]. split; [exact Hg2|apply Hl1].
      * assert (Hd1 : delivered w1 = delivered w ++ []) by (rewrite app_nil_r; exact Hd).
        destruct re as [e|]; [apply Hfail; [apply Hl1|exact Hd1]|].
        apply Hgo; [exact Hl1|exact Hd1].
Qed.

(** X5: whatever the link yields and whatever the sink answers, what a copy
    loop has handed to the sink after any number of its steps is what was
    there before, followed by the payloads that have bytes among some first
    reads of the link, in the order read: nothing is delivered twice, out
    of order, or without having been read. *)
Theorem copy_loop_delivers_a_prefix g c n rs w :
  loop_at g c rs w ->
  exists k, (k <= length rs)%nat
            /\ delivered (copyToDownstream n g w)
               = delivered w ++ List.filter has_bytes (map fst (firstn k rs)).
Proof. apply copy_loop_prefix. Qed.

Lemma copy_loop_delivers_a_prefix_witness :
  let rs := [([x0a], None); ([], None); ([x0b], Some (ErrEnv "EOF")); ([x0c], None)] in
  let w := linked_client rs in
  exists k, (k <= length rs)%nat
            /\ delivered (copyToDownstream 9 0 w)
               = delivered w ++ List.filter has_bytes (map fst (firstn k rs)).
Proof.
  intros rs w. apply (copy_loop_delivers_a_prefix 0%nat 0%nat 9 rs w).
  split; [reflexivity|]. eexists. split; [reflexivity|]. split; reflexivity.
Defined.

(** ** The length of a sleep *)

Lemma backoff_le_cap k st T : backoff k st T <= T.
Proof.
  unfold backoff.
  destruct (wrap64 (duration_of_float (2 ^ k) * st) >? T) eqn:H; lia.
Qed.

(** X6: no sleep of any [Write] is longer than the forwarder's idle timeout,
    whatever the number of failures before it (the cap is applied after the
    doubling, overflown or not). *)
Theorem no_sleep_exceeds_idleTimeout fuel b w pre d rest :
  trace (world_of (Write fuel b w)) = trace w ++ pre ++ EvSleep d :: rest ->
  d <= idleTimeout (fwd w).
Proof.
  intros Ht. destruct (sleep_is_backoff fuel b w pre d rest Ht) as [_ ->].
  apply backoff_le_cap.
Qed.

Lemma no_sleep_exceeds_idleTimeout_witness :
  50000000 <= idleTimeout (fwd after_first_write).
Proof.
  apply (no_sleep_exceeds_idleTimeout 3 [x02] after_first_write
           [EvLinkWrite Packet 0 [x02] (Some (ErrEnv "reset"));
            EvClose 0; EvLogError (ErrWriting (ErrEnv "reset"));
            EvLogDebug "Dialing upstream";
            EvDial Second (Some (ErrEnv "refused"));
            EvLogError (ErrDialing (ErrEnv "refused"))]
           50000000
           [EvLogDebug "Dialing upstream"; EvDial Second None;
            EvLinkWrite Handshake 1 (list_byte_of_string "7f3c") None;
            EvSpawn 1; EvLinkWrite Packet 1 [x02] None]).
  vm_compute. reflexivity.
Defined.

(** ** A write on a healthy link *)

Lemma idle_after_write (w : world) c cn r frame :
  conns w !! c = Some cn -> closed cn = false -> idle w ->
  forall w', goroutines w' = goroutines w ->
             conns w' = <[c := conn_after_write r frame cn]> (conns w) ->
             idle w'.
Proof.
  intros Hc Hcl Hi w' Hg Hcs g gr Hgr. rewrite Hg in Hgr.
  specialize (Hi g gr Hgr). unfold parked in *.
  destruct (gstate_of gr); auto.
  destruct Hi as (cn0 & Hc0 & Hcl0 & Hrs0). rewrite Hcs.
  destruct (decide (c = glink gr)) as [Heq|Hne].
  - exists (conn_after_write r frame cn). rewrite <- Heq in *.
    rewrite list_lookup_insert_eq by (eapply lookup_lt_Some, Hc).
    split; [reflexivity|]. split; [reflexivity|]. simpl.
    rewrite Hc in Hc0. injection Hc0 as ->. exact Hrs0.
  - exists cn0. rewrite list_lookup_insert_ne by exact Hne. auto.
Qed.

(** X7: on a live link whose copy loop waits for input and whose transport
    takes the next write, [Write] makes exactly one transport write, the
    packet itself: it returns [len b] and no error, dials nothing, sleeps
    nothing, leaves the forwarder as it was, and the link is as healthy
    afterwards as it was before. *)
Theorem Write_on_a_healthy_link fuel b c cn w :
  upstreamConn (fwd w) = Some c -> upstream (fwd w) = Some c -> idle w ->
  conns w !! c = Some cn -> closed cn = false -> hd None (wscript cn) = None ->
  exists w',
    Write (S fuel) b w = Done (Z.of_nat (length b), None) w'
    /\ trace w' = trace w ++ [EvLinkWrite Packet c b None]
    /\ conns w' = <[c := conn_after_write None b cn]> (conns w)
    /\ fwd w' = fwd w /\ goroutines w' = goroutines w /\ ndials w' = ndials w
    /\ idle w'.
Proof.
  intros Huc Hu Hi Hc Hcl Hw.
  set (P := fun w0 => fwd w0 = fwd w /\ ndials w0 = ndials w /\ conns w0 = conns w
                      /\ goroutines w0 = goroutines w /\ trace w0 = trace w).
  assert (HP : loop_stable P).
  { apply loop_stable_idle; [intros s w0 H; exact H|].
    intros w0 (_ & _ & Hc0 & Hg0 & _) g gr. unfold parked.
    rewrite Hg0, Hc0. apply Hi. }
  assert (H : hoare P (Write (S fuel) b)
    (fun r w' => r = (Z.of_nat (length b), None)
       /\ trace w' = trace w ++ [EvLinkWrite Packet c b None]
       /\ conns w' = <[c := conn_after_write None b cn]> (conns w)
       /\ fwd w' = fwd w /\ goroutines w' = goroutines w /\ ndials w' = ndials w)
    (fun _ => False)).
  { unfold Write, writeToUpstream.
    eapply hoare_bind with
      (Q := fun err w' => err = None
         /\ trace w' = trace w ++ [EvLinkWrite Packet c b None]
         /\ conns w' = <[c := conn_after_write None b cn]> (conns w)
         /\ fwd w' = fwd w /\ goroutines w' = goroutines w /\ ndials w' = ndials w).
    2:{ intros err w0 (-> & H). simpl. auto. }
    eapply hoare_bind with (Q := fun _ => P); [intros w0 H0; exact H0|]. intros f00.
    simpl write_loop.
    eapply hoare_bind with
      (Q := fun r w' => r = Return None
         /\ trace w' = trace w ++ [EvLinkWrite Packet c b None]
         /\ conns w' = <[c := conn_after_write None b cn]> (conns w)
         /\ fwd w' = fwd w /\ goroutines w' = goroutines w /\ ndials w' = ndials w).
    2:{ intros r w0 (-> & H). simpl. auto. }
    unfold loop_body. replace (-1 >? -1) with false by reflexivity.
    eapply hoare_bind with (Q := fun _ => P); [intros w0 H0; exact H0|]. intros ?.
    eapply hoare_bind with (Q := fun f w0 => P w0 /\ f = fwd w).
    { intros w0 H0. simpl. split; [exact H0|apply H0]. }
    intros f. apply hoare_pre. intros w00 [H00 ->]. rewrite Huc.
    apply hoare_stronger_pre with (P' := P); [|intros w0 ->; exact H00].
    clear w00 H00.
    unfold write_packet.
    eapply hoare_bind with (Q := fun f w0 => P w0 /\ f = fwd w).
    { intros w0 H0. simpl. split; [exact H0|apply H0]. }
    intros f. apply hoare_pre. intros w00 [H00 ->]. rewrite Hu.
    apply hoare_stronger_pre with (P' := P); [|intros w0 ->; exact H00].
    clear w00 H00.
    eapply hoare_bind with
      (Q := fun werr w' => werr = None
         /\ trace w' = trace w ++ [EvLinkWrite Packet c b None]
         /\ conns w' = <[c := conn_after_write None b cn]> (conns w)
         /\ fwd w' = fwd w /\ goroutines w' = goroutines w /\ ndials w' = ndials w).
    { apply hoare_link_write_stable; [exact HP| | |].
      - intros w0 (_ & _ & Hc0 & _) Hn. rewrite Hc0, Hc in Hn. discriminate.
      - intros w0 cn0 (_ & _ & Hc0 & _) Hl Hcl0. rewrite Hc0, Hc in Hl.
        injection Hl as <-. congruence.
      - intros w0 cn0 (Hf0 & Hn0 & Hc0 & Hg0 & Ht0) Hl _. rewrite Hc0, Hc in Hl.
        injection Hl as <-. rewrite Hw. simpl. rewrite Ht0, Hc0.
        repeat (split; [solve [auto]|]). exact Hn0. }
    intros werr. apply hoare_pre. intros w00 (-> & H00). intros w0 ->. simpl.
    split; [reflexivity|exact H00]. }
  assert (H0 : P w) by (unfold P; auto).
  specialize (H w H0).
  destruct (Write (S fuel) b w) as [r w'| | |]; try contradiction.
  destruct H as (-> & Ht & Hcs & Hf & Hg & Hn).
  exists w'. repeat split; auto.
  exact (idle_after_write w c cn None b Hc Hcl Hi w' Hg Hcs).
Qed.

Lemma Write_on_a_healthy_link_witness :
  exists w',
    Write 1 [x02] (linked_client []) = Done (1, None) w'
    /\ trace w' = trace (linked_client []) ++ [EvLinkWrite Packet 0 [x02] None]
    /\ idle w'.
Proof.
  destruct (Write_on_a_healthy_link 0 [x02] 0
              {| wscript := []; rscript := [];
                 written := [list_byte_of_string "7f3c"; [x01]]; closed := false |}
              (linked_client []))
    as (w' & Hr & Ht & _ & _ & _ & _ & Hi).
  - reflexivity.
  - reflexivity.
  - intros g gr Hg. vm_compute in Hg.
    destruct g as [|g]; [|destruct g; discriminate Hg].
    injection Hg as <-. unfold parked. simpl.
    eexists. split; [vm_compute; reflexivity|]. split; reflexivity.
  - vm_compute. reflexivity.
  - reflexivity.
  - reflexivity.
  - exists w'. split; [exact Hr|]. split; [exact Ht|exact Hi].
Defined.

(** ** Retrying the dial *)

Lemma same_run_refl w : same_run w w.
Proof. unfold same_run. auto 10. Qed.

Lemma idle_ext (w w' : world) :
  conns w' = conns w -> goroutines w' = goroutines w -> idle w -> idle w'.
Proof.
  intros Hc Hg Hi g gr Hgr. rewrite Hg in Hgr. specialize (Hi g gr Hgr).
  unfold parked in *. rewrite Hc. exact Hi.
Qed.

Lemma same_run_stable w : idle w -> loop_stable (same_run w).
Proof.
  intros Hi. apply loop_stable_idle; [intros s w0 H; exact H|].
  intros w0 (_ & _ & Hc & _ & Hg & _). exact (idle_ext w w0 Hc Hg Hi).
Qed.

Ltac same_run_tac H :=
  let Hf := fresh in let Hn := fresh in let Hc := fresh in
  let Hd := fresh in let Hg := fresh in let Ht := fresh in
  destruct H as (Hf & Hn & Hc & Hd & Hg & Ht);
  unfold same_run; simpl; rewrite ?Hf, ?Hn, ?Hc, ?Hd, ?Hg, ?Ht;
  repeat (split; [reflexivity|]); reflexivity.

Lemma hoare_eq {A B} (a r : A) (P : world -> Prop) (m : M B) Q E :
  (r = a -> hoare P m Q E) -> hoare (fun w => r = a /\ P w) m Q E.
Proof. intros H w [Hr Hw]. apply H; [exact Hr|exact Hw]. Qed.

Lemma q_sleep w d :
  idle w ->
  hoare (same_run w) (sleep d) (fun _ => same_run (emit (EvSleep d) w)) (fun _ => False).
Proof.
  intros Hi. apply hoare_sleep_stable; [apply same_run_stable, Hi|].
  intros w0 H. same_run_tac H.
Qed.

Lemma q_dial_err w t e :
  idle w -> dialServer (fwd w) (ndials w) t = DialErr e ->
  hoare (same_run w) (dial t)
    (fun r w' => r = inl e
       /\ same_run (emit (EvDial t (Some e)) (set_ndials (S (ndials w)) w)) w')
    (fun _ => False).
Proof.
  intros Hi Hd. apply hoare_dial_stable; [apply same_run_stable, Hi| |].
  - intros w0 e0 H Hd0. assert (e0 = e) as ->.
    { destruct H as (Hf & Hn & _). rewrite Hf, Hn, Hd in Hd0. congruence. }
    split; [reflexivity|]. same_run_tac H.
  - intros w0 ws rs H Hd0. destruct H as (Hf & Hn & _).
    rewrite Hf, Hn, Hd in Hd0. discriminate.
Qed.

Lemma q_dial_conn w t ws rs :
  idle w -> dialServer (fwd w) (ndials w) t = DialConn ws rs ->
  hoare (same_run w) (dial t)
    (fun r w' => r = inr (length (conns w))
       /\ same_run (emit (EvDial t None)
                      (set_conns (conns w ++ [new_conn ws rs])
                         (set_ndials (S (ndials w)) w))) w')
    (fun _ => False).
Proof.
  intros Hi Hd. apply hoare_dial_stable; [apply same_run_stable, Hi| |].
  - intros w0 e0 H Hd0. destruct H as (Hf & Hn & _).
    rewrite Hf, Hn, Hd in Hd0. discriminate.
  - intros w0 ws0 rs0 H Hd0.
    assert (ws0 = ws /\ rs0 = rs) as [-> ->].
    { destruct H as (Hf & Hn & _). rewrite Hf, Hn, Hd in Hd0.
      injection Hd0 as <- <-. auto. }
    split; [destruct H as (_ & _ & -> & _); reflexivity|]. same_run_tac H.
Qed.

Lemma q_link_write w k c frame cn :
  idle w -> conns w !! c = Some cn -> closed cn = false ->
  hoare (same_run w) (link_write k c frame)
    (fun r w' => r = hd None (wscript cn)
       /\ same_run (emit (EvLinkWrite k c frame (hd None (wscript cn)))
                      (set_conns (<[c := conn_after_write (hd None (wscript cn)) frame cn]>
                                    (conns w)) w)) w')
    (fun _ => False).
Proof.
  intros Hi Hc Hcl. apply hoare_link_write_stable; [apply same_run_stable, Hi| | |].
  - intros w0 (_ & _ & Hc0 & _) Hn. rewrite Hc0, Hc in Hn. discriminate.
  - intros w0 cn0 (_ & _ & Hc0 & _) Hl Hcl0. rewrite Hc0, Hc in Hl.
    injection Hl as <-. congruence.
  - intros w0 cn0 H Hl _.
    assert (cn0 = cn) as ->.
    { destruct H as (_ & _ & Hc0 & _). rewrite Hc0, Hc in Hl. congruence. }
    split; [reflexivity|]. same_run_tac H.
Qed.

Lemma q_pure (g : world -> world) w :
  (forall w0, same_run w w0 -> same_run (g w) (g w0)) ->
  hoare (same_run w) (fun w0 => Done tt (g w0)) (fun _ => same_run (g w)) (fun _ => False).
Proof. intros Hg w0 H. apply Hg, H. Qed.

Lemma q_get_fwd w :
  hoare (same_run w) get_fwd (fun f w' => f = fwd w /\ same_run w w') (fun _ => False).
Proof. intros w0 H. simpl. split; [apply H|exact H]. Qed.

Lemma idle_emit e w : idle w -> idle (emit e w).
Proof. apply idle_ext; reflexivity. Qed.

Lemma idle_set_ndials n w : idle w -> idle (set_ndials n w).
Proof. apply idle_ext; reflexivity. Qed.

Lemma idle_set_fwd f w : idle w -> idle (set_fwd f w).
Proof. apply idle_ext; reflexivity. Qed.

Lemma idle_new_conn cn w : idle w -> idle (set_conns (conns w ++ [cn]) w).
Proof.
  intros Hi g gr Hgr. specialize (Hi g gr Hgr). unfold parked in *.
  destruct (gstate_of gr); auto.
  destruct Hi as (cn0 & Hc & Hcl & Hrs). exists cn0. simpl.
  split; [apply lookup_app_l_Some, Hc|auto].
Qed.

Lemma idle_spawn c cn w :
  conns w !! c = Some cn -> closed cn = false -> rscript cn = [] -> idle w ->
  idle (set_goroutines (goroutines w ++ [{| glink := c; gstate_of := Reading |}]) w).
Proof.
  intros Hc Hcl Hrs Hi g gr Hgr. simpl in Hgr.
  apply lookup_app_Some in Hgr as [Hgr|[_ Hgr]].
  - exact (Hi g gr Hgr).
  - apply list_lookup_singleton_Some in Hgr as [_ <-].
    unfold parked. simpl. exists cn. auto.
Qed.

Lemma dialUpstream_refused w e :
  idle w -> dialServer (fwd w) (ndials w) (idleTimeout (fwd w)) = DialErr e ->
  hoare (same_run w) dialUpstream
    (fun r w' => r = Some (ErrDialing e)
       /\ same_run (emit (EvDial (idleTimeout (fwd w)) (Some e))
                      (set_ndials (S (ndials w))
                         (emit (EvLogDebug "Dialing upstream") w))) w')
    (fun _ => False).
Proof.
  intros Hi Hd. unfold dialUpstream.
  eapply hoare_bind.
  { apply (q_pure (emit (EvLogDebug "Dialing upstream")) w).
    intros w0 H. same_run_tac H. }
  intros ?. eapply hoare_bind; [apply q_get_fwd|]. intros f.
  apply hoare_eq. intros ->. simpl fwd.
  eapply hoare_bind.
  { apply q_dial_err with (e := e); [apply idle_emit, Hi|exact Hd]. }
  intros r. apply hoare_eq. intros ->. intros w0 H. split; [reflexivity|exact H].
Qed.

Lemma dialUpstream_connects w ws :
  idle w -> dialServer (fwd w) (ndials w) (idleTimeout (fwd w)) = DialConn ws [] ->
  hd None ws = None ->
  hoare (same_run w) dialUpstream
    (fun r w' => r = None
       /\ fwd w' = set_link (Some (length (conns w))) (Some (length (conns w))) (fwd w)
       /\ ndials w' = S (ndials w)
       /\ conns w' = conns w ++ [conn_after_write None (list_byte_of_string (id (fwd w)))
                                   (new_conn ws [])]
       /\ delivered w' = delivered w
       /\ goroutines w' = goroutines w ++ [{| glink := length (conns w); gstate_of := Reading |}]
       /\ trace w' = trace w ++ [EvLogDebug "Dialing upstream";
                                 EvDial (idleTimeout (fwd w)) None;
                                 EvLinkWrite Handshake (length (conns w))
                                   (list_byte_of_string (id (fwd w))) None;
                                 EvSpawn (length (conns w))])
    (fun _ => False).
Proof.
  intros Hi Hd Hw. unfold dialUpstream.
  eapply hoare_bind.
  { apply (q_pure (emit (EvLogDebug "Dialing upstream")) w).
    intros w0 H. same_run_tac H. }
  intros ?. eapply hoare_bind; [apply q_get_fwd|]. intros f.
  apply hoare_eq. intros ->. simpl fwd.
  eapply hoare_bind.
  { apply q_dial_conn with (ws := ws) (rs := []); [apply idle_emit, Hi|exact Hd]. }
  intros r. apply hoare_eq. intros ->.
  change (conns (emit (EvLogDebug "Dialing upstream") w)) with (conns w).
  change (ndials (emit (EvLogDebug "Dialing upstream") w)) with (ndials w).
  set (c := length (conns w)).
  set (idb := list_byte_of_string (id (fwd w))).
  set (W2 := emit (EvDial (idleTimeout (fwd w)) None) _).
  assert (Hi2 : idle W2).
  { apply (idle_ext (set_conns (conns w ++ [new_conn ws []]) w));
      [reflexivity|reflexivity|apply idle_new_conn, Hi]. }
  assert (Hc2 : conns W2 !! c = Some (new_conn ws [])).
  { simpl. apply list_lookup_middle. reflexivity. }
  eapply hoare_bind.
  { apply (q_link_write W2 Handshake c idb (new_conn ws []) Hi2 Hc2 eq_refl). }
  intros err. apply hoare_eq. intros ->.
  change (wscript (new_conn ws [])) with ws. rewrite Hw.
  set (W3 := emit (EvLinkWrite Handshake c idb None) _).
  assert (Hc3 : conns W3 !! c = Some (conn_after_write None idb (new_conn ws []))).
  { simpl. apply list_lookup_insert_eq. rewrite length_app. simpl. unfold c. lia. }
  assert (Hi3 : idle W3).
  { apply (idle_after_write W2 c (new_conn ws []) None idb Hc2 eq_refl Hi2);
      reflexivity. }
  eapply hoare_bind.
  { apply (q_pure (fun w0 => set_fwd (set_link (Some c) (Some c) (fwd w0)) w0) W3).
    intros w0 H. same_run_tac H. }
  intros ?.
  eapply hoare_bind.
  { apply (q_pure (fun w0 => emit (EvSpawn c)
               (set_goroutines (goroutines w0 ++ [{| glink := c; gstate_of := Reading |}]) w0))).
    intros w0 H. same_run_tac H. }
  intros ?. intros w0 H. simpl.
  destruct H as (Hf & Hn & Hc & Hd0 & Hg & Ht).
  rewrite Hf, Hn, Hc, Hd0, Hg, Ht. simpl.
  split; [reflexivity|]. split; [reflexivity|]. split; [reflexivity|].
  split.
  { unfold c. rewrite insert_app_r_alt by lia. rewrite Nat.sub_diag. reflexivity. }
  split; [reflexivity|]. split; [reflexivity|].
  rewrite <- !app_assoc. reflexivity.
Qed.

Lemma turn_fails b st T pa w e :
  idle w -> upstreamConn (fwd w) = None ->
  dialServer (fwd w) (ndials w) (idleTimeout (fwd w)) = DialErr e ->
  hoare (same_run w) (loop_body b st T pa true)
    (fun r w' => r = Continue (pa + 1) true
       /\ fwd w' = fwd w /\ ndials w' = S (ndials w) /\ conns w' = conns w
       /\ delivered w' = delivered w /\ goroutines w' = goroutines w
       /\ trace w' = trace w
                     ++ (if pa >? -1 then [EvSleep (backoff pa st T)] else [])
                     ++ [EvLogDebug "Dialing upstream";
                         EvDial (idleTimeout (fwd w)) (Some e);
                         EvLogError (ErrDialing e)])
    (fun _ => False).
Proof.
  intros Hi Huc Hd. unfold loop_body.
  set (wS := if pa >? -1 then emit (EvSleep (backoff pa st T)) w else w).
  assert (HiS : idle wS) by (unfold wS; destruct (pa >? -1); [apply idle_emit|]; exact Hi).
  assert (HfS : fwd wS = fwd w) by (unfold wS; destruct (pa >? -1); reflexivity).
  assert (HnS : ndials wS = ndials w) by (unfold wS; destruct (pa >? -1); reflexivity).
  assert (HtS : trace wS = trace w ++ (if pa >? -1 then [EvSleep (backoff pa st T)] else [])).
  { unfold wS; destruct (pa >? -1); [reflexivity|]. rewrite app_nil_r. reflexivity. }
  assert (HcS : conns wS = conns w /\ delivered wS = delivered w
                /\ goroutines wS = goroutines w).
  { unfold wS; destruct (pa >? -1); auto. }
  eapply hoare_bind with (Q := fun _ => same_run wS).
  { unfold wS. destruct (pa >? -1); [apply q_sleep, Hi|intros w0 H; exact H]. }
  intros ?. eapply hoare_bind; [apply q_get_fwd|]. intros f.
  apply hoare_eq. intros ->. rewrite HfS, Huc. simpl negb. cbv iota.
  eapply hoare_bind with (Q := fun _ => same_run wS); [intros w0 H; exact H|].
  intros ?. eapply hoare_bind.
  { apply dialUpstream_refused with (e := e); [exact HiS|]. rewrite HfS, HnS. exact Hd. }
  intros r. apply hoare_eq. intros ->.
  eapply hoare_bind.
  { apply (q_pure (emit (EvLogError (ErrDialing e)))). intros w0 H. same_run_tac H. }
  intros ?. intros w0 H. simpl.
  destruct H as (Hf & Hn & Hc & Hd0 & Hg & Ht).
  rewrite Hf, Hn, Hc, Hd0, Hg, Ht. simpl.
  destruct HcS as (HcS & HdS & HgS).
  rewrite HfS, HnS, HcS, HdS, HgS, HtS.
  repeat (split; [reflexivity|]). rewrite <- !app_assoc. reflexivity.
Qed.

Lemma turn_connects b st T pa w ws :
  idle w -> upstreamConn (fwd w) = None ->
  dialServer (fwd w) (ndials w) (idleTimeout (fwd w)) = DialConn ws [] ->
  hd None ws = None -> hd None (tl ws) = None ->
  hoare (same_run w) (loop_body b st T pa true)
    (fun r w' => r = Return None
       /\ fwd w' = set_link (Some (length (conns w))) (Some (length (conns w))) (fwd w)
       /\ ndials w' = S (ndials w)
       /\ conns w' = conns w ++ [{| wscript := tl (tl ws); rscript := [];
                                    written := [list_byte_of_string (id (fwd w)); b];
                                    closed := false |}]
       /\ delivered w' = delivered w
       /\ goroutines w' = goroutines w ++ [{| glink := length (conns w); gstate_of := Reading |}]
       /\ trace w' = trace w
                     ++ (if pa >? -1 then [EvSleep (backoff pa st T)] else [])
                     ++ [EvLogDebug "Dialing upstream";
                         EvDial (idleTimeout (fwd w)) None;
                         EvLinkWrite Handshake (length (conns w))
                           (list_byte_of_string (id (fwd w))) None;
                         EvSpawn (length (conns w));
                         EvLinkWrite Packet (length (conns w)) b None])
    (fun _ => False).
Proof.
  intros Hi Huc Hd Hw1 Hw2. unfold loop_body.
  set (wS := if pa >? -1 then emit (EvSleep (backoff pa st T)) w else w).
  assert (HiS : idle wS) by (unfold wS; destruct (pa >? -1); [apply idle_emit|]; exact Hi).
  assert (HfS : fwd wS = fwd w) by (unfold wS; destruct (pa >? -1); reflexivity).
  assert (HnS : ndials wS = ndials w) by (unfold wS; destruct (pa >? -1); reflexivity).
  assert (HtS : trace wS = trace w ++ (if pa >? -1 then [EvSleep (backoff pa st T)] else [])).
  { unfold wS; destruct (pa >? -1); [reflexivity|]. rewrite app_nil_r. reflexivity. }
  assert (HcS : conns wS = conns w /\ delivered wS = delivered w
                /\ goroutines wS = goroutines w).
  { unfold wS; destruct (pa >? -1); auto. }
  destruct HcS as (HcS & HdS & HgS).
  eapply hoare_bind with (Q := fun _ => same_run wS).
  { unfold wS. destruct (pa >? -1); [apply q_sleep, Hi|intros w0 H; exact H]. }
  intros ?. eapply hoare_bind; [apply q_get_fwd|]. intros f.
  apply hoare_eq. intros ->. rewrite HfS, Huc. simpl negb. cbv iota.
  eapply hoare_bind with (Q := fun _ => same_run wS); [intros w0 H; exact H|].
  intros ?. eapply hoare_bind.
  { apply dialUpstream_connects with (ws := ws); [exact HiS| |exact Hw1].
    rewrite HfS, HnS. exact Hd. }
  intros r. apply hoare_pre. intros w1 (-> & Hf1 & Hn1 & Hc1 & Hd1 & Hg1 & Ht1).
  apply hoare_stronger_pre with (P' := same_run w1);
    [|intros ? ->; apply same_run_refl].
  rewrite HfS, HnS, HcS, HdS, HgS, HtS in *.
  set (c := length (conns w)) in *.
  set (idb := list_byte_of_string (id (fwd w))) in *.
  set (cn1 := conn_after_write None idb (new_conn ws [])) in *.
  assert (Hl1 : conns w1 !! c = Some cn1).
  { rewrite Hc1. apply list_lookup_middle. reflexivity. }
  assert (Hi1 : idle w1).
  { apply (idle_ext (set_goroutines
                       (goroutines (set_conns (conns w ++ [cn1]) w)
                          ++ [{| glink := c; gstate_of := Reading |}])
                       (set_conns (conns w ++ [cn1]) w)));
      [exact Hc1|exact Hg1|].
    apply idle_spawn with (cn := cn1);
      [simpl; apply list_lookup_middle; reflexivity|reflexivity|reflexivity|].
    apply idle_new_conn, Hi. }
  unfold write_packet.
  eapply hoare_bind; [apply q_get_fwd|]. intros f.
  apply hoare_eq. intros ->. rewrite Hf1. simpl upstream. cbv iota.
  eapply hoare_bind.
  { apply (q_link_write w1 Packet c b cn1 Hi1 Hl1 eq_refl). }
  intros err. apply hoare_eq. intros ->.
  change (wscript cn1) with (tl ws). rewrite Hw2.
  intros w0 H. simpl.
  destruct H as (Hf & Hn & Hc & Hd0 & Hg & Ht).
  rewrite Hf, Hn, Hc, Hd0, Hg, Ht. simpl.
  rewrite Hf1, Hn1, Hc1, Hd1, Hg1, Ht1.
  split; [reflexivity|]. split; [reflexivity|]. split; [reflexivity|].
  split.
  { unfold c. rewrite insert_app_r_alt by lia. rewrite Nat.sub_diag. reflexivity. }
  split; [reflexivity|]. split; [reflexivity|].
  rewrite <- !app_assoc. reflexivity.
Qed.

Lemma sleeps_app l1 l2 : sleeps (l1 ++ l2) = sleeps l1 ++ sleeps l2.
Proof.
  induction l1 as [|e l1 IH]; [reflexivity|].
  destruct e; simpl; rewrite IH; reflexivity.
Qed.

Lemma backoffs_shift st T pa (m : nat) :
  backoff pa st T :: map (fun k => backoff (pa + 1 + Z.of_nat k) st T) (seq 0 m)
  = map (fun k => backoff (pa + Z.of_nat k) st T) (seq 0 (S m)).
Proof.
  cbn [seq map]. rewrite Z.add_0_r. f_equal.
  rewrite <- seq_shift, map_map. apply map_ext. intros k. f_equal. lia.
Qed.

Lemma write_loop_retries b st T ws (m : nat) :
  forall fuel pa w,
    idle w -> upstreamConn (fwd w) = None ->
    (forall k : nat, (k < m)%nat ->
       exists e, dialServer (fwd w) (ndials w + k)%nat (idleTimeout (fwd w)) = DialErr e) ->
    dialServer (fwd w) (ndials w + m)%nat (idleTimeout (fwd w)) = DialConn ws [] ->
    hd None ws = None -> hd None (tl ws) = None ->
    (m < fuel)%nat -> 0 <= pa ->
    hoare (same_run w) (write_loop fuel b st T pa true)
      (fun r w' => r = None
         /\ fwd w' = set_link (Some (length (conns w))) (Some (length (conns w))) (fwd w)
         /\ ndials w' = S (ndials w + m)%nat
         /\ conns w' = conns w ++ [{| wscript := tl (tl ws); rscript := [];
                                      written := [list_byte_of_string (id (fwd w)); b];
                                      closed := false |}]
         /\ delivered w' = delivered w
         /\ goroutines w' = goroutines w ++ [{| glink := length (conns w); gstate_of := Reading |}]
         /\ sleeps (trace w')
            = sleeps (trace w) ++ map (fun k => backoff (pa + Z.of_nat k) st T) (seq 0 (S m)))
      (fun _ => False).
Proof.
  induction m as [|m IH]; intros fuel pa w Hi Huc Hfail Hok Hw1 Hw2 Hfuel Hpa;
    (destruct fuel as [|fuel]; [lia|]); simpl write_loop.
  - rewrite Nat.add_0_r in Hok.
    eapply hoare_bind; [apply (turn_connects b st T pa w ws Hi Huc Hok Hw1 Hw2)|].
    intros r. apply hoare_pre. intros w1 (-> & Hf1 & Hn1 & Hc1 & Hd1 & Hg1 & Ht1).
    intros w0 ->. simpl. rewrite Nat.add_0_r.
    repeat (split; [assumption || reflexivity|]).
    rewrite Ht1, !sleeps_app. replace (pa >? -1) with true by lia.
    simpl. rewrite Z.add_0_r. reflexivity.
  - destruct (Hfail 0%nat ltac:(lia)) as [e He]. rewrite Nat.add_0_r in He.
    eapply hoare_bind; [apply (turn_fails b st T pa w e Hi Huc He)|].
    intros r. apply hoare_pre. intros w1 (-> & Hf1 & Hn1 & Hc1 & Hd1 & Hg1 & Ht1).
    apply hoare_stronger_pre with (P' := same_run w1);
      [|intros ? ->; apply same_run_refl].
    eapply hoare_weaker_post.
    { apply (IH fuel (pa + 1) w1).
      - exact (idle_ext w w1 Hc1 Hg1 Hi).
      - rewrite Hf1. exact Huc.
      - intros k Hk. rewrite Hf1, Hn1.
        replace (S (ndials w) + k)%nat with (ndials w + S k)%nat by lia.
        apply Hfail. lia.
      - rewrite Hf1, Hn1.
        replace (S (ndials w) + m)%nat with (ndials w + S m)%nat by lia. exact Hok.
      - exact Hw1.
      - exact Hw2.
      - lia.
      - lia. }
    intros r w' (-> & Hf & Hn & Hc & Hd & Hg & Ht). simpl in Hf, Hn, Hc, Hd, Hg, Ht.
    rewrite Hf1, Hn1, Hc1, Hd1, Hg1 in *.
    split; [reflexivity|]. split; [exact Hf|]. split; [rewrite Hn; f_equal; lia|].
    split; [exact Hc|]. split; [exact Hd|]. split; [exact Hg|].
    rewrite Ht, Ht1, !sleeps_app. replace (pa >? -1) with true by lia.
    simpl. rewrite <- app_assoc. f_equal. simpl.
    apply (backoffs_shift st T pa (S m)).
Qed.

Lemma write_loop_first_dial b st T ws (n : nat) fuel w :
  idle w -> upstreamConn (fwd w) = None ->
  (forall k : nat, (k < n)%nat ->
     exists e, dialServer (fwd w) (ndials w + k)%nat (idleTimeout (fwd w)) = DialErr e) ->
  dialServer (fwd w) (ndials w + n)%nat (idleTimeout (fwd w)) = DialConn ws [] ->
  hd None ws = None -> hd None (tl ws) = None ->
  (n < fuel)%nat ->
  hoare (same_run w) (write_loop fuel b st T (-1) true)
    (fun r w' => r = None
       /\ fwd w' = set_link (Some (length (conns w))) (Some (length (conns w))) (fwd w)
       /\ ndials w' = S (ndials w + n)%nat
       /\ conns w' = conns w ++ [{| wscript := tl (tl ws); rscript := [];
                                    written := [list_byte_of_string (id (fwd w)); b];
                                    closed := false |}]
       /\ delivered w' = delivered w
       /\ goroutines w' = goroutines w ++ [{| glink := length (conns w); gstate_of := Reading |}]
       /\ sleeps (trace w')
          = sleeps (trace w) ++ map (fun k => backoff (Z.of_nat k) st T) (seq 0 n))
    (fun _ => False).
Proof.
  intros Hi Huc Hfail Hok Hw1 Hw2 Hfuel.
  destruct fuel as [|fuel]; [lia|]. simpl write_loop.
  destruct n as [|n].
  - rewrite Nat.add_0_r in Hok.
    eapply hoare_bind;
      [apply (turn_connects b st T (-1) w ws Hi Huc Hok Hw1 Hw2)|].
    intros r. apply hoare_pre. intros w1 (-> & Hf1 & Hn1 & Hc1 & Hd1 & Hg1 & Ht1).
    intros w0 ->. simpl. rewrite Nat.add_0_r.
    repeat (split; [assumption || reflexivity|]).
    rewrite Ht1, !sleeps_app. simpl. reflexivity.
  - destruct (Hfail 0%nat ltac:(lia)) as [e He]. rewrite Nat.add_0_r in He.
    eapply hoare_bind; [apply (turn_fails b st T (-1) w e Hi Huc He)|].
    intros r. apply hoare_pre. intros w1 (-> & Hf1 & Hn1 & Hc1 & Hd1 & Hg1 & Ht1).
    apply hoare_stronger_pre with (P' := same_run w1);
      [|intros ? ->; apply same_run_refl].
    eapply hoare_weaker_post.
    { apply (write_loop_retries b st T ws n fuel (-1 + 1) w1).
      - exact (idle_ext w w1 Hc1 Hg1 Hi).
      - rewrite Hf1. exact Huc.
      - intros k Hk. rewrite Hf1, Hn1.
        replace (S (ndials w) + k)%nat with (ndials w + S k)%nat by lia.
        apply Hfail. lia.
      - rewrite Hf1, Hn1.
        replace (S (ndials w) + n)%nat with (ndials w + S n)%nat by lia. exact Hok.
      - exact Hw1.
      - exact Hw2.
      - lia.
      - lia. }
    intros r w' (-> & Hf & Hn & Hc & Hd & Hg & Ht). simpl in Hf, Hn, Hc, Hd, Hg, Ht.
    rewrite Hf1, Hn1, Hc1, Hd1, Hg1 in *.
    split; [reflexivity|]. split; [exact Hf|]. split; [rewrite Hn; f_equal; lia|].
    split; [exact Hc|]. split; [exact Hd|]. split; [exact Hg|].
    rewrite Ht, Ht1, !sleeps_app. simpl. rewrite app_nil_r. reflexivity.
Qed.

(** X8: on a client without a link whose copy loops, if any, have ended, when
    the server refuses the next [n] dials and then gives a connection that
    takes the identity frame and the packet (and sends nothing meanwhile),
    [Write] returns [len b] and no error after exactly [n + 1] dials and [n]
    sleeps, the [k]-th of them of [backoff k]; the new connection has
    received the identity frame and the packet, and nothing else. *)
Theorem Write_retries_until_the_dial_succeeds (n fuel : nat) b ws w :
  idle w -> upstreamConn (fwd w) = None ->
  (forall k : nat, (k < n)%nat ->
     exists e, dialServer (fwd w) (ndials w + k)%nat (idleTimeout (fwd w)) = DialErr e) ->
  dialServer (fwd w) (ndials w + n)%nat (idleTimeout (fwd w)) = DialConn ws [] ->
  hd None ws = None -> hd None (tl ws) = None ->
  (n < fuel)%nat ->
  exists w',
    Write fuel b w = Done (Z.of_nat (length b), None) w'
    /\ sleeps (trace w')
       = sleeps (trace w)
         ++ map (fun k => backoff (Z.of_nat k) (50 * Millisecond) (idleTimeout (fwd w)))
              (seq 0 n)
    /\ ndials w' = S (ndials w + n)%nat
    /\ conns w' = conns w ++ [{| wscript := tl (tl ws); rscript := [];
                                 written := [list_byte_of_string (id (fwd w)); b];
                                 closed := false |}]
    /\ upstreamConn (fwd w') = Some (length (conns w))
    /\ upstream (fwd w') = Some (length (conns w))
    /\ delivered w' = delivered w.
Proof.
  intros Hi Huc Hfail Hok Hw1 Hw2 Hfuel.
  assert (H : hoare (same_run w) (Write fuel b)
    (fun r w' => r = (Z.of_nat (length b), None)
       /\ fwd w' = set_link (Some (length (conns w))) (Some (length (conns w))) (fwd w)
       /\ ndials w' = S (ndials w + n)%nat
       /\ conns w' = conns w ++ [{| wscript := tl (tl ws); rscript := [];
                                    written := [list_byte_of_string (id (fwd w)); b];
                                    closed := false |}]
       /\ delivered w' = delivered w
       /\ sleeps (trace w')
          = sleeps (trace w)
            ++ map (fun k => backoff (Z.of_nat k) (50 * Millisecond) (idleTimeout (fwd w)))
                 (seq 0 n))
    (fun _ => False)).
  { unfold Write, writeToUpstream.
    eapply hoare_bind with
      (Q := fun err w' => err = None
         /\ fwd w' = set_link (Some (length (conns w))) (Some (length (conns w))) (fwd w)
         /\ ndials w' = S (ndials w + n)%nat
         /\ conns w' = conns w ++ [{| wscript := tl (tl ws); rscript := [];
                                      written := [list_byte_of_string (id (fwd w)); b];
                                      closed := false |}]
         /\ delivered w' = delivered w
         /\ sleeps (trace w')
            = sleeps (trace w)
              ++ map (fun k => backoff (Z.of_nat k) (50 * Millisecond) (idleTimeout (fwd w)))
                   (seq 0 n)).
    2:{ intros err w0 (-> & H). simpl. split; [reflexivity|exact H]. }
    eapply hoare_bind; [apply q_get_fwd|]. intros f. apply hoare_eq. intros ->.
    eapply hoare_weaker_post.
    { apply (write_loop_first_dial b (50 * Millisecond) (idleTimeout (fwd w)) ws n fuel w
               Hi Huc Hfail Hok Hw1 Hw2 Hfuel). }
    intros r w' (-> & Hf & Hn & Hc & Hd & Hg & Ht).
    repeat (split; [assumption || reflexivity|]). exact Ht. }
  specialize (H w (same_run_refl w)).
  destruct (Write fuel b w) as [r w'| | |]; try contradiction.
  destruct H as (-> & Hf & Hn & Hc & Hd & Ht).
  exists w'. split; [reflexivity|]. split; [exact Ht|]. split; [exact Hn|].
  split; [exact Hc|]. rewrite Hf. auto.
Qed.

Lemma Write_retries_until_the_dial_succeeds_witness :
  exists w',
    Write 2 [x01] late_client = Done (1, None) w'
    /\ sleeps (trace w') = [50000000]
    /\ ndials w' = 2%nat.
Proof.
  destruct (Write_retries_until_the_dial_succeeds 1 2 [x01] [] late_client)
    as (w' & Hr & Hs & Hn & _).
  - intros g gr Hg. destruct g; discriminate Hg.
  - reflexivity.
  - intros k Hk. destruct k as [|k]; [|lia]. eexists. reflexivity.
  - reflexivity.
  - reflexivity.
  - reflexivity.
  - lia.
  - exists w'. split; [exact Hr|]. split; [exact Hs|exact Hn].
Defined.

(** ** The copy loop after its link has been closed *)

Lemma copy_step_stopped g w :
  (forall gr, goroutines w !! g = Some gr -> gstate_of gr = Stopped) ->
  copy_step g w = w.
Proof.
  intros H. unfold copy_step.
  destruct (goroutines w !! g) as [[c st]|]; [|reflexivity].
  specialize (H _ eq_refl). simpl in H. rewrite H. reflexivity.
Qed.

Section ClosedLink.

Variables (g c : nat) (cn : conn) (wa : world).

Hypothesis loop_reads : goroutines wa !! g = Some {| glink := c; gstate_of := Reading |}.
Hypothesis link_closed : conns wa !! c = Some cn /\ closed cn = true.
Hypothesis chan_empty : copyToDownstreamError (fwd wa) = None.
Hypothesis others_stopped :
  forall g' gr, g' <> g -> goroutines wa !! g' = Some gr -> gstate_of gr = Stopped.

Lemma closed_link_step1 :
  copyToDownstream 1 g wa
  = set_goroutines (<[g := {| glink := c; gstate_of := Publishing ErrClosedLink |}]>
                      (goroutines wa))
      (emit (EvLoopClose g c) (set_conns (<[c := set_closed cn]> (conns wa)) wa)).
Proof.
  destruct link_closed as [Hc Hcl]. simpl. unfold copy_step.
  rewrite loop_reads. unfold link_read. rewrite Hc, Hcl. simpl.
  exact (loop_fail_eq g c ErrClosedLink cn wa loop_reads Hc).
Qed.

Lemma closed_link_step2 :
  copyToDownstream 2 g wa
  = set_goroutines (<[g := {| glink := c; gstate_of := Stopped |}]> (goroutines wa))
      (emit (EvPublish g ErrClosedLink)
         (set_fwd (set_chan (Some ErrClosedLink) (fwd wa))
            (emit (EvLoopClose g c)
               (set_conns (<[c := set_closed cn]> (conns wa)) wa)))).
Proof.
  change (copyToDownstream 2 g wa) with (copy_step g (copyToDownstream 1 g wa)).
  rewrite closed_link_step1.
  assert (Hl : (g < length (goroutines wa))%nat) by (eapply lookup_lt_Some, loop_reads).
  rewrite (publish_eq g c ErrClosedLink);
    [|simpl; apply list_lookup_insert_eq, Hl|exact chan_empty].
  simpl. rewrite list_insert_insert_eq. reflexivity.
Qed.

Lemma closed_link_chan k :
  copyToDownstreamError (fwd (copyToDownstream k g wa))
  = match k with
    | 0%nat | 1%nat => None
    | _ => Some ErrClosedLink
    end.
Proof.
  destruct k as [|[|k]]; [exact chan_empty| |].
  - rewrite closed_link_step1. exact chan_empty.
  - replace (S (S k)) with (2 + k)%nat by lia. rewrite copyToDownstream_add.
    rewrite stopped_stays with (c := c); [rewrite closed_link_step2; reflexivity|].
    rewrite closed_link_step2. simpl. apply list_lookup_insert_eq.
    eapply lookup_lt_Some, loop_reads.
Qed.

Lemma closed_link_settles k :
  (2 <= k)%nat -> copyToDownstream k g wa = copyToDownstream 2 g wa.
Proof.
  intros Hk. replace k with (2 + (k - 2))%nat by lia. rewrite copyToDownstream_add.
  apply stopped_stays with (c := c).
  rewrite closed_link_step2. simpl. apply list_lookup_insert_eq.
  eapply lookup_lt_Some, loop_reads.
Qed.

Lemma closed_link_others k g' :
  g' <> g -> copy_step g' (copyToDownstream k g wa) = copyToDownstream k g wa.
Proof.
  intros Hne. apply copy_step_stopped. intros gr.
  assert (Hg : goroutines (copyToDownstream k g wa) !! g' = goroutines wa !! g').
  { destruct (le_lt_dec 2 k) as [Hk|Hk].
    - rewrite (closed_link_settles k Hk), closed_link_step2. simpl.
      apply list_lookup_insert_ne. congruence.
    - destruct k as [|[|k]]; [reflexivity| |lia].
      rewrite closed_link_step1. simpl. apply list_lookup_insert_ne. congruence. }
  rewrite Hg. apply others_stopped, Hne.
Qed.

Lemma closed_link_batch batch k :
  run_batch batch (copyToDownstream k g wa)
  = copyToDownstream (k + count_occ Nat.eq_dec batch g) g wa.
Proof.
  revert k. induction batch as [|g' batch IH]; intros k.
  - simpl. rewrite Nat.add_0_r. reflexivity.
  - change (run_batch (g' :: batch) (copyToDownstream k g wa))
      with (run_batch batch (copy_step g' (copyToDownstream k g wa))).
    destruct (Nat.eq_dec g' g) as [->|Hne].
    + rewrite count_occ_cons_eq by reflexivity.
      replace (copy_step g (copyToDownstream k g wa))
        with (copyToDownstream (k + 1) g wa)
        by (rewrite copyToDownstream_add; reflexivity).
      rewrite IH. f_equal. lia.
    + rewrite count_occ_cons_neq by exact Hne.
      rewrite closed_link_others by exact Hne. apply IH.
Qed.

Lemma closed_link_recv s :
  forall k,
    (2 <= k + count_occ Nat.eq_dec (concat s) g)%nat ->
    exists s',
      recv_loop s (copyToDownstream k g wa)
      = Done ErrClosedLink
          (emit (EvRecv ErrClosedLink)
             (set_fwd (set_chan None (fwd (copyToDownstream 2 g wa)))
                (set_sched s' (copyToDownstream 2 g wa)))).
Proof.
  induction s as [|batch s IH]; intros k Hk.
  - simpl in Hk. rewrite Nat.add_0_r in Hk.
    rewrite (closed_link_settles k Hk).
    exists []. cbn [recv_loop]. rewrite (closed_link_chan 2). reflexivity.
  - destruct (le_lt_dec 2 k) as [H2|H2].
    + rewrite (closed_link_settles k H2).
      exists (batch :: s). cbn [recv_loop]. rewrite (closed_link_chan 2). reflexivity.
    + cbn [recv_loop]. rewrite closed_link_chan.
      replace (match k with 0%nat | 1%nat => None | _ => Some ErrClosedLink end)
        with (@None error) by (destruct k as [|[|k]]; [reflexivity|reflexivity|lia]).
      rewrite closed_link_batch. apply IH.
      simpl in Hk. rewrite count_occ_app in Hk. lia.
Qed.

End ClosedLink.

Lemma closeUpstream_on_a_quiet_link w c cn s0 s :
  upstream (fwd w) = Some c -> conns w !! c = Some cn -> idle w ->
  sched w = s0 :: s ->
  closeUpstream w
  = Done tt (set_fwd (set_link None None (fwd w))
               (emit (EvClose c)
                  (set_conns (<[c := set_closed cn]> (conns w)) (set_sched s w)))).
Proof.
  intros Hu Hc Hi Hs. unfold closeUpstream, bind, get_fwd. rewrite Hu.
  unfold link_close, bind, yield. rewrite Hs.
  rewrite run_batch_idle by (apply (idle_ext w); [reflexivity|reflexivity|exact Hi]).
  unfold close_conn. simpl. rewrite Hc. reflexivity.
Qed.

(** X9: [Close] returns once the copy loop has run.  On a client whose link
    is open and silent, with its copy loop waiting on it and every earlier
    loop ended, when the schedule gives that loop two steps after the close,
    [Close] returns [nil]: it closes the link, the loop finds it closed,
    closes it again, sends the error of its read, and [Close] receives it.
    Afterwards the forwarder has no link, the channel is empty, the loop has
    returned, and nothing was delivered downstream. *)
Theorem Close_returns_once_the_loop_has_run w g c cn s0 s :
  upstream (fwd w) = Some c ->
  copyToDownstreamError (fwd w) = None ->
  goroutines w !! g = Some {| glink := c; gstate_of := Reading |} ->
  conns w !! c = Some cn -> closed cn = false -> rscript cn = [] ->
  (forall g' gr, g' <> g -> goroutines w !! g' = Some gr -> gstate_of gr = Stopped) ->
  sched w = s0 :: s ->
  (2 <= count_occ Nat.eq_dec (concat s) g)%nat ->
  exists w',
    Close w = Done None w'
    /\ upstreamConn (fwd w') = None /\ upstream (fwd w') = None
    /\ copyToDownstreamError (fwd w') = None
    /\ goroutines w' = <[g := {| glink := c; gstate_of := Stopped |}]> (goroutines w)
    /\ conns w' = <[c := set_closed cn]> (conns w)
    /\ delivered w' = delivered w
    /\ trace w' = trace w ++ [EvClose c; EvLoopClose g c;
                              EvPublish g ErrClosedLink; EvRecv ErrClosedLink].
Proof.
  intros Hu Hch Hg Hc Hcl Hrs Ho Hs Hn.
  assert (Hi : idle w).
  { intros g' gr Hg'. destruct (decide (g' = g)) as [->|Hne].
    - rewrite Hg in Hg'. injection Hg' as <-. unfold parked. simpl.
      exists cn. auto.
    - unfold parked. rewrite (Ho g' gr Hne Hg'). exact I. }
  assert (Hlc : (c < length (conns w))%nat) by (eapply lookup_lt_Some, Hc).
  set (wa := set_fwd (set_link None None (fwd w))
               (emit (EvClose c)
                  (set_conns (<[c := set_closed cn]> (conns w)) (set_sched s w)))).
  assert (Hca : conns wa !! c = Some (set_closed cn) /\ closed (set_closed cn) = true).
  { split; [simpl; apply list_lookup_insert_eq, Hlc|reflexivity]. }
  destruct (closed_link_recv g c (set_closed cn) wa Hg Hca Hch Ho s 0%nat Hn)
    as [s' Hr].
  change (copyToDownstream 0 g wa) with wa in Hr.
  unfold Close, bind.
  rewrite (closeUpstream_on_a_quiet_link w c cn s0 s Hu Hc Hi Hs). fold wa.
  unfold recv. change (sched wa) with s. rewrite Hr.
  eexists. split; [reflexivity|].
  rewrite (closed_link_step2 g c (set_closed cn) wa Hg Hca Hch). simpl.
  repeat (split; [reflexivity|]).
  split; [rewrite list_insert_insert_eq; reflexivity|].
  split; [reflexivity|].
  rewrite <- !app_assoc. reflexivity.
Qed.

Lemma Close_returns_once_the_loop_has_run_witness :
  exists w',
    Close (set_sched [[]; [0; 0]]%nat (linked_client [])) = Done None w'
    /\ upstream (fwd w') = None
    /\ trace w' = trace (linked_client [])
                  ++ [EvClose 0; EvLoopClose 0 0;
                      EvPublish 0 ErrClosedLink; EvRecv ErrClosedLink].
Proof.
  destruct (Close_returns_once_the_loop_has_run
              (set_sched [[]; [0; 0]]%nat (linked_client [])) 0 0
              {| wscript := []; rscript := [];
                 written := [list_byte_of_string "7f3c"; [x01]]; closed := false |}
              [] [[0; 0]]%nat)
    as (w' & Hr & _ & Hu & _ & _ & _ & _ & Ht).
  - reflexivity.
  - reflexivity.
  - reflexivity.
  - vm_compute. reflexivity.
  - reflexivity.
  - reflexivity.
  - intros g' gr Hne Hg'. destruct g' as [|g']; [congruence|].
    destruct g'; discriminate Hg'.
  - reflexivity.
  - vm_compute. lia.
  - exists w'. split; [exact Hr|]. split; [exact Hu|exact Ht].
Defined.

(** ** A write on a link that was dropped *)

Lemma q_link_write_closed w k c frame cn :
  idle w -> conns w !! c = Some cn -> closed cn = true ->
  hoare (same_run w) (link_write k c frame)
    (fun r w' => r = Some ErrClosedLink
       /\ same_run (emit (EvLinkWrite k c frame (Some ErrClosedLink)) w) w')
    (fun _ => False).
Proof.
  intros Hi Hc Hcl. apply hoare_link_write_stable; [apply same_run_stable, Hi| | |].
  - intros w0 (_ & _ & Hc0 & _) Hn. rewrite Hc0, Hc in Hn. discriminate.
  - intros w0 cn0 H _ _. split; [reflexivity|]. same_run_tac H.
  - intros w0 cn0 (_ & _ & Hc0 & _) Hl Hcl0. rewrite Hc0, Hc in Hl.
    injection Hl as <-. congruence.
Qed.

Lemma same_run_close_conn c w w0 :
  same_run w w0 -> same_run (close_conn c w) (close_conn c w0).
Proof.
  intros H. unfold close_conn.
  assert (Hc : conns w0 = conns w) by apply H. rewrite Hc.
  destruct (conns w !! c); [same_run_tac H|exact H].
Qed.

Lemma q_closeUpstream w c :
  idle w -> upstream (fwd w) = Some c ->
  hoare (same_run w) closeUpstream
    (fun _ => same_run (set_fwd (set_link None None (fwd w))
                          (emit (EvClose c) (close_conn c w))))
    (fun _ => False).
Proof.
  intros Hi Hu. unfold closeUpstream.
  eapply hoare_bind; [apply q_get_fwd|]. intros f. apply hoare_eq. intros ->.
  rewrite Hu.
  eapply hoare_bind with (Q := fun _ => same_run (emit (EvClose c) (close_conn c w))).
  { apply hoare_link_close_stable; [apply same_run_stable, Hi|].
    intros w0 H. apply (same_run_close_conn c) in H. same_run_tac H. }
  intros ? w0 H. simpl.
  assert (Hf : fwd w0 = fwd w) by (rewrite <- (close_conn_fwd c w); apply H).
  rewrite Hf. same_run_tac H.
Qed.

Lemma close_conn_closed c cn w :
  conns w !! c = Some cn -> closed cn = true -> conns (close_conn c w) = conns w.
Proof.
  intros Hc Hcl. unfold close_conn. rewrite Hc. simpl.
  replace (set_closed cn) with cn by (destruct cn; simpl in Hcl; subst; reflexivity).
  apply list_insert_id, Hc.
Qed.

Lemma turn_on_a_dropped_link b st T w c cn :
  idle w -> upstreamConn (fwd w) = Some c -> upstream (fwd w) = Some c ->
  conns w !! c = Some cn -> closed cn = true ->
  hoare (same_run w) (loop_body b st T (-1) true)
    (fun r w' => r = Continue (-1) true
       /\ fwd w' = set_link None None (fwd w) /\ ndials w' = ndials w
       /\ conns w' = conns w /\ delivered w' = delivered w
       /\ goroutines w' = goroutines w
       /\ trace w' = trace w ++ [EvLinkWrite Packet c b (Some ErrClosedLink);
                                 EvClose c;
                                 EvLogError (ErrWriting ErrClosedLink)])
    (fun _ => False).
Proof.
  intros Hi Huc Hu Hc Hcl. unfold loop_body.
  change (-1 >? -1) with false. cbv iota.
  eapply hoare_bind with (Q := fun _ => same_run w); [intros w0 H; exact H|].
  intros ?. eapply hoare_bind; [apply q_get_fwd|]. intros f.
  apply hoare_eq. intros ->. rewrite Huc. unfold write_packet.
  eapply hoare_bind; [apply q_get_fwd|]. intros f.
  apply hoare_eq. intros ->. rewrite Hu.
  eapply hoare_bind; [apply (q_link_write_closed w Packet c b cn Hi Hc Hcl)|].
  intros r. apply hoare_eq. intros ->.
  eapply hoare_bind.
  { apply (q_closeUpstream (emit (EvLinkWrite Packet c b (Some ErrClosedLink)) w) c);
      [apply idle_emit, Hi|exact Hu]. }
  intros ?. eapply hoare_bind.
  { apply (q_pure (emit (EvLogError (ErrWriting ErrClosedLink)))).
    intros w0 H. same_run_tac H. }
  intros ? w0 H. simpl.
  destruct H as (Hf & Hn & Hc0 & Hd & Hg & Ht).
  rewrite Hf, Hn, Hc0, Hd, Hg, Ht. simpl.
  assert (Hcc := close_conn_closed c cn
                   (emit (EvLinkWrite Packet c b (Some ErrClosedLink)) w) Hc Hcl).
  unfold close_conn in *. simpl in *. rewrite Hc in *. simpl in *.
  repeat (split; [assumption || reflexivity|]).
  rewrite <- !app_assoc. reflexivity.
Qed.

(** X10: [Write] reconnects by itself.  When the relay has dropped the link
    and the copy loop has ended on it, the next [Write] finds the link
    closed, closes it, and dials again at once, without a sleep and without
    receiving the loop's error, which stays on the channel; when the server
    refuses [n] dials and then gives a connection that takes the identity
    frame and the packet, [Write] returns [len b] and no error after [n]
    sleeps of [backoff 0], ..., [backoff (n - 1)], and the packet is on the
    new connection, after the identity frame. *)
Theorem Write_reconnects_after_the_link_was_dropped (n fuel : nat) b c cn ws w :
  idle w -> upstreamConn (fwd w) = Some c -> upstream (fwd w) = Some c ->
  conns w !! c = Some cn -> closed cn = true ->
  (forall k : nat, (k < n)%nat ->
     exists e, dialServer (fwd w) (ndials w + k)%nat (idleTimeout (fwd w)) = DialErr e) ->
  dialServer (fwd w) (ndials w + n)%nat (idleTimeout (fwd w)) = DialConn ws [] ->
  hd None ws = None -> hd None (tl ws) = None ->
  (S n < fuel)%nat ->
  exists w',
    Write fuel b w = Done (Z.of_nat (length b), None) w'
    /\ sleeps (trace w')
       = sleeps (trace w)
         ++ map (fun k => backoff (Z.of_nat k) (50 * Millisecond) (idleTimeout (fwd w)))
              (seq 0 n)
    /\ ndials w' = S (ndials w + n)%nat
    /\ conns w' = conns w ++ [{| wscript := tl (tl ws); rscript := [];
                                 written := [list_byte_of_string (id (fwd w)); b];
                                 closed := false |}]
    /\ upstreamConn (fwd w') = Some (length (conns w))
    /\ upstream (fwd w') = Some (length (conns w))
    /\ copyToDownstreamError (fwd w') = copyToDownstreamError (fwd w)
    /\ delivered w' = delivered w.
Proof.
  intros Hi Huc Hu Hc Hcl Hfail Hok Hw1 Hw2 Hfuel.
  assert (H : hoare (same_run w) (Write fuel b)
    (fun r w' => r = (Z.of_nat (length b), None)
       /\ fwd w' = set_link (Some (length (conns w))) (Some (length (conns w))) (fwd w)
       /\ ndials w' = S (ndials w + n)%nat
       /\ conns w' = conns w ++ [{| wscript := tl (tl ws); rscript := [];
                                    written := [list_byte_of_string (id (fwd w)); b];
                                    closed := false |}]
       /\ delivered w' = delivered w
       /\ sleeps (trace w')
          = sleeps (trace w)
            ++ map (fun k => backoff (Z.of_nat k) (50 * Millisecond) (idleTimeout (fwd w)))
                 (seq 0 n))
    (fun _ => False)).
  { unfold Write, writeToUpstream.
    eapply hoare_bind with
      (Q := fun err w' => err = None
         /\ fwd w' = set_link (Some (length (conns w))) (Some (length (conns w))) (fwd w)
         /\ ndials w' = S (ndials w + n)%nat
         /\ conns w' = conns w ++ [{| wscript := tl (tl ws); rscript := [];
                                      written := [list_byte_of_string (id (fwd w)); b];
                                      closed := false |}]
         /\ delivered w' = delivered w
         /\ sleeps (trace w')
            = sleeps (trace w)
              ++ map (fun k => backoff (Z.of_nat k) (50 * Millisecond) (idleTimeout (fwd w)))
                   (seq 0 n)).
    2:{ intros err w0 (-> & H). simpl. split; [reflexivity|exact H]. }
    eapply hoare_bind; [apply q_get_fwd|]. intros f. apply hoare_eq. intros ->.
    destruct fuel as [|fuel]; [lia|]. simpl write_loop.
    eapply hoare_bind;
      [apply (turn_on_a_dropped_link b _ _ w c cn Hi Huc Hu Hc Hcl)|].
    intros r. apply hoare_pre. intros w1 (-> & Hf1 & Hn1 & Hc1 & Hd1 & Hg1 & Ht1).
    apply hoare_stronger_pre with (P' := same_run w1);
      [|intros ? ->; apply same_run_refl].
    eapply hoare_weaker_post.
    { apply (write_loop_first_dial b (50 * Millisecond) (idleTimeout (fwd w)) ws n fuel w1).
      - exact (idle_ext w w1 Hc1 Hg1 Hi).
      - rewrite Hf1. reflexivity.
      - intros k Hk. rewrite Hf1, Hn1. apply Hfail, Hk.
      - rewrite Hf1, Hn1. exact Hok.
      - exact Hw1.
      - exact Hw2.
      - lia. }
    intros r w' (-> & Hf & Hn & Hc' & Hd & Hg & Ht).
    rewrite Hf1, Hn1, Hc1, Hd1, Hg1 in *.
    split; [reflexivity|]. split; [exact Hf|]. split; [exact Hn|].
    split; [exact Hc'|]. split; [exact Hd|].
    rewrite Ht, Ht1, !sleeps_app. simpl. rewrite app_nil_r. reflexivity. }
  specialize (H w (same_run_refl w)).
  destruct (Write fuel b w) as [r w'| | |]; try contradiction.
  destruct H as (-> & Hf & Hn & Hc' & Hd & Ht).
  exists w'. split; [reflexivity|]. split; [exact Ht|]. split; [exact Hn|].
  split; [exact Hc'|]. rewrite Hf. auto.
Qed.

Lemma Write_reconnects_after_the_link_was_dropped_witness :
  exists w',
    Write 2 [x02] dropped_client = Done (1, None) w'
    /\ sleeps (trace w') = []
    /\ copyToDownstreamError (fwd w') = Some (ErrEnv "EOF")
    /\ upstream (fwd w') = Some 1%nat.
Proof.
  destruct (Write_reconnects_after_the_link_was_dropped 0 2 [x02] 0
              {| wscript := []; rscript := [];
                 written := [list_byte_of_string "7f3c"; [x01]]; closed := true |}
              [] dropped_client)
    as (w' & Hr & Hs & _ & _ & _ & Hu & Hch & _).
  - intros g gr Hg. vm_compute in Hg.
    destruct g as [|g]; [|destruct g; discriminate Hg].
    injection Hg as <-. exact I.
  - reflexivity.
  - reflexivity.
  - vm_compute. reflexivity.
  - reflexivity.
  - intros k Hk. lia.
  - reflexivity.
  - reflexivity.
  - reflexivity.
  - lia.
  - exists w'. split; [exact Hr|]. split; [exact Hs|]. split; [exact Hch|exact Hu].
Defined.

(** ** No nil dereference *)

Lemma np_bind {A B} P (m : M A) (k : A -> M B) Q R :
  no_panic P m Q -> (forall a, no_panic (Q a) (k a) R) -> no_panic P (bind m k) R.
Proof.
  intros Hm Hk w HP. unfold bind. specialize (Hm w HP).
  destruct (m w) as [a w'| | |]; auto. apply Hk, Hm.
Qed.

Lemma np_of_hoare {A} P (m : M A) Q :
  hoare P m Q (fun _ => False) -> no_panic P m Q.
Proof. intros H w Hw. specialize (H w Hw). destruct (m w); auto. Qed.

Lemma np_pre {A} (P : world -> Prop) (m : M A) Q :
  (forall w, P w -> no_panic (fun w' => w' = w) m Q) -> no_panic P m Q.
Proof. intros H w Hw. exact (H w Hw w eq_refl). Qed.

Lemma np_stronger_pre {A} (P P' : world -> Prop) (m : M A) Q :
  no_panic P' m Q -> (forall w, P w -> P' w) -> no_panic P m Q.
Proof. intros H HP w Hw. apply H, HP, Hw. Qed.

Lemma np_weaker_post {A} (P : world -> Prop) (m : M A) (Q Q' : A -> world -> Prop) :
  no_panic P m Q' -> (forall a w, Q' a w -> Q a w) -> no_panic P m Q.
Proof.
  intros H HQ w Hw. specialize (H w Hw). destruct (m w); auto.
Qed.

Lemma recv_loop_no_panic s : forall w, ~ panicked (recv_loop s w).
Proof.
  induction s as [|batch s IH]; intros w; simpl;
    destruct (copyToDownstreamError (fwd w)); simpl; auto.
Qed.

Lemma np_recv (P : world -> Prop) (Q : error -> world -> Prop) :
  bg_stable P ->
  (forall w e, P w -> copyToDownstreamError (fwd w) = Some e ->
               Q e (emit (EvRecv e) (set_fwd (set_chan None (fwd w)) w))) ->
  no_panic P recv Q.
Proof.
  intros HP HQ w Hw.
  pose proof (hoare_recv P Q (fun _ => True) HP HQ (fun _ _ => I) w Hw) as H.
  pose proof (recv_loop_no_panic (sched w) w) as Hn. unfold recv in *.
  destruct (recv_loop (sched w) w); simpl in *; auto.
Qed.

Lemma link_wf_ext w w' :
  upstreamConn (fwd w') = upstreamConn (fwd w) ->
  upstream (fwd w') = upstream (fwd w) ->
  (length (conns w) <= length (conns w'))%nat ->
  link_wf w -> link_wf w'.
Proof.
  intros Hc Hu Hl [H1 H2]. split; [congruence|].
  intros c Hc'. rewrite Hu in Hc'. specialize (H2 c Hc'). lia.
Qed.

Lemma bg_related_conns_length w w' :
  bg_related w w' -> length (conns w') = length (conns w).
Proof.
  intros R. pose proof (f_equal length (bg_frames _ _ R)) as H.
  unfold frames in H. rewrite !length_fmap in H. exact H.
Qed.

Lemma link_wf_bg : bg_stable link_wf.
Proof.
  intros w w' R. apply link_wf_ext.
  - apply R.
  - apply R.
  - rewrite (bg_related_conns_length w w' R). lia.
Qed.

Lemma bg_stable_conns_length (P : nat -> Prop) :
  bg_stable (fun w => P (length (conns w))).
Proof. intros w w' R H. rewrite (bg_related_conns_length w w' R). exact H. Qed.

Lemma close_conn_length c w : length (conns (close_conn c w)) = length (conns w).
Proof.
  unfold close_conn. destruct (conns w !! c); [|reflexivity].
  simpl. apply length_insert.
Qed.

Lemma dialUpstream_no_panic :
  no_panic link_wf dialUpstream
    (fun r w => link_wf w /\ (r = None -> upstream (fwd w) <> None)).
Proof.
  unfold dialUpstream.
  eapply np_bind with (Q := fun _ => link_wf).
  { intros w H. simpl. eapply link_wf_ext; [..|exact H]; reflexivity. }
  intros ?. eapply np_bind with (Q := fun _ => link_wf); [intros w H; exact H|].
  intros f.
  eapply np_bind with
    (Q := fun r w => link_wf w
             /\ match r with
                | inl _ => True
                | inr c => (c < length (conns w))%nat
                end).
  { apply np_of_hoare, hoare_dial; [exact link_wf_bg| |].
    - intros w e H _. split; [|exact I].
      eapply link_wf_ext; [..|exact H]; reflexivity.
    - intros w ws rs H _. split.
      + eapply link_wf_ext; [..|exact H]; try reflexivity.
        simpl. rewrite length_app. lia.
      + simpl. rewrite length_app. simpl. lia. }
  intros [e|c].
  { intros w [H _]. simpl. split; [exact H|discriminate]. }
  eapply np_bind with (Q := fun _ w => link_wf w /\ (c < length (conns w))%nat).
  { apply np_of_hoare, hoare_link_write.
    - apply bg_stable_and; [exact link_wf_bg|].
      apply (bg_stable_conns_length (fun n => (c < n)%nat)).
    - intros w [_ Hc] Hn. apply lookup_ge_None in Hn. lia.
    - intros w cn [H Hc] _ _. split; [|exact Hc].
      eapply link_wf_ext; [..|exact H]; reflexivity.
    - intros w cn [H Hc] _ _. split.
      + eapply link_wf_ext; [..|exact H]; try reflexivity.
        simpl. rewrite length_insert. lia.
      + simpl. rewrite length_insert. exact Hc. }
  intros [err|].
  { intros w [H _]. simpl. split; [exact H|discriminate]. }
  eapply np_bind with (Q := fun _ w => link_wf w /\ upstream (fwd w) <> None).
  { intros w [H Hc]. simpl. split; [|discriminate].
    split; [reflexivity|]. simpl. intros c' Hc'. injection Hc' as <-. exact Hc. }
  intros ?. eapply np_bind with (Q := fun _ w => link_wf w /\ upstream (fwd w) <> None).
  { intros w [H Hu]. simpl. split; [|exact Hu].
    eapply link_wf_ext; [..|exact H]; reflexivity. }
  intros ? w [H Hu]. simpl. split; [exact H|]. intros _. exact Hu.
Qed.

Lemma closeUpstream_no_panic :
  no_panic link_wf closeUpstream (fun _ => link_wf).
Proof.
  unfold closeUpstream.
  eapply np_bind with (Q := fun _ => link_wf); [intros w H; exact H|].
  intros f. destruct (upstream f) as [u|].
  - eapply np_bind with (Q := fun _ => link_wf).
    + apply np_of_hoare, hoare_link_close; [exact link_wf_bg|].
      intros w H. eapply link_wf_ext; [..|exact H]; simpl.
      * rewrite close_conn_fwd. reflexivity.
      * rewrite close_conn_fwd. reflexivity.
      * rewrite close_conn_length. lia.
    + intros ? w H. simpl. split; [reflexivity|]. simpl. discriminate.
  - intros w H. exact H.
Qed.

Lemma write_packet_no_panic b fd :
  no_panic (fun w => link_wf w /\ upstream (fwd w) <> None) (write_packet b fd)
    (fun _ => link_wf).
Proof.
  unfold write_packet.
  eapply np_bind with
    (Q := fun f w => link_wf w /\ upstream (fwd w) <> None /\ f = fwd w).
  { intros w [H Hu]. simpl. auto. }
  intros f. apply np_pre. intros w0 (H0 & Hu0 & ->).
  destruct (upstream (fwd w0)) as [u|] eqn:Hu; [|contradiction].
  apply np_stronger_pre with (P' := fun w => link_wf w /\ (u < length (conns w))%nat).
  2:{ intros w ->. split; [exact H0|]. apply H0, Hu. }
  eapply np_bind with (Q := fun _ => link_wf).
  { apply np_of_hoare, hoare_link_write.
    - apply bg_stable_and; [exact link_wf_bg|].
      apply (bg_stable_conns_length (fun n => (u < n)%nat)).
    - intros w [_ Hc] Hn. apply lookup_ge_None in Hn. lia.
    - intros w cn [H _] _ _. eapply link_wf_ext; [..|exact H]; reflexivity.
    - intros w cn [H _] _ _. eapply link_wf_ext; [..|exact H]; try reflexivity.
      simpl. rewrite length_insert. lia. }
  intros [werr|].
  - eapply np_bind; [apply closeUpstream_no_panic|]. intros ?.
    eapply np_bind with (Q := fun _ => link_wf).
    { intros w H. simpl. eapply link_wf_ext; [..|exact H]; reflexivity. }
    intros ? w H. exact H.
  - intros w H. exact H.
Qed.

Lemma loop_body_no_panic b st T pa fd :
  no_panic link_wf (loop_body b st T pa fd) (fun _ => link_wf).
Proof.
  unfold loop_body.
  eapply np_bind with (Q := fun _ => link_wf).
  { destruct (pa >? -1); [|intros w H; exact H].
    apply np_of_hoare, hoare_sleep; [exact link_wf_bg|].
    intros w H. eapply link_wf_ext; [..|exact H]; reflexivity. }
  intros ?.
  eapply np_bind with (Q := fun f w => link_wf w /\ f = fwd w).
  { intros w H. simpl. auto. }
  intros f. apply np_pre. intros w0 [H0 ->].
  destruct (upstreamConn (fwd w0)) as [uc|] eqn:Huc.
  - apply np_stronger_pre with (P' := fun w => link_wf w /\ upstream (fwd w) <> None).
    + apply write_packet_no_panic.
    + intros w ->. split; [exact H0|]. destruct H0 as [<- _]. congruence.
  - apply np_stronger_pre with (P' := link_wf); [|intros w ->; exact H0].
    eapply np_bind with (Q := fun _ => link_wf).
    { destruct (negb fd); [|intros w H; exact H].
      eapply np_bind with (Q := fun _ => link_wf); [|intros ? w H; exact H].
      apply np_recv; [exact link_wf_bg|].
      intros w e H _. eapply link_wf_ext; [..|exact H]; reflexivity. }
    intros ?. eapply np_bind; [apply dialUpstream_no_panic|].
    intros [err|].
    + eapply np_bind with (Q := fun _ => link_wf).
      { intros w [H _]. simpl. eapply link_wf_ext; [..|exact H]; reflexivity. }
      intros ? w H. exact H.
    + apply np_stronger_pre with (P' := fun w => link_wf w /\ upstream (fwd w) <> None).
      * apply write_packet_no_panic.
      * intros w [H Hu]. split; [exact H|]. apply Hu. reflexivity.
Qed.

Lemma write_loop_no_panic b st T fuel :
  forall pa fd, no_panic link_wf (write_loop fuel b st T pa fd) (fun _ => link_wf).
Proof.
  induction fuel as [|fuel IH]; intros pa fd; simpl.
  - intros w _. exact I.
  - eapply np_bind; [apply loop_body_no_panic|].
    intros [pa' fd'|err]; [apply IH|intros w H; exact H].
Qed.

Lemma link_inv_link_wf uuid sent w : link_inv uuid sent w -> link_wf w.
Proof.
  intros H. split; [apply H|].
  intros c Hc. destruct (li_live _ _ _ H c Hc) as [ps Hps].
  apply lookup_lt_Some in Hps. unfold frames in Hps.
  rewrite length_fmap in Hps. exact Hps.
Qed.

Lemma closeUpstream_clears_the_link w u w' :
  closeUpstream w = Done u w' -> upstream (fwd w') = None.
Proof.
  unfold closeUpstream, bind, get_fwd.
  destruct (upstream (fwd w)) as [c|] eqn:Hu.
  - unfold link_close, bind, yield.
    destruct (sched w); intros H; injection H as _ <-; reflexivity.
  - intros H. injection H as _ <-. exact Hu.
Qed.

Lemma closeUpstream_returns w : exists w', closeUpstream w = Done tt w'.
Proof.
  unfold closeUpstream, bind, get_fwd.
  destruct (upstream (fwd w)) as [c|].
  - unfold link_close, bind, yield. destruct (sched w); eexists; reflexivity.
  - eexists. reflexivity.
Qed.

(** X11: calls made one at a time dereference no nil [upstream].  The
    worlds of [reachable] are those a client comes to when its calls of
    [Write] and [Close] run one at a time (each begins when the one before
    has returned or has stopped for good), the copy loops running beside
    them on any schedule.  In every such world [upstream] is set whenever
    [upstreamConn] is, so neither a further [Write] nor a further [Close]
    panics.  The forwarder has no lock, and the condition is needed: when
    the [closeUpstream] of a [Close] made from another goroutine runs before
    the write of the packet of a [Write] in progress, that write finds
    [upstream] nil and panics. *)
Theorem calls_one_at_a_time_never_panic uuid sent w fuel b :
  reachable uuid sent w ->
  ~ panicked (Write fuel b w)
  /\ ~ panicked (Close w)
  /\ forall fd, exists w', closeUpstream w = Done tt w'
                           /\ panicked (write_packet b fd w').
Proof.
  intros Hr. apply reachable_link_inv, link_inv_link_wf in Hr. split; [|split].
  - assert (H : no_panic link_wf (Write fuel b) (fun _ => link_wf)).
    { unfold Write, writeToUpstream.
      eapply np_bind with (Q := fun _ => link_wf); [|intros [e|] w0 H; exact H].
      eapply np_bind with (Q := fun _ => link_wf); [intros w0 H; exact H|].
      intros f. apply write_loop_no_panic. }
    specialize (H w Hr). destruct (Write fuel b w); simpl; auto.
  - assert (H : no_panic link_wf Close (fun _ => link_wf)).
    { unfold Close.
      eapply np_bind; [apply closeUpstream_no_panic|]. intros ?.
      eapply np_bind with (Q := fun _ => link_wf); [|intros ? w0 H; exact H].
      apply np_recv; [exact link_wf_bg|].
      intros w0 e H _. eapply link_wf_ext; [..|exact H]; reflexivity. }
    specialize (H w Hr). destruct (Close w); simpl; auto.
  - intros fd. destruct (closeUpstream_returns w) as [w' Hc].
    exists w'. split; [exact Hc|]. apply closeUpstream_clears_the_link in Hc.
    unfold write_packet, bind, get_fwd. rewrite Hc. exact I.
Qed.

Lemma calls_one_at_a_time_never_panic_witness :
  ~ panicked (Write 2 [x02] after_first_write)
  /\ ~ panicked (Close after_first_write)
  /\ forall fd, exists w', closeUpstream after_first_write = Done tt w'
                           /\ panicked (write_packet [x02] fd w').
Proof.
  apply (calls_one_at_a_time_never_panic "7f3c" [[x01]] after_first_write 2 [x02]).
  unfold after_first_write. apply reach_Write, reach_start.
Defined.
